(** * Carpark record matching: a shallow embedding of the analysis scripts

    The scripts reconcile the registry of carparks ("database carparks",
    rows [park_id, name, display_address, latitude, longitude]) with the
    list of connected carparks (rows of a CSV file with a station name, an
    address and a position).  Three matching methods exist: by coordinates
    ([haversine_distance]), by name and address ([SequenceMatcher] ratios
    over [normalize_address]) and by building polygon containment.

    Python floats are kept abstract behind the class [PyFloat]; the
    development runs the scripts on IEEE binary64 numbers (Rocq's primitive
    floats) and reasons about the trigonometry on real numbers. *)

From Stdlib Require Import List String Ascii Bool Arith ZArith Lia.
From Stdlib Require Import Reals Lra.
From Stdlib Require Floats.PrimFloat Numbers.Cyclic.Int63.Uint63.
From Stdlib Require Import Sorted.
From Stdlib Require DecimalString DecimalNat.
Import ListNotations.

(** * Model *)

(** ** Python floats *)

(** The float operations the scripts use.  [of_ratio n d] is the decimal
    literal [n/d] (so [0.7] is [of_ratio 7 10]). *)
Class PyFloat (num : Type) : Type := {
  fadd : num -> num -> num;
  fsub : num -> num -> num;
  fmul : num -> num -> num;
  fdiv : num -> num -> num;
  fopp : num -> num;
  fle : num -> num -> bool;
  flt : num -> num -> bool;
  of_ratio : Z -> positive -> num
}.

Definition of_int {num} `{PyFloat num} (n : Z) : num := of_ratio n 1.
Definition of_len {num} `{PyFloat num} (n : nat) : num := of_int (Z.of_nat n).

(** [x >= y] and [x > y] are the converse comparisons, as in Python. *)
Definition fge {num} `{PyFloat num} (x y : num) : bool := fle y x.
Definition fgt {num} `{PyFloat num} (x y : num) : bool := flt y x.

(** The functions of Python's [math] module that [haversine_distance]
    imports. *)
Class PyMath (num : Type) `{PyFloat num} : Type := {
  radians : num -> num;
  msin : num -> num;
  mcos : num -> num;
  masin : num -> num;
  msqrt : num -> num
}.

(** Comparison laws: Python's [<] and [<=] on numbers that are not NaN form
    a total order, and decimal literals are ordered as the fractions they
    denote. *)
Class PyFloatOrder (num : Type) `{PyFloat num} : Prop := {
  flt_fle : forall x y : num, flt x y = negb (fle y x);
  fle_trans : forall x y z : num,
      fle x y = true -> fle y z = true -> fle x z = true;
  fle_total : forall x y : num, fle x y = true \/ fle y x = true;
  of_ratio_fle : forall n1 d1 n2 d2,
      fle (of_ratio n1 d1) (of_ratio n2 d2)
      = (n1 * Zpos d2 <=? n2 * Zpos d1)%Z
}.

(** Laws of the arithmetic that [haversine_distance] relies on.  They hold
    of the real numbers, and of IEEE arithmetic on finite numbers with a
    [sin] that is an odd function. *)
Class PyMathLaws (num : Type) `{PyMath num} : Prop := {
  fsub_swap : forall x y : num, fsub x y = fopp (fsub y x);
  fdiv_fopp : forall x y : num, fdiv (fopp x) y = fopp (fdiv x y);
  msin_fopp : forall x : num, msin (fopp x) = fopp (msin x);
  fmul_fopp_fopp : forall x : num, fmul (fopp x) (fopp x) = fmul x x;
  fmul_comm : forall x y : num, fmul x y = fmul y x;
  fsub_diag : forall x : num, fsub x x = of_int 0;
  fdiv_zero : forall n d, fdiv (of_int 0) (of_ratio (Zpos n) d) = of_int 0;
  msin_zero : msin (of_int 0) = of_int 0;
  fmul_zero_r : forall x : num, fmul x (of_int 0) = of_int 0;
  fmul_zero_l : forall x : num, fmul (of_int 0) x = of_int 0;
  fadd_zero : fadd (of_int 0) (of_int 0) = of_int 0;
  msqrt_zero : msqrt (of_int 0) = of_int 0;
  masin_zero : masin (of_int 0) = of_int 0
}.

(** *** IEEE binary64 *)

Abbreviation float := PrimFloat.float.

Definition float_of_Z (n : Z) : float :=
  match n with
  | Z0 => PrimFloat.zero
  | Zpos _ => PrimFloat.of_uint63 (Uint63.of_Z n)
  | Zneg p => PrimFloat.opp (PrimFloat.of_uint63 (Uint63.of_Z (Zpos p)))
  end.

#[export] Instance float_PyFloat : PyFloat float := {
  fadd := PrimFloat.add;
  fsub := PrimFloat.sub;
  fmul := PrimFloat.mul;
  fdiv := PrimFloat.div;
  fopp := PrimFloat.opp;
  fle := PrimFloat.leb;
  flt := PrimFloat.ltb;
  of_ratio n d := PrimFloat.div (float_of_Z n) (float_of_Z (Zpos d))
}.

(** *** Real numbers *)

Definition Rleb (x y : R) : bool := if Rle_dec x y then true else false.
Definition Rltb (x y : R) : bool := if Rlt_dec x y then true else false.

#[export] Instance R_PyFloat : PyFloat R := {
  fadd := Rplus;
  fsub := Rminus;
  fmul := Rmult;
  fdiv := Rdiv;
  fopp := Ropp;
  fle := Rleb;
  flt := Rltb;
  of_ratio n d := (IZR n / IZR (Zpos d))%R
}.

#[export] Instance R_PyMath : PyMath R := {
  radians x := (x * (PI / 180))%R;
  msin := sin;
  mcos := cos;
  masin := asin;
  msqrt := sqrt
}.

(** ** GeoMath: [haversine_distance] *)

Section Haversine.
Context {num : Type} `{PyMath num}.

(** [x ** 2] *)
Definition sqr (x : num) : num := fmul x x.

(** [haversine_distance(lat1, lon1, lat2, lon2)]; the first line maps
    [radians] over the four arguments. *)
Definition haversine_distance (lat1 lon1 lat2 lon2 : num) : num :=
  let lon1 := radians lon1 in
  let lat1 := radians lat1 in
  let lon2 := radians lon2 in
  let lat2 := radians lat2 in
  let dlon := fsub lon2 lon1 in
  let dlat := fsub lat2 lat1 in
  let a := fadd (sqr (msin (fdiv dlat (of_int 2))))
                (fmul (fmul (mcos lat1) (mcos lat2))
                      (sqr (msin (fdiv dlon (of_int 2))))) in
  let c := fmul (of_int 2) (masin (msqrt a)) in
  fmul c (of_int 6371000).
End Haversine.

(** ** TextNormalizer: Python strings

    A string is a list of 8-bit characters; case and white space are those
    of ASCII.  [None] for an absent address is the empty string: the
    scripts only test addresses for truth. *)

Definition str : Type := list ascii.

Definition lit (x : string) : str := list_ascii_of_string x.
Arguments lit x%_string.

Definition str_eqb (a b : str) : bool :=
  if list_eq_dec ascii_dec a b then true else false.

(** [c.lower()] *)
Definition lower_char (c : ascii) : ascii :=
  let n := nat_of_ascii c in
  if (65 <=? n) && (n <=? 90) then ascii_of_nat (n + 32) else c.

(** [s.lower()] *)
Definition lower (s : str) : str := map lower_char s.

(** [c.isspace()]: tab, newline, vertical tab, form feed, carriage return,
    the four separators 28 to 31, and space. *)
Definition is_space (c : ascii) : bool :=
  let n := nat_of_ascii c in
  ((9 <=? n) && (n <=? 13)) || ((28 <=? n) && (n <=? 32)).

Fixpoint lstrip (s : str) : str :=
  match s with
  | [] => []
  | c :: t => if is_space c then lstrip t else s
  end.

Definition rstrip (s : str) : str := rev (lstrip (rev s)).

(** [s.strip()] *)
Definition strip (s : str) : str := rstrip (lstrip s).

Fixpoint starts_with (p s : str) : bool :=
  match p, s with
  | [], _ => true
  | _ :: _, [] => false
  | a :: p', b :: s' => Ascii.eqb a b && starts_with p' s'
  end.

(** [p in s] *)
Fixpoint has_substring (p s : str) : bool :=
  starts_with p s ||
  match s with
  | [] => false
  | _ :: t => has_substring p t
  end.

(** [s.replace(old, new)] for a non-empty [old]: the occurrences of [old]
    are found from left to right and do not overlap.  [skip] counts the
    characters of an occurrence still to be passed over. *)
Fixpoint replace_from (old new : str) (skip : nat) (s : str) : str :=
  match s with
  | [] => []
  | c :: t =>
      match skip with
      | S k => replace_from old new k t
      | O =>
          if starts_with old s
          then new ++ replace_from old new (List.length old - 1) t
          else c :: replace_from old new 0 t
      end
  end.

Definition replace (old new s : str) : str := replace_from old new 0 s.

(** [s.split()]: the maximal runs of characters that are not white space.
    [word] is the run read so far, in reverse. *)
Fixpoint split_from (word : str) (s : str) : list str :=
  match s with
  | [] => match word with [] => [] | _ => [rev word] end
  | c :: t =>
      if is_space c
      then match word with
           | [] => split_from [] t
           | _ => rev word :: split_from [] t
           end
      else split_from (c :: word) t
  end.

Definition split (s : str) : list str := split_from [] s.

(** [sep.join(words)] *)
Fixpoint join (sep : str) (words : list str) : str :=
  match words with
  | [] => []
  | [w] => w
  | w :: ws => w ++ sep ++ join sep ws
  end.

(** Words: non-empty and free of white space. *)
Definition is_word (w : str) : Prop :=
  w <> [] /\ Forall (fun c => is_space c = false) w.

(** The dictionary [replacements] of [normalize_address], in its order. *)
Definition replacements : list (str * str) :=
  [ (lit "road", lit "rd");
    (lit "street", lit "st");
    (lit "avenue", lit "ave");
    (lit "building", lit "bldg");
    (lit "centre", lit "center");
    (lit "car park", lit "carpark");
    (lit ",", lit "");
    (lit ".", lit "") ].

(** [normalize_address(addr)] *)
Definition normalize_address (addr : str) : str :=
  match addr with
  | [] => []
  | _ =>
      let addr := strip (lower addr) in
      let addr :=
        fold_left (fun a r => replace (fst r) (snd r) a) replacements addr in
      join (lit " ") (split addr)
  end.

(** The words that [normalize_address] abbreviates. *)
Definition abbreviated : list str :=
  [ lit "road"; lit "street"; lit "avenue"; lit "building"; lit "centre";
    lit "car park" ].

Definition free_of_abbreviated (s : str) : bool :=
  forallb (fun p => negb (has_substring p s)) abbreviated.

(** ** Records

    A row of [db_carparks] is the tuple [(park_id, name, display_address,
    latitude, longitude)] of the query; a connected carpark is the
    dictionary built from a row of the CSV file. *)

Record db_carpark (num : Type) : Type := {
  park_id : str;
  db_name : str;
  db_addr : str;
  db_lat : num;
  db_lon : num
}.
Arguments park_id {num}.
Arguments db_name {num}.
Arguments db_addr {num}.
Arguments db_lat {num}.
Arguments db_lon {num}.

Record connected_carpark (num : Type) : Type := {
  name : str;
  address : str;
  lat : num;
  lon : num
}.
Arguments name {num}.
Arguments address {num}.
Arguments lat {num}.
Arguments lon {num}.

(** ** ProximityMatcher *)

Section Proximity.
Context {num : Type} `{PyMath num}.

(** [haversine_distance(conn_cp['lat'], conn_cp['lon'], float(db_lat),
    float(db_lon))] *)
Definition distance (conn_cp : connected_carpark num) (db_cp : db_carpark num)
  : num :=
  haversine_distance (lat conn_cp) (lon conn_cp) (db_lat db_cp) (db_lon db_cp).

Definition MATCH_THRESHOLD_METERS : num := of_int 100.

(** analyze-connected-overlap-coords.py.  The inner loop keeps
    [closest_match] and [closest_distance]; [None] for the distance is the
    initial [float('inf')], which every distance is below. *)
Definition below (d : num) (closest_distance : option num) : bool :=
  match closest_distance with
  | None => true
  | Some c => flt d c
  end.

Definition closest_step (conn_cp : connected_carpark num)
  (st : option (db_carpark num) * option num) (db_cp : db_carpark num)
  : option (db_carpark num) * option num :=
  let d := distance conn_cp db_cp in
  if below d (snd st) then (Some db_cp, Some d) else st.

Definition closest (conn_cp : connected_carpark num)
  (db_carparks : list (db_carpark num))
  : option (db_carpark num) * option num :=
  fold_left (closest_step conn_cp) db_carparks (None, None).

(** The entry appended to [matches], as the matched row and its distance;
    [None] when the record goes to [unmatched_connected]. *)
Definition closest_match (conn_cp : connected_carpark num)
  (db_carparks : list (db_carpark num)) : option (db_carpark num * num) :=
  match closest conn_cp db_carparks with
  | (Some m, Some d) =>
      if fle d MATCH_THRESHOLD_METERS then Some (m, d) else None
  | _ => None
  end.

(** analyze-matching-methods.py, method 1: the first row within 100 m
    ends the inner loop ([break]). *)
Fixpoint coord_match (conn_cp : connected_carpark num)
  (db_carparks : list (db_carpark num)) : option (db_carpark num * num) :=
  match db_carparks with
  | [] => None
  | db_cp :: rest =>
      let d := distance conn_cp db_cp in
      if fle d (of_int 100) then Some (db_cp, d) else coord_match conn_cp rest
  end.

Definition coord_matches (connected_carparks : list (connected_carpark num))
  (db_carparks : list (db_carpark num))
  : list (connected_carpark num * (db_carpark num * num)) :=
  flat_map (fun conn_cp =>
              match coord_match conn_cp db_carparks with
              | Some m => [(conn_cp, m)]
              | None => []
              end) connected_carparks.
End Proximity.

(** ** Python dictionaries with string keys

    An association list in insertion order without repeated keys:
    assigning to a present key replaces its value in place. *)

Fixpoint dict_get {V : Type} (k : str) (d : list (str * V)) : option V :=
  match d with
  | [] => None
  | (k', v) :: rest => if str_eqb k k' then Some v else dict_get k rest
  end.

Fixpoint dict_set {V : Type} (k : str) (v : V) (d : list (str * V))
  : list (str * V) :=
  match d with
  | [] => [(k, v)]
  | (k', v') :: rest =>
      if str_eqb k k' then (k, v) :: rest else (k', v') :: dict_set k v rest
  end.

(** [k in d] *)
Definition dict_mem {V : Type} (k : str) (d : list (str * V)) : bool :=
  match dict_get k d with Some _ => true | None => false end.

Definition keys {V : Type} (d : list (str * V)) : list str := map fst d.
Definition values {V : Type} (d : list (str * V)) : list V := map snd d.

(** ** LexicalMatcher *)

Section Lexical.
Context {num : Type} `{PyFloat num}.

(** [SequenceMatcher(None, a, b).ratio()], from difflib. *)
Variable ratio : str -> str -> num.

(** The loops that keep the best score start from [best_match = None],
    [best_score = 0] and replace both on a strictly greater score. *)
Definition best_step (score : db_carpark num -> num)
  (st : option (db_carpark num) * num) (row : db_carpark num)
  : option (db_carpark num) * num :=
  let combined_score := score row in
  if fgt combined_score (snd st) then (Some row, combined_score) else st.

Definition best_of (score : db_carpark num -> num)
  (rows : list (db_carpark num)) : option (db_carpark num) * num :=
  fold_left (best_step score) rows (None, of_int 0).

(** *** Name-led: analyze-connected-overlap.py

    The query of this script returns the first three columns of a row
    only, and its connected carparks are the raw rows of the CSV file: the
    positions of the records are not read here. *)

(** [db_names = {row[1].lower(): (row[0], row[1], row[2]) for row in
    db_carparks}] *)
Definition db_names (db_carparks : list (db_carpark num))
  : list (str * db_carpark num) :=
  fold_left (fun d row => dict_set (lower (db_name row)) row d)
            db_carparks [].

Definition similarity (a b : str) : num := ratio (lower a) (lower b).

Definition truthy (s : str) : bool :=
  match s with [] => false | _ => true end.

Definition name_led_score (conn_name conn_address : str)
  (row : db_carpark num) : num :=
  let name_score := similarity conn_name (db_name row) in
  let addr_score :=
    if truthy conn_address && truthy (db_addr row)
    then similarity conn_address (db_addr row)
    else of_int 0 in
  fadd (fmul name_score (of_ratio 7 10)) (fmul addr_score (of_ratio 3 10)).

Inductive overlap_result : Type :=
| Exact (row : db_carpark num)
| Fuzzy (row : db_carpark num) (best_score : num)
| Unmatched (best_match : option (db_carpark num)) (best_score : num).

(** The fuzzy branch.  [best_match] is set whenever [best_score] has left
    its initial 0, so the entry of [matches] can read it. *)
Definition fuzzy_match (conn_cp : connected_carpark num)
  (db_carparks : list (db_carpark num)) : overlap_result :=
  let st := best_of (name_led_score (name conn_cp) (address conn_cp))
                    (values (db_names db_carparks)) in
  if fgt (snd st) (of_ratio 6 10)
  then match fst st with
       | Some row => Fuzzy row (snd st)
       | None => Unmatched None (snd st)
       end
  else Unmatched (fst st) (snd st).

(** The body of the loop over [connected_carparks]. *)
Definition overlap_match (conn_cp : connected_carpark num)
  (db_carparks : list (db_carpark num)) : overlap_result :=
  match dict_get (lower (name conn_cp)) (db_names db_carparks) with
  | Some row => Exact row
  | None => fuzzy_match conn_cp db_carparks
  end.

(** *** Address-led: analyze-matching-methods.py, method 2 *)

Definition address_similarity (addr1 addr2 : str) : num :=
  ratio (normalize_address addr1) (normalize_address addr2).

Definition address_led_score (conn_cp : connected_carpark num)
  (db_cp : db_carpark num) : num :=
  let addr_sim := address_similarity (address conn_cp) (db_addr db_cp) in
  let name_sim := ratio (lower (name conn_cp)) (lower (db_name db_cp)) in
  fadd (fmul addr_sim (of_ratio 7 10)) (fmul name_sim (of_ratio 3 10)).

(** The entry appended to [addr_matches], as the matched row and its
    score. *)
Definition addr_match (conn_cp : connected_carpark num)
  (db_carparks : list (db_carpark num)) : option (db_carpark num * num) :=
  let st := best_of (address_led_score conn_cp) db_carparks in
  if fge (snd st) (of_ratio 7 10)
  then match fst st with
       | Some row => Some (row, snd st)
       | None => None
       end
  else None.

Definition addr_matches (connected_carparks : list (connected_carpark num))
  (db_carparks : list (db_carpark num))
  : list (connected_carpark num * (db_carpark num * num)) :=
  flat_map (fun conn_cp =>
              match addr_match conn_cp db_carparks with
              | Some m => [(conn_cp, m)]
              | None => []
              end) connected_carparks.
End Lexical.

(** *** A model of difflib for short strings

    [SequenceMatcher] finds the longest block common to both strings (the
    earliest in [a], then the earliest in [b]), recurses on the pieces to
    its left and to its right, and returns [2.0 * matches / length].  The
    junk heuristic only applies to strings of 200 characters or more and is
    left out. *)

Fixpoint common_prefix (a b : str) : nat :=
  match a, b with
  | x :: a', y :: b' => if Ascii.eqb x y then S (common_prefix a' b') else 0
  | _, _ => 0
  end.

Fixpoint scan_b (a : str) (i j : nat) (b : str) (best : nat * nat * nat)
  : nat * nat * nat :=
  match b with
  | [] => best
  | _ :: b' =>
      let k := common_prefix a b in
      scan_b a i (S j) b' (if snd best <? k then (i, j, k) else best)
  end.

Fixpoint scan_a (i : nat) (a b : str) (best : nat * nat * nat)
  : nat * nat * nat :=
  match a with
  | [] => best
  | _ :: a' => scan_a (S i) a' b (scan_b a i 0 b best)
  end.

Definition find_longest_match (a b : str) : nat * nat * nat :=
  scan_a 0 a b (0, 0, 0).

Fixpoint matching_size (fuel : nat) (a b : str) : nat :=
  match fuel with
  | O => 0
  | S fuel' =>
      let '(i, j, k) := find_longest_match a b in
      if k =? 0 then 0
      else matching_size fuel' (firstn i a) (firstn j b) + k
           + matching_size fuel' (skipn (i + k) a) (skipn (j + k) b)
  end.

Definition difflib_ratio {num : Type} `{PyFloat num} (a b : str) : num :=
  let matches := matching_size (S (List.length a)) a b in
  let length := List.length a + List.length b in
  if length =? 0 then of_int 1
  else fdiv (fmul (of_int 2) (of_len matches)) (of_len length).

(** ** Exceptions *)

Inductive exception : Type :=
| ValueError
| KeyError
| IndexError
| ZeroDivisionError
| LibraryError.  (* raised inside pyproj or shapely *)

Inductive result (A : Type) : Type :=
| Ok (a : A)
| Raise (e : exception).
Arguments Ok {A} a.
Arguments Raise {A} e.

Definition bind {A B : Type} (r : result A) (k : A -> result B) : result B :=
  match r with
  | Ok a => k a
  | Raise e => Raise e
  end.

Notation "x <- r ;; k" := (bind r (fun x => k))
  (at level 61, r at next level, right associativity).

(** [a / b] on two lengths *)
Definition truediv {num : Type} `{PyFloat num} (a b : nat) : result num :=
  if b =? 0 then Raise ZeroDivisionError
  else Ok (fdiv (of_len a) (of_len b)).

(** [len(matches) / len(total) * 100] *)
Definition overlap_percentage {num : Type} `{PyFloat num}
  (matches total : nat) : result num :=
  q <- truediv matches total ;; Ok (fmul q (of_int 100)).

(** ** ContainmentMatcher *)

(** What the scripts use of pyproj and shapely: the transformer from
    EPSG:2326 to EPSG:4326, the construction of a polygon from a ring of
    positions, and the containment of a point [(x, y)]. *)
Record GeoLib (num : Type) : Type := {
  polygon : Type;
  transform : num -> num -> result (num * num);
  shape : list (num * num) -> result polygon;
  contains : polygon -> num * num -> bool
}.
Arguments polygon {num}.
Arguments transform {num}.
Arguments shape {num}.
Arguments contains {num}.

(** A feature of the building file: its geometry (optional), and the
    properties the scripts read. *)
Record geometry (num : Type) : Type := {
  gtype : str;
  coordinates : list (list (list num))
}.
Arguments gtype {num}.
Arguments coordinates {num}.

Record feature (num : Type) : Type := {
  feat_geometry : option (geometry num);
  BUILDINGSTRUCTUREID : option str;
  OFFICIALBUILDINGNAMEEN : option str;
  OFFICIALBUILDINGNAMETC : option str
}.
Arguments feat_geometry {num}.
Arguments BUILDINGSTRUCTUREID {num}.
Arguments OFFICIALBUILDINGNAMEEN {num}.
Arguments OFFICIALBUILDINGNAMETC {num}.

Section Containment.
Context {num : Type} (lib : GeoLib num).

Record building : Type := {
  id : str;
  name_en : option str;
  name_tc : option str;
  bldg_polygon : polygon lib
}.

(** [for x, y in coords: lon, lat = transformer.transform(x, y);
    wgs84_coords.append((lon, lat))].  A position that is not a pair fails
    to unpack. *)
Fixpoint reproject (coords : list (list num)) : result (list (num * num)) :=
  match coords with
  | [] => Ok []
  | [x; y] :: rest =>
      p <- transform lib x y ;;
      ps <- reproject rest ;;
      Ok (p :: ps)
  | _ :: _ => Raise ValueError
  end.

(** The body of the loop over [buildings_data['features']]: [None] when
    the feature is skipped. *)
Definition load_feature (f : feature num) : result (option building) :=
  match feat_geometry f with
  | None => Ok None
  | Some g =>
      if str_eqb (gtype g) (lit "Polygon")
      then match coordinates g with
           | [] => Raise IndexError
           | coords :: _ =>
               wgs84_coords <- reproject coords ;;
               match BUILDINGSTRUCTUREID f with
               | None => Raise KeyError
               | Some i =>
                   poly <- shape lib wgs84_coords ;;
                   Ok (Some {| id := i;
                               name_en := OFFICIALBUILDINGNAMEEN f;
                               name_tc := OFFICIALBUILDINGNAMETC f;
                               bldg_polygon := poly |})
               end
           end
      else Ok None
  end.

Fixpoint load_buildings (features : list (feature num))
  : result (list building) :=
  match features with
  | [] => Ok []
  | f :: rest =>
      b <- load_feature f ;;
      bs <- load_buildings rest ;;
      Ok (match b with Some b => b :: bs | None => bs end)
  end.

(** The first building that contains the connected carpark. *)
Definition conn_building (buildings : list building)
  (conn_cp : connected_carpark num) : option building :=
  find (fun bldg => contains lib (bldg_polygon bldg)
                      (lon conn_cp, lat conn_cp)) buildings.

(** The first row inside that building. *)
Definition polygon_match (buildings : list building)
  (conn_cp : connected_carpark num) (db_carparks : list (db_carpark num))
  : option (db_carpark num * building) :=
  match conn_building buildings conn_cp with
  | None => None
  | Some bldg =>
      match find (fun db_cp => contains lib (bldg_polygon bldg)
                                 (db_lon db_cp, db_lat db_cp)) db_carparks
      with
      | Some db_cp => Some (db_cp, bldg)
      | None => None
      end
  end.

Definition polygon_matches (buildings : list building)
  (connected_carparks : list (connected_carpark num))
  (db_carparks : list (db_carpark num))
  : list (connected_carpark num * (db_carpark num * building)) :=
  flat_map (fun conn_cp =>
              match polygon_match buildings conn_cp db_carparks with
              | Some m => [(conn_cp, m)]
              | None => []
              end) connected_carparks.

(** analyze-matching-methods.py, method 3: everything from the loading of
    the footprints to the matching sits in one [try] block; the handler
    prints the error. *)
Definition method3 (features : list (feature num))
  (connected_carparks : list (connected_carpark num))
  (db_carparks : list (db_carpark num))
  : result (list (connected_carpark num * (db_carpark num * building))) :=
  buildings <- load_buildings features ;;
  Ok (polygon_matches buildings connected_carparks db_carparks).
End Containment.
Arguments id {num lib}.
Arguments name_en {num lib}.
Arguments name_tc {num lib}.
Arguments bldg_polygon {num lib}.

(** *** A stand-in for pyproj and shapely

    The plane: positions are already longitude and latitude, a ring needs
    four positions, and containment is decided by counting the edges that
    a ray from the point crosses. *)

Section Plane.
Context {num : Type} `{PyFloat num}.

Definition crosses (p a b : num * num) : bool :=
  let '(x, y) := p in
  let '(xi, yi) := a in
  let '(xj, yj) := b in
  negb (Bool.eqb (fgt yi y) (fgt yj y))
  && flt x (fadd (fdiv (fmul (fsub xj xi) (fsub y yi)) (fsub yj yi)) xi).

Fixpoint crossings (p : num * num) (ring : list (num * num)) : bool :=
  match ring with
  | a :: (b :: _) as rest => xorb (crosses p a b) (crossings p rest)
  | _ => false
  end.

Definition plane : GeoLib num := {|
  polygon := list (num * num);
  transform x y := Ok (x, y);
  shape ring := if List.length ring <? 4 then Raise LibraryError else Ok ring;
  contains ring p := crossings p ring
|}.
End Plane.

(** ** MatchFusion: analyze-unique-aggregate-matches.py *)

(** A value of [all_matches]; the keys that only some methods set are
    optional. *)
Record match_entry (num : Type) : Type := {
  connected_name : str;
  connected_addr : str;
  entry_db_name : str;
  entry_park_id : str;
  methods : list str;
  coord_distance : option num;
  addr_score : option num;
  entry_db_addr : option str;
  building_name_en : option (option str);
  building_name_tc : option (option str)
}.
Arguments connected_name {num}.
Arguments connected_addr {num}.
Arguments entry_db_name {num}.
Arguments entry_park_id {num}.
Arguments methods {num}.
Arguments coord_distance {num}.
Arguments addr_score {num}.
Arguments entry_db_addr {num}.
Arguments building_name_en {num}.
Arguments building_name_tc {num}.

Section Fusion.
Context {num : Type} `{PyMath num}.
Variable ratio : str -> str -> num.
Variable lib : GeoLib num.

Abbreviation all_matches_t := (list (str * match_entry num)).

(** [if key not in all_matches: all_matches[key] = fresh], followed by the
    assignments to [all_matches[key]] that every method makes. *)
Definition record_match (key : str) (fresh : match_entry num)
  (update : match_entry num -> match_entry num)
  (all_matches : all_matches_t) : all_matches_t :=
  let all_matches :=
    if dict_mem key all_matches then all_matches
    else dict_set key fresh all_matches in
  match dict_get key all_matches with
  | Some e => dict_set key (update e) all_matches
  | None => all_matches
  end.

(** Method 1, for one connected carpark. *)
Definition coordinate_step (db_carparks : list (db_carpark num))
  (all_matches : all_matches_t) (conn_cp : connected_carpark num)
  : all_matches_t :=
  match coord_match conn_cp db_carparks with
  | None => all_matches
  | Some (db_cp, d) =>
      record_match (name conn_cp)
        {| connected_name := name conn_cp;
           connected_addr := address conn_cp;
           entry_db_name := db_name db_cp;
           entry_park_id := park_id db_cp;
           methods := [];
           coord_distance := Some d;
           addr_score := None;
           entry_db_addr := None;
           building_name_en := None;
           building_name_tc := None |}
        (fun e =>
           {| connected_name := connected_name e;
              connected_addr := connected_addr e;
              entry_db_name := entry_db_name e;
              entry_park_id := entry_park_id e;
              methods := methods e ++ [lit "coordinate"];
              coord_distance := Some d;
              addr_score := addr_score e;
              entry_db_addr := entry_db_addr e;
              building_name_en := building_name_en e;
              building_name_tc := building_name_tc e |})
        all_matches
  end.

(** Method 2, for one connected carpark. *)
Definition address_step (db_carparks : list (db_carpark num))
  (all_matches : all_matches_t) (conn_cp : connected_carpark num)
  : all_matches_t :=
  match addr_match ratio conn_cp db_carparks with
  | None => all_matches
  | Some (best_match, best_score) =>
      record_match (name conn_cp)
        {| connected_name := name conn_cp;
           connected_addr := address conn_cp;
           entry_db_name := db_name best_match;
           entry_park_id := park_id best_match;
           methods := [];
           coord_distance := None;
           addr_score := Some best_score;
           entry_db_addr := None;
           building_name_en := None;
           building_name_tc := None |}
        (fun e =>
           {| connected_name := connected_name e;
              connected_addr := connected_addr e;
              entry_db_name := entry_db_name e;
              entry_park_id := entry_park_id e;
              methods := methods e ++ [lit "address"];
              coord_distance := coord_distance e;
              addr_score := Some best_score;
              entry_db_addr := Some (db_addr best_match);
              building_name_en := building_name_en e;
              building_name_tc := building_name_tc e |})
        all_matches
  end.

(** Method 3, for one connected carpark. *)
Definition polygon_step (buildings : list (building lib))
  (db_carparks : list (db_carpark num))
  (all_matches : all_matches_t) (conn_cp : connected_carpark num)
  : all_matches_t :=
  match polygon_match lib buildings conn_cp db_carparks with
  | None => all_matches
  | Some (db_cp, bldg) =>
      record_match (name conn_cp)
        {| connected_name := name conn_cp;
           connected_addr := address conn_cp;
           entry_db_name := db_name db_cp;
           entry_park_id := park_id db_cp;
           methods := [];
           coord_distance := None;
           addr_score := None;
           entry_db_addr := None;
           building_name_en := Some (name_en bldg);
           building_name_tc := Some (name_tc bldg) |}
        (fun e =>
           {| connected_name := connected_name e;
              connected_addr := connected_addr e;
              entry_db_name := entry_db_name e;
              entry_park_id := entry_park_id e;
              methods := methods e ++ [lit "polygon"];
              coord_distance := coord_distance e;
              addr_score := addr_score e;
              entry_db_addr := entry_db_addr e;
              building_name_en := Some (name_en bldg);
              building_name_tc := Some (name_tc bldg) |})
        all_matches
  end.

(** The [try] block of method 3: an exception while the footprints are
    loaded is caught and printed, and leaves [all_matches] as it was. *)
Definition polygon_method (features : list (feature num))
  (connected_carparks : list (connected_carpark num))
  (db_carparks : list (db_carpark num)) (all_matches : all_matches_t)
  : all_matches_t :=
  match load_buildings lib features with
  | Raise _ => all_matches
  | Ok buildings =>
      fold_left (polygon_step buildings db_carparks) connected_carparks
                all_matches
  end.

(** [all_matches] after the three methods. *)
Definition all_matches (connected_carparks : list (connected_carpark num))
  (db_carparks : list (db_carpark num)) (features : list (feature num))
  : all_matches_t :=
  let m1 := fold_left (coordinate_step db_carparks) connected_carparks [] in
  let m2 := fold_left (address_step db_carparks) connected_carparks m1 in
  polygon_method features connected_carparks db_carparks m2.

(** The script up to the first overlap percentage it prints. *)
Definition aggregate_main (connected_carparks : list (connected_carpark num))
  (db_carparks : list (db_carpark num)) (features : list (feature num))
  : result (all_matches_t * num) :=
  let m := all_matches connected_carparks db_carparks features in
  pct <- overlap_percentage (List.length m) (List.length connected_carparks) ;;
  Ok (m, pct).
End Fusion.

(** ** Reports *)

Section Reports.
Context {num : Type} `{PyFloat num}.

Definition is_match (r : overlap_result (num := num)) : bool :=
  match r with
  | Exact _ | Fuzzy _ _ => true
  | Unmatched _ _ => false
  end.

(** analyze-connected-overlap.py: the matching loop, then the summary with
    [len(matches) / len(connected_carparks) * 100]. *)
Definition overlap_main (ratio : str -> str -> num)
  (connected_carparks : list (connected_carpark num))
  (db_carparks : list (db_carpark num))
  : result (list overlap_result * num) :=
  let results :=
    map (fun conn_cp => overlap_match ratio conn_cp db_carparks)
        connected_carparks in
  let matches := filter is_match results in
  pct <- overlap_percentage (List.length matches)
                            (List.length connected_carparks) ;;
  Ok (results, pct).

(** analyze-connected-geojson-overlap.py: each row is matched to the first
    connected building that contains it; the summary prints
    [len(matches) / len(db_carparks) * 100]. *)
Definition geojson_overlap_main (lib : GeoLib num)
  (connected_buildings : list (polygon lib))
  (db_carparks : list (db_carpark num))
  : result (list (db_carpark num * polygon lib) * num) :=
  let matches :=
    flat_map (fun db_cp =>
                match find (fun b => contains lib b (db_lon db_cp, db_lat db_cp))
                           connected_buildings with
                | Some b => [(db_cp, b)]
                | None => []
                end) db_carparks in
  pct <- overlap_percentage (List.length matches) (List.length db_carparks) ;;
  Ok (matches, pct).
End Reports.

(** *** The matches in the order the script finds them

    Every match a method finds is an event: the key it uses in
    [all_matches], the address of the connected carpark, the [park_id] it
    found and the name of the method. *)

Record event : Type := {
  ev_key : str;
  ev_addr : str;
  ev_park_id : str;
  ev_method : str
}.

Section FusionTrace.
Context {num : Type} `{PyMath num}.
Variable ratio : str -> str -> num.
Variable lib : GeoLib num.

Definition coordinate_event (db_carparks : list (db_carpark num))
  (conn_cp : connected_carpark num) : option event :=
  match coord_match conn_cp db_carparks with
  | Some (db_cp, _) =>
      Some {| ev_key := name conn_cp; ev_addr := address conn_cp;
              ev_park_id := park_id db_cp; ev_method := lit "coordinate" |}
  | None => None
  end.

Definition address_event (db_carparks : list (db_carpark num))
  (conn_cp : connected_carpark num) : option event :=
  match addr_match ratio conn_cp db_carparks with
  | Some (db_cp, _) =>
      Some {| ev_key := name conn_cp; ev_addr := address conn_cp;
              ev_park_id := park_id db_cp; ev_method := lit "address" |}
  | None => None
  end.

(** No building is available when loading the footprints raised. *)
Definition polygon_event (features : list (feature num))
  (db_carparks : list (db_carpark num))
  (conn_cp : connected_carpark num) : option event :=
  match load_buildings lib features with
  | Raise _ => None
  | Ok buildings =>
      match polygon_match lib buildings conn_cp db_carparks with
      | Some (db_cp, _) =>
          Some {| ev_key := name conn_cp; ev_addr := address conn_cp;
                  ev_park_id := park_id db_cp;
                  ev_method := lit "polygon" |}
      | None => None
      end
  end.

Definition events_of (ev : connected_carpark num -> option event)
  (connected_carparks : list (connected_carpark num)) : list event :=
  flat_map (fun conn_cp => match ev conn_cp with
                           | Some e => [e]
                           | None => []
                           end) connected_carparks.

Definition match_events (connected_carparks : list (connected_carpark num))
  (db_carparks : list (db_carpark num)) (features : list (feature num))
  : list event :=
  events_of (coordinate_event db_carparks) connected_carparks
  ++ events_of (address_event db_carparks) connected_carparks
  ++ events_of (polygon_event features db_carparks) connected_carparks.

(** The events about one key. *)
Definition events_for (k : str) (evs : list event) : list event :=
  filter (fun e => str_eqb (ev_key e) k) evs.
End FusionTrace.

(** *** What the fusion maintains *)

Section FusionInvariant.
Context {num : Type}.

Abbreviation dict := (list (str * match_entry num)).

(** What [all_matches] holds after the events [E]: one entry for each key
    that has an event, made by the first event of the key and extended by
    the later ones. *)
Definition holds (d : dict) (E : list event) : Prop :=
  NoDup (keys d)
  /\ forall k,
      match dict_get k d with
      | None => events_for k E = []
      | Some e =>
          exists ev rest,
            events_for k E = ev :: rest
            /\ connected_name e = k
            /\ connected_addr e = ev_addr ev
            /\ entry_park_id e = ev_park_id ev
            /\ methods e = map ev_method (ev :: rest)
      end.

(** The conditions that the entries and updates of all three methods
    meet. *)
Definition entry_of (ev : event) (fresh : match_entry num)
  (update : match_entry num -> match_entry num) : Prop :=
  connected_name fresh = ev_key ev
  /\ connected_addr fresh = ev_addr ev
  /\ entry_park_id fresh = ev_park_id ev
  /\ methods fresh = []
  /\ forall e,
      connected_name (update e) = connected_name e
      /\ connected_addr (update e) = connected_addr e
      /\ entry_park_id (update e) = entry_park_id e
      /\ methods (update e) = methods e ++ [ev_method ev].

(** A step of a method records the event of its connected carpark, if it
    has one. *)
Definition records (step : dict -> connected_carpark num -> dict)
  (event_of : connected_carpark num -> option event) : Prop :=
  forall d conn_cp,
    match event_of conn_cp with
    | None => step d conn_cp = d
    | Some ev =>
        exists fresh update,
          step d conn_cp = record_match (ev_key ev) fresh update d
          /\ entry_of ev fresh update
    end.

(** Every method uses the name of the connected carpark as the key. *)
Definition keyed (event_of : connected_carpark num -> option event) : Prop :=
  forall c ev, event_of c = Some ev -> ev_key ev = name c.
End FusionInvariant.

(** *** The conflict policy that the specification recommends

    Section 4.7: the id that most strategies endorse; among ids with as
    many endorsements, the one of the strategy that comes first in the
    order containment, proximity, lexical. *)

Definition endorsements (x : str) (candidates : list (option str)) : nat :=
  List.length
    (filter (fun c => match c with
                      | Some y => str_eqb x y
                      | None => false
                      end) candidates).

Definition spec_fused_id (containment proximity lexical : option str)
  : option str :=
  let candidates := [containment; proximity; lexical] in
  fold_left
    (fun best c =>
       match c, best with
       | None, _ => best
       | Some x, None => Some x
       | Some x, Some b =>
           if endorsements b candidates <? endorsements x candidates
           then Some x else best
       end) candidates None.

(** ** Example data *)

Section Examples.
Context {num : Type} `{PyFloat num}.

Definition row (i n a : string) (la lo : Z) : db_carpark num :=
  {| park_id := lit i; db_name := lit n; db_addr := lit a;
     db_lat := of_ratio la 10000; db_lon := of_ratio lo 10000 |}.

Definition station (n a : string) (la lo : Z) : connected_carpark num :=
  {| name := lit n; address := lit a;
     lat := of_ratio la 10000; lon := of_ratio lo 10000 |}.

(** A connected carpark at (22.2800, 114.1600), and rows about 11 m, 56 m
    and 133 m to its north. *)
Definition station7 : connected_carpark num :=
  station "Wan Chai Station 7" "" 222800 1141600.

Definition great_eagle : db_carpark num :=
  row "tdc12p3" "Great Eagle Centre" "23 Harbour Road" 222801 1141600.

Definition harbour_centre : db_carpark num :=
  row "tdc7p1" "Harbour Centre" "25 Harbour Road" 222812 1141600.

Definition sun_hung_kai : db_carpark num :=
  row "tdc31p2" "Sun Hung Kai Centre" "30 Harbour Road" 222805 1141600.

(** A footprint around all of them, as a closed ring, and a footprint with
    a position of three coordinates. *)
Definition footprint (i : string) (ring : list (list num)) : feature num :=
  {| feat_geometry := Some {| gtype := lit "Polygon"; coordinates := [ring] |};
     BUILDINGSTRUCTUREID := Some (lit i);
     OFFICIALBUILDINGNAMEEN := None;
     OFFICIALBUILDINGNAMETC := None |}.

Definition pos (x y : Z) : list num := [of_ratio x 10000; of_ratio y 10000].

Definition podium : feature num :=
  footprint "B1"
    [ pos 1141590 222795; pos 1141610 222795; pos 1141610 222815;
      pos 1141590 222815; pos 1141590 222795 ].

(** What [plane] loads from [podium]. *)
Definition podium_building : building (plane (num := num)) :=
  {| id := lit "B1"; name_en := None; name_tc := None;
     bldg_polygon :=
       ([ (of_ratio 1141590 10000, of_ratio 222795 10000);
          (of_ratio 1141610 10000, of_ratio 222795 10000);
          (of_ratio 1141610 10000, of_ratio 222815 10000);
          (of_ratio 1141590 10000, of_ratio 222815 10000);
          (of_ratio 1141590 10000, of_ratio 222795 10000) ]
        : polygon plane) |}.

Definition with_height : feature num :=
  footprint "B0"
    [ [of_ratio 1141500 10000; of_ratio 222700 10000; of_int 5];
      pos 1141510 222700; pos 1141510 222710; pos 1141500 222700 ].

(** Names that differ by a suffix, and a connected carpark without an
    address. *)
Definition city_hall : connected_carpark num :=
  station "City Hall" "" 222820 1141610.

Definition city_hall_cp : db_carpark num :=
  row "tdc5p1" "City Hall CP" "5 Edinburgh Place" 222821 1141611.

(** The same name at two addresses. *)
Definition central : connected_carpark num :=
  station "Central Car Park" "1 Harbour Road" 222800 1141600.

Definition central_row : db_carpark num :=
  row "tdc9p4" "Central Car Park" "88 Queensway" 222790 1141650.
End Examples.

(** ** Loading the connected carparks

    A row of [csv.DictReader] is a dictionary from the column names of the
    header to strings.  analyze-matching-methods.py,
    analyze-unique-aggregate-matches.py and export-carparks-csv.py build a
    connected carpark from the row inside [try], and pass over the row on
    [ValueError] and [KeyError]. *)

Section Loading.
Context {num : Type}.

(** [float(s)], [None] when it raises [ValueError]. *)
Variable float_of_str : str -> option num.

(** [row[key]] *)
Definition csv_field (row : list (str * str)) (key : string) : result str :=
  match dict_get (lit key) row with
  | Some v => Ok v
  | None => Raise KeyError
  end.

Definition to_float (s : str) : result num :=
  match float_of_str s with
  | Some x => Ok x
  | None => Raise ValueError
  end.

(** The dictionary display that is appended to [connected_carparks]; its
    values are evaluated from left to right. *)
Definition connected_of_row (row : list (str * str))
  : result (connected_carpark num) :=
  n <- csv_field row "Station Name" ;;
  a <- csv_field row "Address" ;;
  la <- csv_field row "Latitude" ;;
  la <- to_float la ;;
  lo <- csv_field row "Longitude" ;;
  lo <- to_float lo ;;
  Ok {| name := n; address := a; lat := la; lon := lo |}.

(** [for row in reader: try: ... except (ValueError, KeyError): pass] *)
Fixpoint read_connected (rows : list (list (str * str)))
  : result (list (connected_carpark num)) :=
  match rows with
  | [] => Ok []
  | row :: rest =>
      match connected_of_row row with
      | Ok c => cs <- read_connected rest ;; Ok (c :: cs)
      | Raise ValueError | Raise KeyError => read_connected rest
      | Raise e => Raise e
      end
  end.

(** The rows that load, in the order of the file. *)
Definition loadable (rows : list (list (str * str)))
  : list (connected_carpark num) :=
  flat_map (fun row => match connected_of_row row with
                       | Ok c => [c]
                       | Raise _ => []
                       end) rows.

End Loading.

(** ** The lists of analyze-connected-overlap-coords.py *)

Section CoordsLists.
Context {num : Type} `{PyMath num}.

(** An entry of [matches]: the connected carpark, [closest_match] and
    [closest_distance]. *)
Definition coords_matched : Type :=
  connected_carpark num * db_carpark num * num.

(** An entry of [unmatched_connected]: the connected carpark,
    [nearest_db_name] and [distance_m] ([None] for [float('inf')]). *)
Definition coords_unmatched : Type :=
  connected_carpark num * str * option num.

(** [closest_match['db_name'] if closest_match else 'None'] *)
Definition nearest_db_name (closest_match : option (db_carpark num)) : str :=
  match closest_match with
  | Some m => db_name m
  | None => lit "None"
  end.

(** The body of the loop over [connected_carparks], after the inner
    loop. *)
Definition coords_step (db_carparks : list (db_carpark num))
  (lists : list coords_matched * list coords_unmatched)
  (conn_cp : connected_carpark num)
  : list coords_matched * list coords_unmatched :=
  match closest_match conn_cp db_carparks with
  | Some (m, d) => (fst lists ++ [(conn_cp, m, d)], snd lists)
  | None =>
      let st := closest conn_cp db_carparks in
      (fst lists, snd lists ++ [(conn_cp, nearest_db_name (fst st), snd st)])
  end.

Definition coords_lists (connected_carparks : list (connected_carpark num))
  (db_carparks : list (db_carpark num))
  : list coords_matched * list coords_unmatched :=
  fold_left (coords_step db_carparks) connected_carparks ([], []).

(** The script up to the overlap percentage of its summary. *)
Definition coords_main (connected_carparks : list (connected_carpark num))
  (db_carparks : list (db_carpark num))
  : result (list coords_matched * list coords_unmatched * num) :=
  let lists := coords_lists connected_carparks db_carparks in
  pct <- overlap_percentage (List.length (fst lists))
                            (List.length connected_carparks) ;;
  Ok (lists, pct).
End CoordsLists.

(** ** Unbound names

    Besides the exceptions above, a script stops with [NameError] when it
    reads a variable that no executed statement has assigned, and with
    [TypeError] when [sorted] compares [None] with a string. *)

Inductive script_error : Type :=
| Exception (e : exception)
| NameError
| TypeError.

Inductive outcome (A : Type) : Type :=
| Completes (a : A)
| Stops (e : script_error).
Arguments Completes {A} a.
Arguments Stops {A} e.

Definition run {A B : Type} (r : result A) (k : A -> outcome B) : outcome B :=
  match r with
  | Ok a => k a
  | Raise e => Stops (Exception e)
  end.

(** ** The script analyze-matching-methods.py *)

Section MatchingMethods.
Context {num : Type} `{PyMath num}.
Variable ratio : str -> str -> num.
Variable lib : GeoLib num.

(** The three lists of matches and the three percentages of the summary
    comparison. *)
Record comparison : Type := {
  cmp_coord : list (connected_carpark num * (db_carpark num * num));
  cmp_addr : list (connected_carpark num * (db_carpark num * num));
  cmp_polygon :
    list (connected_carpark num * (db_carpark num * building lib));
  cmp_percentages : num * num * num
}.

(** Methods 1 and 2 print their overlap right after their loop.  Method 3
    assigns [polygon_matches] inside its [try] block, after the footprints
    are loaded; what the block prints afterwards can only raise into its
    own handlers, which print the error.  The summary then reads
    [coord_matches], [addr_matches] and [polygon_matches]. *)
Definition matching_methods_main
  (connected_carparks : list (connected_carpark num))
  (db_carparks : list (db_carpark num)) (features : list (feature num))
  : outcome comparison :=
  let n := List.length connected_carparks in
  let coord := coord_matches connected_carparks db_carparks in
  run (overlap_percentage (List.length coord) n) (fun p1 =>
  let addr := addr_matches ratio connected_carparks db_carparks in
  run (overlap_percentage (List.length addr) n) (fun p2 =>
  let polygon_matches :=
    match method3 lib features connected_carparks db_carparks with
    | Ok l => Some l
    | Raise _ => None
    end in
  match polygon_matches with
  | None => Stops NameError
  | Some poly =>
      run (overlap_percentage (List.length poly) n) (fun p3 =>
      Completes {| cmp_coord := coord; cmp_addr := addr;
                   cmp_polygon := poly; cmp_percentages := (p1, p2, p3) |})
  end)).
End MatchingMethods.
Arguments cmp_coord {num lib}.
Arguments cmp_addr {num lib}.
Arguments cmp_polygon {num lib}.
Arguments cmp_percentages {num lib}.

(** The entries that the loop of analyze-connected-overlap-coords.py
    appends for one list of connected carparks. *)
Section CoordsEntries.
Context {num : Type} `{PyMath num}.

Definition matched_entries (db_carparks : list (db_carpark num))
  (connected_carparks : list (connected_carpark num))
  : list (coords_matched (num := num)) :=
  flat_map (fun c => match closest_match c db_carparks with
                     | Some (m, d) => [(c, m, d)]
                     | None => []
                     end) connected_carparks.

Definition unmatched_entries (db_carparks : list (db_carpark num))
  (connected_carparks : list (connected_carpark num))
  : list (coords_unmatched (num := num)) :=
  flat_map (fun c => match closest_match c db_carparks with
                     | Some _ => []
                     | None =>
                         [(c, nearest_db_name (fst (closest c db_carparks)),
                           snd (closest c db_carparks))]
                     end) connected_carparks.

Definition is_matched (db_carparks : list (db_carpark num))
  (c : connected_carpark num) : bool :=
  match closest_match c db_carparks with
  | Some _ => true
  | None => false
  end.
End CoordsEntries.

(** ** Dictionaries with other keys

    The same association lists, for keys with a decidable equality
    [eqb]: numbers of methods, tuples of strings. *)

Section KeyedDict.
Context {K V : Type} (eqb : K -> K -> bool).

Fixpoint kget (k : K) (d : list (K * V)) : option V :=
  match d with
  | [] => None
  | (k', v) :: rest => if eqb k k' then Some v else kget k rest
  end.

Fixpoint kset (k : K) (v : V) (d : list (K * V)) : list (K * V) :=
  match d with
  | [] => [(k, v)]
  | (k', v') :: rest =>
      if eqb k k' then (k, v) :: rest else (k', v') :: kset k v rest
  end.

(** [d.get(k, default)] *)
Definition kget_default (k : K) (default : V) (d : list (K * V)) : V :=
  match kget k d with
  | Some v => v
  | None => default
  end.
End KeyedDict.

(** ** The report of analyze-unique-aggregate-matches.py *)

Section AggregateReport.
Context {num : Type}.

(** [method_counts]: for each number of methods, the number of entries of
    [all_matches] with that many. *)
Definition method_counts (all_matches : list (str * match_entry num))
  : list (nat * nat) :=
  fold_left
    (fun counts e =>
       let num_methods := List.length (methods e) in
       kset Nat.eqb num_methods
            (kget_default Nat.eqb num_methods 0 counts + 1) counts)
    (values all_matches) [].

(** [sum(1 for m in all_matches.values() if method in m['methods'])] *)
Definition count_method (method : str)
  (all_matches : list (str * match_entry num)) : nat :=
  List.length
    (filter (fun e => existsb (str_eqb method) (methods e))
            (values all_matches)).

(** The keys that the listing of the matches tests with [in]: an entry
    has its evidence of a method exactly when the method is in its
    [methods]. *)
Definition evidenced (e : match_entry num) : Prop :=
  methods e <> []
  /\ (coord_distance e <> None <-> In (lit "coordinate") (methods e))
  /\ (addr_score e <> None <-> In (lit "address") (methods e))
  /\ (entry_db_addr e <> None <-> In (lit "address") (methods e))
  /\ (building_name_en e <> None <-> In (lit "polygon") (methods e))
  /\ (building_name_tc e <> None <-> In (lit "polygon") (methods e)).
End AggregateReport.

(** The events of one connected carpark, in the order of the methods. *)
Section EventsAbout.
Context {num : Type} `{PyMath num}.
Variable ratio : str -> str -> num.
Variable lib : GeoLib num.

Definition option_list {A : Type} (o : option A) : list A :=
  match o with
  | Some a => [a]
  | None => []
  end.

Definition events_about (db_carparks : list (db_carpark num))
  (features : list (feature num)) (c : connected_carpark num) : list event :=
  option_list (coordinate_event db_carparks c)
  ++ option_list (address_event ratio db_carparks c)
  ++ option_list (polygon_event lib features db_carparks c).
End EventsAbout.

(** ** The script analyze-connected-geojson-overlap.py *)

Section GeojsonScript.
Context {num : Type} `{PyFloat num}.
Variable lib : GeoLib num.

(** An entry of [connected_buildings]: the properties read with [get],
    [None] when the feature lacks them, and the polygon. *)
Record connected_building : Type := {
  place : option str;
  building_address : option str;
  building_district : option str;
  building_polygon : polygon lib
}.

(** The entries of [matches], as the row and the building that contains
    it: the first one, since [break] ends the inner loop. *)
Definition geojson_matches (connected_buildings : list connected_building)
  (db_carparks : list (db_carpark num))
  : list (db_carpark num * connected_building) :=
  flat_map (fun db_cp =>
              match find (fun building =>
                            contains lib (building_polygon building)
                                     (db_lon db_cp, db_lat db_cp))
                         connected_buildings with
              | Some building => [(db_cp, building)]
              | None => []
              end) db_carparks.

(** Equality of the keys of [buildings_with_matches]. *)
Definition building_name_eqb (a b : option str) : bool :=
  match a, b with
  | Some x, Some y => str_eqb x y
  | None, None => true
  | _, _ => false
  end.

(** [if building_name not in buildings_with_matches:
         buildings_with_matches[building_name] = []
     buildings_with_matches[building_name].append(match)] *)
Definition group_step
  (buildings_with_matches :
     list (option str * list (db_carpark num * connected_building)))
  (m : db_carpark num * connected_building)
  : list (option str * list (db_carpark num * connected_building)) :=
  let building_name := place (snd m) in
  let groups :=
    match kget building_name_eqb building_name buildings_with_matches with
    | Some _ => buildings_with_matches
    | None => kset building_name_eqb building_name [] buildings_with_matches
    end in
  kset building_name_eqb building_name
       (kget_default building_name_eqb building_name [] groups ++ [m]) groups.

Definition group_by_building
  (matches : list (db_carpark num * connected_building))
  : list (option str * list (db_carpark num * connected_building)) :=
  fold_left group_step matches [].

(** [sorted(buildings_with_matches.items())] compares the items, hence
    their keys, which differ: with two items or more, a key [None] is
    compared with a string, which raises [TypeError]. *)
Definition sorted_items_raise {V : Type} (items : list (option str * V))
  : bool :=
  (2 <=? List.length items)
  && existsb (fun kv => match fst kv with
                        | None => true
                        | Some _ => false
                        end) items.

(** What the summary prints: the matches, their groups, and the two
    percentages. *)
Record geojson_summary : Type := {
  gs_matches : list (db_carpark num * connected_building);
  gs_buildings_with_matches :
    list (option str * list (db_carpark num * connected_building));
  gs_percentages : num * num
}.

(** The script from the matching loop on.  [buildings_with_matches] is
    assigned only in the branch [if len(matches) > 0]; the last line of
    the summary reads it whatever [matches] holds, its condition being
    part of the text of the f-string. *)
Definition geojson_script (connected_buildings : list connected_building)
  (db_carparks : list (db_carpark num)) : outcome geojson_summary :=
  let matches := geojson_matches connected_buildings db_carparks in
  run (overlap_percentage (List.length matches) (List.length db_carparks))
      (fun pct =>
  let buildings_with_matches :=
    if 0 <? List.length matches then Some (group_by_building matches)
    else None in
  match buildings_with_matches with
  | Some groups =>
      if sorted_items_raise groups then Stops TypeError
      else
        run (overlap_percentage (List.length matches)
                                (List.length db_carparks)) (fun pct_db =>
        run (overlap_percentage (List.length groups)
                                (List.length connected_buildings))
            (fun pct_buildings =>
        Completes {| gs_matches := matches;
                     gs_buildings_with_matches := groups;
                     gs_percentages := (pct_db, pct_buildings) |}))
  | None =>
      run (overlap_percentage (List.length matches)
                              (List.length db_carparks)) (fun pct_db =>
      Stops NameError)
  end).
End GeojsonScript.
Arguments place {num lib}.
Arguments building_address {num lib}.
Arguments building_district {num lib}.
Arguments building_polygon {num lib}.
Arguments gs_matches {num lib}.
Arguments gs_buildings_with_matches {num lib}.
Arguments gs_percentages {num lib}.

(** ** Grouping

    [groups[key].append(x)] on a [defaultdict(list)]: a missing key
    starts from the empty list. *)

Definition dict_append {K A : Type} (eqb : K -> K -> bool) (key : K) (x : A)
  (groups : list (K * list A)) : list (K * list A) :=
  kset eqb key (kget_default eqb key [] groups ++ [x]) groups.

(** [for x in l: groups[key(x)].append(val(x))] *)
Definition group_by {K A B : Type} (eqb : K -> K -> bool) (key : A -> K)
  (val : A -> B) (l : list A) : list (K * list B) :=
  fold_left (fun groups x => dict_append eqb (key x) (val x) groups) l [].

(** ** The script analyze-realtime-coverage.py *)

(** [c.upper()] and [s.upper()], on the letters of ASCII. *)
Definition upper_char (c : ascii) : ascii :=
  let n := nat_of_ascii c in
  if (97 <=? n) && (n <=? 122) then ascii_of_nat (n - 32) else c.

Definition upper (s : str) : str := map upper_char s.

(** The properties of a feature of metered-parking.geojson that the
    scripts read. *)
Record parking_space : Type := {
  District : str;
  SubDistrict : str;
  Street : str;
  SectionOfStreet : str;
  ParkingSpaceId : str
}.

(** [f"{props['District']}_{props['SubDistrict']}_{props['Street']}_
    {props['SectionOfStreet']}".replace(' ', '_').replace(',', '')
    .upper()] *)
Definition carpark_id (props : parking_space) : str :=
  upper
    (replace (lit ",") (lit "")
       (replace (lit " ") (lit "_")
          (District props ++ lit "_" ++ SubDistrict props ++ lit "_"
           ++ Street props ++ lit "_" ++ SectionOfStreet props))).

(** A value of [carparks]. *)
Record carpark : Type := {
  spaces : list str;
  total_spaces : nat;
  district : option str;
  sub_district : option str;
  street : option str;
  section : option str;
  carpark_name : option str
}.

(** The value that the [defaultdict] makes for a missing key. *)
Definition new_carpark : carpark :=
  {| spaces := []; total_spaces := 0; district := None;
     sub_district := None; street := None; section := None;
     carpark_name := None |}.

(** The body of the loop over [geojson_data['features']]. *)
Definition carparks_step (carparks : list (str * carpark))
  (props : parking_space) : list (str * carpark) :=
  let data :=
    match dict_get (carpark_id props) carparks with
    | Some data => data
    | None => new_carpark
    end in
  dict_set (carpark_id props)
    {| spaces := spaces data ++ [ParkingSpaceId props];
       total_spaces := total_spaces data + 1;
       district := Some (District props);
       sub_district := Some (SubDistrict props);
       street := Some (Street props);
       section := Some (SectionOfStreet props);
       carpark_name := Some (SectionOfStreet props) |}
    carparks.

Definition group_carparks (features : list parking_space)
  : list (str * carpark) :=
  fold_left carparks_step features [].

(** [s.add(x)] on a set, as the list of its elements. *)
Definition set_add (x : str) (s : list str) : list str :=
  if existsb (str_eqb x) s then s else s ++ [x].

(** [x in s] *)
Definition set_mem (x : str) (s : list str) : bool := existsb (str_eqb x) s.

(** The body of the loop over the rows of the occupancy file. *)
Definition occupancy_step (spaces_with_realtime : list str)
  (row : list (str * str)) : result (list str) :=
  space_id <- csv_field row "ParkingSpaceId" ;;
  meter_status <- csv_field row "ParkingMeterStatus" ;;
  if str_eqb (strip meter_status) (lit "N")
  then Ok (set_add (strip space_id) spaces_with_realtime)
  else Ok spaces_with_realtime.

Fixpoint read_occupancy (rows : list (list (str * str)))
  (spaces_with_realtime : list str) : result (list str) :=
  match rows with
  | [] => Ok spaces_with_realtime
  | row :: rest =>
      s <- occupancy_step spaces_with_realtime row ;;
      read_occupancy rest s
  end.

(** [l.sort(key=key, reverse=True)] and [sorted(l, key=key,
    reverse=True)]: the sort is stable, elements with equal keys keep the
    order they had. *)
Fixpoint insert_desc {A : Type} (key : A -> nat) (x : A) (l : list A)
  : list A :=
  match l with
  | [] => [x]
  | y :: t => if key x <? key y then y :: insert_desc key x t else x :: l
  end.

Definition sort_desc {A : Type} (key : A -> nat) (l : list A) : list A :=
  fold_right (insert_desc key) [] l.

Section RealtimeCoverage.
Context {num : Type} `{PyFloat num}.

(** [round(x, 2)] *)
Variable round2 : num -> num.

(** [x == y] on numbers: both [x <= y] and [y <= x]. *)
Definition feq (x y : num) : bool := fle x y && fle y x.

(** An entry of [carparks_with_realtime]. *)
Record coverage : Type := {
  cov_carpark_id : str;
  cov_name : option str;
  cov_district : option str;
  cov_total_spaces : nat;
  tracked_spaces : nat;
  coverage_pct : num
}.

(** The body of the loop over [carparks.items()]. *)
Definition coverage_of (spaces_with_realtime : list str)
  (item : str * carpark) : coverage :=
  let data := snd item in
  let spaces_tracked :=
    List.length (filter (fun space_id => set_mem space_id spaces_with_realtime)
                        (spaces data)) in
  let coverage_pct :=
    if 0 <? total_spaces data
    then fmul (fdiv (of_len spaces_tracked) (of_len (total_spaces data)))
              (of_int 100)
    else of_int 0 in
  {| cov_carpark_id := fst item;
     cov_name := carpark_name data;
     cov_district := district data;
     cov_total_spaces := total_spaces data;
     tracked_spaces := spaces_tracked;
     coverage_pct := coverage_pct |}.

Definition carparks_10plus (carparks_with_realtime : list coverage)
  : list coverage :=
  filter (fun cp => 10 <=? cov_total_spaces cp) carparks_with_realtime.

(** The carparks with at least ten spaces and a tracked space, sorted by
    their tracked spaces. *)
Definition carparks_with_data (carparks_with_realtime : list coverage)
  : list coverage :=
  sort_desc tracked_spaces
    (filter (fun cp => 0 <? tracked_spaces cp)
            (carparks_10plus carparks_with_realtime)).

Definition full_coverage (l : list coverage) : list coverage :=
  filter (fun cp => fge (coverage_pct cp) (of_int 90)) l.

Definition high_coverage (l : list coverage) : list coverage :=
  filter (fun cp => fle (of_int 50) (coverage_pct cp)
                    && flt (coverage_pct cp) (of_int 90)) l.

Definition partial_coverage (l : list coverage) : list coverage :=
  filter (fun cp => flt (coverage_pct cp) (of_int 50)) l.

Definition full_100_coverage (l : list coverage) : list coverage :=
  filter (fun cp => feq (coverage_pct cp) (of_int 100)) l.

Record summary_stats : Type := {
  total_carpark_groups : nat;
  carparks_10plus_spaces : nat;
  carparks_with_realtime_10plus : nat;
  carparks_90plus_coverage : nat;
  carparks_100_coverage : nat;
  total_spaces_in_tracked_carparks : nat;
  total_tracked_spaces : nat;
  overall_coverage_pct : num
}.

(** The script: the overall coverage is divided out twice, for the
    summary that is printed and for [summary_stats]. *)
Definition realtime_script (features : list parking_space)
  (occupancy : list (list (str * str))) : outcome summary_stats :=
  let carparks := group_carparks features in
  run (read_occupancy occupancy []) (fun spaces_with_realtime =>
  let carparks_with_realtime :=
    map (coverage_of spaces_with_realtime) carparks in
  let with_data := carparks_with_data carparks_with_realtime in
  let total_spaces_in_tracked :=
    list_sum (map cov_total_spaces with_data) in
  let total_tracked := list_sum (map tracked_spaces with_data) in
  run (overlap_percentage total_tracked total_spaces_in_tracked)
      (fun overall_coverage =>
  run (overlap_percentage total_tracked total_spaces_in_tracked)
      (fun overall =>
  Completes
    {| total_carpark_groups := List.length carparks;
       carparks_10plus_spaces :=
         List.length (carparks_10plus carparks_with_realtime);
       carparks_with_realtime_10plus := List.length with_data;
       carparks_90plus_coverage := List.length (full_coverage with_data);
       carparks_100_coverage := List.length (full_100_coverage with_data);
       total_spaces_in_tracked_carparks := total_spaces_in_tracked;
       total_tracked_spaces := total_tracked;
       overall_coverage_pct := round2 overall |}))).
End RealtimeCoverage.
Arguments cov_carpark_id {num}.
Arguments cov_name {num}.
Arguments cov_district {num}.
Arguments cov_total_spaces {num}.
Arguments tracked_spaces {num}.
Arguments coverage_pct {num}.
Arguments total_carpark_groups {num}.
Arguments carparks_10plus_spaces {num}.
Arguments carparks_with_realtime_10plus {num}.
Arguments carparks_90plus_coverage {num}.
Arguments carparks_100_coverage {num}.
Arguments total_spaces_in_tracked_carparks {num}.
Arguments total_tracked_spaces {num}.
Arguments overall_coverage_pct {num}.

(** ** The script analyze-metered-groups.py *)

(** [sorted(l)] on numbers. *)
Fixpoint insert_asc (x : nat) (l : list nat) : list nat :=
  match l with
  | [] => [x]
  | y :: t => if x <=? y then x :: l else y :: insert_asc x t
  end.

Definition sorted (l : list nat) : list nat := fold_right insert_asc [] l.

(** [min(l)] and [max(l)]: [ValueError] on an empty list. *)
Definition py_min (l : list nat) : result nat :=
  match l with
  | [] => Raise ValueError
  | x :: t => Ok (fold_left Nat.min t x)
  end.

Definition py_max (l : list nat) : result nat :=
  match l with
  | [] => Raise ValueError
  | x :: t => Ok (fold_left Nat.max t x)
  end.

(** [l[i]] for [i >= 0] *)
Definition index {A : Type} (l : list A) (i : nat) : result A :=
  match nth_error l i with
  | Some x => Ok x
  | None => Raise IndexError
  end.

(** The key of a group: district, sub-district, street and section. *)
Definition group_key : Type := str * str * str * str.

Definition group_key_eqb (a b : group_key) : bool :=
  match a, b with
  | (a1, a2, a3, a4), (b1, b2, b3, b4) =>
      str_eqb a1 b1 && str_eqb a2 b2 && str_eqb a3 b3 && str_eqb a4 b4
  end.

Definition key_of (props : parking_space) : group_key :=
  (District props, SubDistrict props, Street props, SectionOfStreet props).

Section MeteredGroups.
Context {num : Type} `{PyFloat num}.

(** A feature: its properties and [feature['geometry']['coordinates']]. *)
Record metered_feature : Type := {
  properties : parking_space;
  geometry_coordinates : list num
}.

(** An element of a group. *)
Record metered_space : Type := {
  space_id : str;
  space_lat : num;
  space_lng : num
}.

(** [{'id': props['ParkingSpaceId'], 'lat': coords[1], 'lng': coords[0]}]:
    [IndexError] when there are fewer than two coordinates. *)
Definition space_of (feature : metered_feature) : result metered_space :=
  match geometry_coordinates feature with
  | lng :: lat :: _ =>
      Ok {| space_id := ParkingSpaceId (properties feature);
            space_lat := lat; space_lng := lng |}
  | _ => Raise IndexError
  end.

(** The loop over [data['features']]. *)
Fixpoint load_groups (features : list metered_feature)
  (groups : list (group_key * list metered_space))
  : result (list (group_key * list metered_space)) :=
  match features with
  | [] => Ok groups
  | feature :: rest =>
      space <- space_of feature ;;
      load_groups rest
        (dict_append group_key_eqb (key_of (properties feature)) space
                     groups)
  end.

(** The loop over the twenty largest groups, as the groups it prints:
    it ends after ten of them and passes over a group of fewer than ten
    spaces. *)
Fixpoint sample_loop (items : list (group_key * list metered_space))
  (sample_count : nat) : list (group_key * list metered_space) :=
  match items with
  | [] => []
  | item :: rest =>
      if 10 <=? sample_count then []
      else if List.length (snd item) <? 10 then sample_loop rest sample_count
      else item :: sample_loop rest (sample_count + 1)
  end.

Definition samples (groups : list (group_key * list metered_space))
  : list (group_key * list metered_space) :=
  sample_loop
    (firstn 20 (sort_desc (fun item => List.length (snd item)) groups)) 0.

(** [statistics.median(data)]: the middle of the sorted data, or the mean
    of the two middle values; [StatisticsError], a [ValueError], when
    there are none. *)
Definition median (data : list nat) : result num :=
  let data := sorted data in
  let n := List.length data in
  if n =? 0 then Raise ValueError
  else if n mod 2 =? 1 then
    x <- index data (n / 2) ;; Ok (of_len x)
  else
    a <- index data (n / 2 - 1) ;;
    b <- index data (n / 2) ;;
    Ok (fdiv (of_len (a + b)) (of_int 2)).

(** What the summary prints. *)
Record grouping_summary : Type := {
  sampled : list (group_key * list metered_space);
  total_groups : nat;
  grouped_spaces : nat;
  size_min : nat;
  size_25th : nat;
  size_median : num;
  size_75th : nat;
  size_max : nat
}.

Definition metered_script (features : list metered_feature)
  : outcome grouping_summary :=
  run (load_groups features []) (fun groups =>
  let sizes := sorted (map (fun g => List.length (snd g)) groups) in
  run (py_min sizes) (fun size_min =>
  run (index sizes (List.length sizes / 4)) (fun size_25th =>
  run (median sizes) (fun size_median =>
  run (index sizes (3 * List.length sizes / 4)) (fun size_75th =>
  run (py_max sizes) (fun size_max =>
  Completes
    {| sampled := samples groups;
       total_groups := List.length groups;
       grouped_spaces :=
         list_sum (map (fun g => List.length (snd g)) groups);
       size_min := size_min;
       size_25th := size_25th;
       size_median := size_median;
       size_75th := size_75th;
       size_max := size_max |})))))).
End MeteredGroups.
Arguments properties {num}.
Arguments geometry_coordinates {num}.
Arguments space_id {num}.
Arguments space_lat {num}.
Arguments space_lng {num}.
Arguments sampled {num}.
Arguments total_groups {num}.
Arguments grouped_spaces {num}.
Arguments size_min {num}.
Arguments size_25th {num}.
Arguments size_median {num}.
Arguments size_75th {num}.
Arguments size_max {num}.

(** ** The script export-carparks-csv.py *)

(** [str(n)] for [n >= 0]: the decimal digits. *)
Definition decimal (n : nat) : str :=
  lit (DecimalString.NilEmpty.string_of_uint (Nat.to_uint n)).

Section ExportCsv.
Context {num : Type}.
Variable float_of_str : str -> option num.

(** A value that [writer.writerow] receives. *)
Inductive cell : Type :=
| Text (s : str)
| Number (x : num).

(** A row of the query: the address and the district may be [None]. *)
Record export_row : Type := {
  row_park_id : str;
  row_name : str;
  row_address : option str;
  row_district : option str;
  row_latitude : num;
  row_longitude : num
}.

(** [x if x else ''] *)
Definition or_empty (x : option str) : str :=
  match x with
  | Some s => s
  | None => []
  end.

Definition header : list cell :=
  [Text (lit "park_id"); Text (lit "name"); Text (lit "address");
   Text (lit "district"); Text (lit "latitude"); Text (lit "longitude")].

(** database-carparks.csv *)
Definition database_csv (db_carparks : list export_row) : list (list cell) :=
  header
  :: map (fun row =>
            [Text (row_park_id row); Text (row_name row);
             Text (or_empty (row_address row));
             Text (or_empty (row_district row));
             Number (row_latitude row); Number (row_longitude row)])
         db_carparks.

(** An element of [connected_carparks]. *)
Record export_carpark : Type := {
  exp_name : str;
  exp_address : str;
  exp_district : str;
  exp_latitude : num;
  exp_longitude : num
}.

(** The dictionary display of the loader; [row.get('District', '')]
    never raises. *)
Definition export_of_row (row : list (str * str)) : result export_carpark :=
  n <- csv_field row "Station Name" ;;
  a <- csv_field row "Address" ;;
  let d := match dict_get (lit "District") row with
           | Some d => d
           | None => []
           end in
  la <- csv_field row "Latitude" ;;
  la <- to_float float_of_str la ;;
  lo <- csv_field row "Longitude" ;;
  lo <- to_float float_of_str lo ;;
  Ok {| exp_name := n; exp_address := a; exp_district := d;
        exp_latitude := la; exp_longitude := lo |}.

Fixpoint read_export (rows : list (list (str * str)))
  : result (list export_carpark) :=
  match rows with
  | [] => Ok []
  | row :: rest =>
      match export_of_row row with
      | Ok c => cs <- read_export rest ;; Ok (c :: cs)
      | Raise ValueError | Raise KeyError => read_export rest
      | Raise e => Raise e
      end
  end.

(** [for i, cp in enumerate(connected_carparks, 1)], from [i] on. *)
Fixpoint formatted_rows (i : nat) (connected_carparks : list export_carpark)
  : list (list cell) :=
  match connected_carparks with
  | [] => []
  | cp :: rest =>
      [Text (lit "connected_" ++ decimal i); Text (exp_name cp);
       Text (exp_address cp); Text (exp_district cp);
       Number (exp_latitude cp); Number (exp_longitude cp)]
      :: formatted_rows (i + 1) rest
  end.

(** connected-carparks-formatted.csv *)
Definition formatted_csv (connected_carparks : list export_carpark)
  : list (list cell) :=
  header :: formatted_rows 1 connected_carparks.

(** The script: both files. *)
Definition export_script (db_carparks : list export_row)
  (rows : list (list (str * str)))
  : result (list (list cell) * list (list cell)) :=
  let database := database_csv db_carparks in
  connected_carparks <- read_export rows ;;
  Ok (database, formatted_csv connected_carparks).
End ExportCsv.
Arguments Text {num} s.
Arguments Number {num} x.
Arguments row_park_id {num}.
Arguments row_name {num}.
Arguments row_address {num}.
Arguments row_district {num}.
Arguments row_latitude {num}.
Arguments row_longitude {num}.
Arguments exp_name {num}.
Arguments exp_address {num}.
Arguments exp_district {num}.
Arguments exp_latitude {num}.
Arguments exp_longitude {num}.
Arguments header {num}.

(** * Properties *)

(** ** [haversine_distance] *)

Section HaversineLaws.
Context {num : Type} `{PyMathLaws num}.

Lemma sqr_msin_half_swap (x y : num) :
  sqr (msin (fdiv (fsub x y) (of_int 2)))
  = sqr (msin (fdiv (fsub y x) (of_int 2))).
Proof.
  unfold sqr.
  rewrite (fsub_swap x y), fdiv_fopp, msin_fopp.
  apply fmul_fopp_fopp.
Qed.

Lemma sqr_msin_half_diag (x : num) :
  sqr (msin (fdiv (fsub x x) (of_int 2))) = of_int 0.
Proof.
  unfold sqr. rewrite fsub_diag.
  unfold of_int at 2. rewrite fdiv_zero, msin_zero.
  apply fmul_zero_l.
Qed.

End HaversineLaws.

(** The real numbers satisfy the laws. *)
Lemma R_PyMathLaws : PyMathLaws R.
Proof.
  constructor; cbn; unfold of_int; cbn; intros.
  - lra.
  - unfold Rdiv. lra.
  - apply sin_neg.
  - lra.
  - apply Rmult_comm.
  - lra.
  - unfold Rdiv. rewrite !Rmult_0_l. reflexivity.
  - replace (0 / 1)%R with 0%R by lra. apply sin_0.
  - lra.
  - lra.
  - lra.
  - replace (0 / 1)%R with 0%R by lra. apply sqrt_0.
  - replace (0 / 1)%R with 0%R by lra. apply asin_0.
Qed.

#[export] Existing Instance R_PyMathLaws.


(** ** Facts about the string functions *)

Section StringFacts.
Variable P : ascii -> Prop.

Lemma Forall_lstrip (s : str) : Forall P s -> Forall P (lstrip s).
Proof.
  induction 1 as [|c t Hc Ht IH]; simpl; [constructor|].
  destruct (is_space c); [exact IH | constructor; assumption].
Qed.

Lemma Forall_strip (s : str) : Forall P s -> Forall P (strip s).
Proof.
  intros Hs. unfold strip, rstrip.
  apply Forall_rev, Forall_lstrip, Forall_rev, Forall_lstrip, Hs.
Qed.

Lemma Forall_replace_from (old new : str) (s : str) :
  Forall P new -> Forall P s ->
  forall skip, Forall P (replace_from old new skip s).
Proof.
  intros Hnew. induction 1 as [|c t Hc Ht IH]; intros skip; simpl.
  - constructor.
  - destruct skip as [|k]; [|apply IH].
    destruct (starts_with old (c :: t)).
    + apply Forall_app. split; [exact Hnew | apply IH].
    + constructor; [exact Hc | apply IH].
Qed.

Lemma Forall_split_from (s : str) :
  Forall P s ->
  forall word, Forall P word -> Forall (Forall P) (split_from word s).
Proof.
  induction 1 as [|c t Hc Ht IH]; intros word Hw; simpl.
  - destruct word; repeat constructor. apply Forall_rev, Hw.
  - destruct (is_space c).
    + destruct word.
      * apply IH. constructor.
      * constructor; [apply Forall_rev, Hw | apply IH; constructor].
    + apply IH. constructor; assumption.
Qed.

Lemma Forall_join (sep : str) (ws : list str) :
  Forall P sep -> Forall (Forall P) ws -> Forall P (join sep ws).
Proof.
  intros Hsep. induction 1 as [|w ws Hw Hws IH]; simpl; [constructor|].
  destruct ws as [|w' ws']; [exact Hw|].
  apply Forall_app. split; [exact Hw|].
  apply Forall_app. split; [exact Hsep | exact IH].
Qed.

Lemma Forall_join_split (s : str) :
  P " "%char -> Forall P s -> Forall P (join (lit " ") (split s)).
Proof.
  intros Hsp Hs. apply Forall_join.
  - repeat constructor. exact Hsp.
  - apply Forall_split_from; [exact Hs | constructor].
Qed.
End StringFacts.

Lemma replace_absent (old new s : str) :
  has_substring old s = false -> replace old new s = s.
Proof.
  unfold replace. induction s as [|c t IH]; [reflexivity|].
  cbn [has_substring replace_from]. intros H.
  apply orb_false_iff in H. destruct H as [H1 H2].
  rewrite H1. f_equal. apply IH, H2.
Qed.

Lemma has_substring_char (c : ascii) (s : str) :
  Forall (fun x => x <> c) s -> has_substring [c] s = false.
Proof.
  induction 1 as [|a t Ha Ht IH]; [reflexivity|].
  cbn [has_substring starts_with]. rewrite IH.
  destruct (Ascii.eqb_spec c a) as [E|E]; [|reflexivity].
  exfalso. apply Ha. symmetry. exact E.
Qed.

Lemma replace_char_removes (c : ascii) (s : str) :
  Forall (fun x => x <> c) (replace [c] [] s).
Proof.
  unfold replace. induction s as [|a t IH]; [constructor|].
  cbn [replace_from starts_with List.length Nat.sub app].
  destruct (Ascii.eqb_spec c a) as [E|E]; cbn [andb].
  - destruct t; exact IH.
  - destruct t; constructor; auto.
Qed.

Lemma lower_char_idem (c : ascii) : lower_char (lower_char c) = lower_char c.
Proof. destruct c as [[] [] [] [] [] [] [] []]; reflexivity. Qed.

Lemma lower_fixed (s : str) :
  Forall (fun c => lower_char c = c) s -> lower s = s.
Proof.
  induction 1 as [|c t Hc Ht IH]; [reflexivity|].
  unfold lower in *. simpl. rewrite Hc, IH. reflexivity.
Qed.

Lemma lower_is_lower (s : str) : Forall (fun c => lower_char c = c) (lower s).
Proof.
  induction s as [|c t IH]; constructor; [apply lower_char_idem | exact IH].
Qed.

Lemma split_from_words (s : str) :
  forall word, Forall (fun c => is_space c = false) word ->
  Forall is_word (split_from word s).
Proof.
  induction s as [|c t IH]; intros word Hw; simpl.
  - destruct word as [|a word']; constructor; [|constructor].
    split; [|apply Forall_rev, Hw].
    simpl. intros E. apply app_eq_nil in E. destruct E; discriminate.
  - destruct (is_space c) eqn:Ec.
    + destruct word as [|a word'].
      * apply IH. constructor.
      * constructor; [|apply IH; constructor].
        split; [|apply Forall_rev, Hw].
        simpl. intros E. apply app_eq_nil in E. destruct E; discriminate.
    + apply IH. constructor; assumption.
Qed.

Lemma split_from_word_app (w rest : str) :
  Forall (fun c => is_space c = false) w ->
  forall word, split_from word (w ++ rest) = split_from (rev w ++ word) rest.
Proof.
  induction 1 as [|c t Hc Ht IH]; intros word; [reflexivity|].
  simpl. rewrite Hc, IH, <- app_assoc. reflexivity.
Qed.

Lemma split_join (ws : list str) :
  Forall is_word ws -> split (join (lit " ") ws) = ws.
Proof.
  unfold split. induction 1 as [|w ws [Hne Hw] Hws IH]; [reflexivity|].
  cbn [join]. destruct ws as [|w' ws'].
  - rewrite <- (app_nil_r w) at 1.
    rewrite split_from_word_app by exact Hw.
    rewrite app_nil_r. simpl.
    destruct (rev w) eqn:E.
    + exfalso. apply Hne. rewrite <- (rev_involutive w), E. reflexivity.
    + rewrite <- E, rev_involutive. reflexivity.
  - rewrite split_from_word_app by exact Hw.
    rewrite app_nil_r. cbn [lit list_ascii_of_string app split_from].
    replace (is_space " ") with true by reflexivity.
    destruct (rev w) eqn:E.
    + exfalso. apply Hne. rewrite <- (rev_involutive w), E. reflexivity.
    + rewrite <- E, rev_involutive. apply (f_equal (cons w)). exact IH.
Qed.

Lemma lstrip_join (ws : list str) :
  Forall is_word ws -> lstrip (join (lit " ") ws) = join (lit " ") ws.
Proof.
  intros H. destruct H as [|w ws [Hne Hw] Hws]; [reflexivity|].
  destruct w as [|c t]; [contradiction Hne; reflexivity|].
  inversion Hw as [|? ? Hc Ht]; subst.
  cbn [join]. destruct ws; cbn [app lstrip]; rewrite Hc; reflexivity.
Qed.

Lemma join_last (ws : list str) :
  Forall is_word ws -> ws <> [] ->
  exists pre c, join (lit " ") ws = pre ++ [c] /\ is_space c = false.
Proof.
  induction 1 as [|w ws [Hne Hw] Hws IH]; intros Hnil; [contradiction|].
  cbn [join]. destruct ws as [|w' ws'].
  - destruct (exists_last Hne) as [pre [c E]]. exists pre, c.
    split; [exact E|]. subst w. apply Forall_app in Hw.
    destruct Hw as [_ Hc]. inversion Hc; assumption.
  - destruct IH as [pre [c [E Hc]]]; [discriminate|].
    exists (w ++ lit " " ++ pre), c. split; [|exact Hc].
    rewrite E, <- !app_assoc. reflexivity.
Qed.

Lemma strip_join (ws : list str) :
  Forall is_word ws -> strip (join (lit " ") ws) = join (lit " ") ws.
Proof.
  intros H. unfold strip. rewrite lstrip_join by exact H.
  destruct ws as [|w ws]; [reflexivity|].
  destruct (join_last _ H) as [pre [c [E Hc]]]; [discriminate|].
  unfold rstrip. rewrite E, rev_app_distr. cbn [rev app lstrip].
  rewrite Hc. change (c :: rev pre) with (rev [c] ++ rev pre).
  rewrite <- rev_app_distr, rev_involutive. reflexivity.
Qed.

Lemma Forall_fold_replace (P : ascii -> Prop) (rs : list (str * str)) :
  Forall (fun r => Forall P (snd r)) rs ->
  forall s, Forall P s ->
  Forall P (fold_left (fun a r => replace (fst r) (snd r) a) rs s).
Proof.
  induction 1 as [|r rs Hr Hrs IH]; intros s Hs; simpl; [exact Hs|].
  apply IH. apply Forall_replace_from; assumption.
Qed.

Lemma normalize_address_unfold (s : str) :
  normalize_address s
  = match s with
    | [] => []
    | _ => join (lit " ")
             (split (fold_left (fun a r => replace (fst r) (snd r) a)
                       replacements (strip (lower s))))
    end.
Proof. destruct s; reflexivity. Qed.

(** A string in the shape [normalize_address] returns is a fixed point of
    it, provided no abbreviated word occurs in it. *)
Lemma normalize_address_fixed (ws : list str) :
  let y := join (lit " ") ws in
  Forall is_word ws ->
  Forall (fun c => lower_char c = c) y ->
  Forall (fun c => c <> ","%char) y ->
  Forall (fun c => c <> "."%char) y ->
  free_of_abbreviated y = true ->
  normalize_address y = y.
Proof.
  intros y Hws Hlow Hcomma Hdot Hfree.
  assert (Hstrip : strip y = y) by (apply strip_join, Hws).
  assert (Hsplit : join (lit " ") (split y) = y)
    by (unfold y; rewrite split_join by exact Hws; reflexivity).
  unfold free_of_abbreviated, abbreviated in Hfree.
  cbn [forallb] in Hfree.
  repeat (apply andb_true_iff in Hfree;
          let H := fresh "Hp" in destruct Hfree as [H Hfree];
          apply negb_true_iff in H).
  clearbody y. rewrite normalize_address_unfold.
  destruct y as [|a l] eqn:Ey; [reflexivity|].
  rewrite <- Ey in *.
  rewrite (lower_fixed _ Hlow), Hstrip.
  cbn [fold_left replacements fst snd].
  rewrite (replace_absent _ _ _ Hp), (replace_absent _ _ _ Hp0),
    (replace_absent _ _ _ Hp1), (replace_absent _ _ _ Hp2),
    (replace_absent _ _ _ Hp3), (replace_absent _ _ _ Hp4).
  rewrite (replace_absent (lit ",") (lit "") y)
    by (apply has_substring_char, Hcomma).
  rewrite (replace_absent (lit ".") (lit "") y)
    by (apply has_substring_char, Hdot).
  exact Hsplit.
Qed.

(** C8, amended.  [normalize_address] is idempotent on every address whose
    normalized form contains none of the words it abbreviates (road,
    street, avenue, building, centre, car park). *)
Theorem normalize_address_idempotent_when_free (x : str) :
  free_of_abbreviated (normalize_address x) = true ->
  normalize_address (normalize_address x) = normalize_address x.
Proof.
  destruct x as [|c0 x']; [reflexivity|].
  unfold normalize_address at 1 3 4.
  set (s0 := strip (lower (c0 :: x'))).
  cbn [fold_left replacements fst snd].
  set (z6 := replace (lit "car park") (lit "carpark") _).
  intros Hfree.
  assert (Hs0 : Forall (fun c => lower_char c = c) s0)
    by (apply Forall_strip, lower_is_lower).
  assert (Hz6 : Forall (fun c => lower_char c = c) z6).
  { unfold z6, replace.
    repeat (apply Forall_replace_from;
            [repeat constructor |]).
    exact Hs0. }
  clearbody z6.
  apply normalize_address_fixed; [| | | | exact Hfree].
  - apply split_from_words. constructor.
  - apply Forall_join_split; [reflexivity|].
    unfold replace. do 2 (apply Forall_replace_from; [constructor|]).
    exact Hz6.
  - apply Forall_join_split; [discriminate|].
    unfold replace at 1. apply Forall_replace_from; [constructor|].
    apply replace_char_removes.
  - apply Forall_join_split; [discriminate|].
    apply replace_char_removes.
Qed.

Lemma normalize_address_idempotent_when_free_witness :
  normalize_address (normalize_address (lit " 12 Nathan Road,  Kowloon. "))
  = normalize_address (lit " 12 Nathan Road,  Kowloon. ").
Proof.
  apply (normalize_address_idempotent_when_free
           (lit " 12 Nathan Road,  Kowloon. ")).
  vm_compute. reflexivity.
Defined.

(** C8 as stated fails: white space is collapsed after the words are
    abbreviated, so "car  park" becomes "car park", which a second pass
    turns into "carpark". *)
Lemma normalize_address_not_idempotent :
  normalize_address (normalize_address (lit "car  park"))
  <> normalize_address (lit "car  park").
Proof. vm_compute. discriminate. Qed.

Example normalize_address_ex1 :
  normalize_address (lit " 12 Nathan Road,  Kowloon. ")
  = lit "12 nathan rd kowloon".
Proof. vm_compute. reflexivity. Qed.

Example normalize_address_ex2 :
  normalize_address (lit "car  park") = lit "car park"
  /\ normalize_address (lit "car park") = lit "carpark"
  /\ normalize_address (lit "streetreet") = lit "street"
  /\ normalize_address (lit "street") = lit "st".
Proof. vm_compute. auto. Qed.

(** ** Comparisons *)

Section OrderFacts.
Context {num : Type} `{PyFloatOrder num}.

Lemma fle_refl (x : num) : fle x x = true.
Proof. destruct (fle_total x x); assumption. Qed.

Lemma flt_false_fle (x y : num) : flt x y = false -> fle y x = true.
Proof. rewrite flt_fle. apply negb_false_iff. Qed.

Lemma flt_true_fle (x y : num) : flt x y = true -> fle y x = false.
Proof. rewrite flt_fle. apply negb_true_iff. Qed.

Lemma fle_false_flt (x y : num) : fle x y = false -> flt y x = true.
Proof. rewrite flt_fle. intros ->. reflexivity. Qed.

Lemma flt_weaken (x y : num) : flt x y = true -> fle x y = true.
Proof.
  intros Hlt. apply flt_true_fle in Hlt.
  destruct (fle_total x y) as [Hle|Hle]; [exact Hle | congruence].
Qed.

Lemma fle_flt_trans (x y z : num) :
  fle x y = true -> flt y z = true -> flt x z = true.
Proof.
  intros Hxy Hyz. apply fle_false_flt.
  destruct (fle z x) eqn:Hzx; [|reflexivity].
  apply flt_true_fle in Hyz.
  rewrite (fle_trans _ _ _ Hzx Hxy) in Hyz. discriminate.
Qed.

Lemma flt_fle_trans (x y z : num) :
  flt x y = true -> fle y z = true -> flt x z = true.
Proof.
  intros Hxy Hyz. apply fle_false_flt.
  destruct (fle z x) eqn:Hzx; [|reflexivity].
  apply flt_true_fle in Hxy.
  rewrite (fle_trans _ _ _ Hyz Hzx) in Hxy. discriminate.
Qed.

Lemma flt_trans (x y z : num) :
  flt x y = true -> flt y z = true -> flt x z = true.
Proof. intros Hxy Hyz. eapply fle_flt_trans; eauto using flt_weaken. Qed.
End OrderFacts.

Lemma Rleb_true (x y : R) : Rleb x y = true <-> (x <= y)%R.
Proof. unfold Rleb. destruct (Rle_dec x y); split; intros; congruence || auto. Qed.

Lemma Rleb_false (x y : R) : Rleb x y = false <-> (y < x)%R.
Proof.
  unfold Rleb. destruct (Rle_dec x y); split; intros; try discriminate; lra.
Qed.

Lemma Rltb_true (x y : R) : Rltb x y = true <-> (x < y)%R.
Proof. unfold Rltb. destruct (Rlt_dec x y); split; intros; congruence || auto. Qed.

Lemma R_PyFloatOrder : PyFloatOrder R.
Proof.
  constructor; cbn.
  - intros x y. unfold Rltb, Rleb.
    destruct (Rlt_dec x y), (Rle_dec y x); try reflexivity; lra.
  - intros x y z Hxy Hyz. apply Rleb_true in Hxy, Hyz. apply Rleb_true. lra.
  - intros x y. destruct (Rle_dec x y).
    + left. apply Rleb_true. assumption.
    + right. apply Rleb_true. lra.
  - intros n1 d1 n2 d2.
    assert (H1 : (0 < IZR (Zpos d1))%R) by (apply IZR_lt; lia).
    assert (H2 : (0 < IZR (Zpos d2))%R) by (apply IZR_lt; lia).
    destruct (Z.leb_spec (n1 * Zpos d2) (n2 * Zpos d1)) as [Hle|Hlt].
    + apply Rleb_true. apply IZR_le in Hle. rewrite !mult_IZR in Hle.
      apply (Rmult_le_reg_r (IZR (Zpos d1) * IZR (Zpos d2))).
      * apply Rmult_lt_0_compat; assumption.
      * field_simplify; [|lra|lra]. lra.
    + apply Rleb_false. apply IZR_lt in Hlt. rewrite !mult_IZR in Hlt.
      apply (Rmult_lt_reg_r (IZR (Zpos d1) * IZR (Zpos d2))).
      * apply Rmult_lt_0_compat; assumption.
      * field_simplify; [|lra|lra]. lra.
Qed.

#[export] Existing Instance R_PyFloatOrder.

(** ** ProximityMatcher *)

Section ProximityFacts.
Context {num : Type} `{PyMath num} {Hord : PyFloatOrder num}.
Variable conn_cp : connected_carpark num.

Abbreviation dist := (distance conn_cp).

(** The loop of [closest]: either nothing was below the starting distance,
    or the state holds the first row of least distance. *)
Lemma closest_loop (db_carparks : list (db_carpark num)) :
  forall (m0 : option (db_carpark num)) (d0 : option num),
    (fold_left (closest_step conn_cp) db_carparks (m0, d0) = (m0, d0)
     /\ forall x, In x db_carparks -> below (dist x) d0 = false)
    \/ exists l1 c l2,
        db_carparks = l1 ++ c :: l2
        /\ fold_left (closest_step conn_cp) db_carparks (m0, d0)
           = (Some c, Some (dist c))
        /\ below (dist c) d0 = true
        /\ (forall x, In x l1 -> flt (dist c) (dist x) = true)
        /\ (forall x, In x l2 -> fle (dist c) (dist x) = true).
Proof.
  induction db_carparks as [|r rest IH]; intros m0 d0.
  - left. split; [reflexivity | intros x []].
  - cbn [fold_left].
    replace (closest_step conn_cp (m0, d0) r)
      with (if below (dist r) d0 then (Some r, Some (dist r)) else (m0, d0))
      by reflexivity.
    destruct (below (dist r) d0) eqn:Hr.
    + right. destruct (IH (Some r) (Some (dist r)))
        as [[Hst Hall] | (l1 & c & l2 & Hl & Hst & Hc & Hl1 & Hl2)].
      * exists [], r, rest.
        split; [reflexivity|]. split; [exact Hst|]. split; [exact Hr|].
        split; [intros x []|].
        intros x Hx. apply flt_false_fle. apply (Hall x Hx).
      * exists (r :: l1), c, l2. cbn [below] in Hc.
        split; [rewrite Hl; reflexivity|]. split; [exact Hst|].
        split; [|split; [|exact Hl2]].
        -- destruct d0 as [d0|]; [|reflexivity]. cbn [below] in *.
           eapply flt_trans; eauto.
        -- intros x [<-|Hx]; auto.
    + destruct (IH m0 d0)
        as [[Hst Hall] | (l1 & c & l2 & Hl & Hst & Hc & Hl1 & Hl2)].
      * left. split; [exact Hst|]. intros x [<-|Hx]; auto.
      * right. exists (r :: l1), c, l2.
        split; [rewrite Hl; reflexivity|]. split; [exact Hst|].
        split; [exact Hc|]. split; [|exact Hl2].
        intros x [<-|Hx]; auto.
        destruct d0 as [d0|]; [|discriminate]. cbn [below] in *.
        apply flt_false_fle in Hr. eapply flt_fle_trans; eauto.
Qed.

Lemma closest_cases (db_carparks : list (db_carpark num)) :
  (db_carparks = [] /\ closest conn_cp db_carparks = (None, None))
  \/ exists l1 c l2,
      db_carparks = l1 ++ c :: l2
      /\ closest conn_cp db_carparks = (Some c, Some (dist c))
      /\ (forall x, In x l1 -> flt (dist c) (dist x) = true)
      /\ (forall x, In x l2 -> fle (dist c) (dist x) = true).
Proof.
  unfold closest.
  destruct (closest_loop db_carparks None None)
    as [[Hst Hall] | (l1 & c & l2 & Hl & Hst & _ & Hl1 & Hl2)].
  - left. split; [|exact Hst].
    destruct db_carparks as [|r rest]; [reflexivity|].
    specialize (Hall r (or_introl eq_refl)). discriminate.
  - right. exists l1, c, l2. auto.
Qed.

Lemma coord_match_some (db_carparks : list (db_carpark num)) m d :
  coord_match conn_cp db_carparks = Some (m, d) ->
  d = dist m /\ fle d (of_int 100) = true
  /\ exists l1 l2, db_carparks = l1 ++ m :: l2
       /\ forall x, In x l1 -> fle (dist x) (of_int 100) = false.
Proof.
  induction db_carparks as [|r rest IH]; cbn [coord_match]; [discriminate|].
  destruct (fle (dist r) (of_int 100)) eqn:Hr.
  - intros E. injection E as <- <-. repeat split; auto.
    exists [], rest. split; [reflexivity | intros x []].
  - intros E. destruct (IH E) as (Hd & Hle & l1 & l2 & Hl & Hl1).
    repeat split; auto. exists (r :: l1), l2. split.
    + rewrite Hl. reflexivity.
    + intros x [<-|Hx]; auto.
Qed.

Lemma coord_match_none (db_carparks : list (db_carpark num)) :
  coord_match conn_cp db_carparks = None ->
  forall x, In x db_carparks -> fle (dist x) (of_int 100) = false.
Proof.
  induction db_carparks as [|r rest IH]; cbn [coord_match]; [intros _ x []|].
  destruct (fle (dist r) (of_int 100)) eqn:Hr; [discriminate|].
  intros E x [<-|Hx]; auto.
Qed.

End ProximityFacts.

(** On the real numbers, the distance between two points of one meridian
    is the arc between their latitudes. *)
Lemma haversine_distance_meridian (lat1 lat2 lon : R) :
  (lat1 <= lat2 <= lat1 + 180)%R ->
  haversine_distance lat1 lon lat2 lon
  = ((lat2 - lat1) * (PI / 180) * 6371000)%R.
Proof.
  intros Hlat. assert (Hpi := PI_RGT_0).
  unfold haversine_distance, sqr, of_int.
  cbn [fadd fsub fmul fdiv of_ratio radians msin mcos masin msqrt
       R_PyFloat R_PyMath].
  set (u := ((lat2 * (PI / 180) - lat1 * (PI / 180)) / (2 / 1))%R).
  assert (Hu : (0 <= u <= PI / 2)%R).
  { unfold u. split.
    - apply Rmult_le_reg_r with (r := 360%R); [lra|]. field_simplify.
      nra.
    - apply Rmult_le_reg_r with (r := 360%R); [lra|]. field_simplify.
      nra. }
  replace ((lon * (PI / 180) - lon * (PI / 180)) / (2 / 1))%R with 0%R
    by (unfold Rdiv; ring).
  rewrite sin_0, Rmult_0_r, Rmult_0_r, Rplus_0_r.
  rewrite sqrt_square by (apply sin_ge_0; lra).
  rewrite asin_sin by lra.
  unfold u. field.
Qed.

(** ** Dictionaries *)

Lemma str_eqb_eq (a b : str) : str_eqb a b = true <-> a = b.
Proof.
  unfold str_eqb. destruct (list_eq_dec ascii_dec a b); split; intros;
    congruence || auto.
Qed.

Lemma str_eqb_refl (a : str) : str_eqb a a = true.
Proof. apply str_eqb_eq. reflexivity. Qed.

Lemma str_eqb_neq (a b : str) : str_eqb a b = false <-> a <> b.
Proof.
  unfold str_eqb. destruct (list_eq_dec ascii_dec a b); split; intros;
    congruence || auto.
Qed.

Lemma dict_get_set {V : Type} (k k' : str) (v : V) (d : list (str * V)) :
  dict_get k (dict_set k' v d)
  = if str_eqb k k' then Some v else dict_get k d.
Proof.
  induction d as [|[k0 v0] rest IH]; cbn [dict_set dict_get].
  - destruct (str_eqb k k'); reflexivity.
  - destruct (str_eqb k' k0) eqn:E0; cbn [dict_get].
    + apply str_eqb_eq in E0. subst k0.
      destruct (str_eqb k k'); reflexivity.
    + rewrite IH. destruct (str_eqb k k0) eqn:E1; [|reflexivity].
      apply str_eqb_eq in E1. subst k0.
      destruct (str_eqb k k') eqn:E2; [|reflexivity].
      apply str_eqb_eq in E2. subst k'. rewrite str_eqb_refl in E0.
      discriminate.
Qed.

Lemma keys_dict_set {V : Type} (k : str) (v : V) (d : list (str * V)) :
  keys (dict_set k v d)
  = if dict_mem k d then keys d else keys d ++ [k].
Proof.
  unfold dict_mem, keys.
  induction d as [|[k0 v0] rest IH]; cbn [dict_set dict_get map fst app].
  - reflexivity.
  - destruct (str_eqb k k0) eqn:E0; cbn [map fst].
    + apply str_eqb_eq in E0. subst k0. reflexivity.
    + rewrite IH. destruct (dict_get k rest); reflexivity.
Qed.

Lemma dict_get_In {V : Type} (k : str) (v : V) (d : list (str * V)) :
  dict_get k d = Some v -> In (k, v) d.
Proof.
  induction d as [|[k0 v0] rest IH]; cbn [dict_get]; [discriminate|].
  destruct (str_eqb k k0) eqn:E0.
  - apply str_eqb_eq in E0. subst k0. intros E. injection E as ->.
    left. reflexivity.
  - intros E. right. apply IH, E.
Qed.

Lemma dict_mem_keys {V : Type} (k : str) (d : list (str * V)) :
  dict_mem k d = true <-> In k (keys d).
Proof.
  unfold dict_mem, keys.
  induction d as [|[k0 v0] rest IH]; cbn [dict_get map fst In].
  - split; [discriminate | intros []].
  - destruct (str_eqb k k0) eqn:E0.
    + apply str_eqb_eq in E0. subst k0. split; auto.
    + apply str_eqb_neq in E0. rewrite IH. split; [auto|].
      intros [E|Hin]; [congruence | exact Hin].
Qed.

(** ** LexicalMatcher *)

Section LexicalFacts.
Context {num : Type} `{PyFloat num} {Hord : PyFloatOrder num}.
Variable ratio : str -> str -> num.

(** The loop of [best_of]: either no score was above the starting one, or
    the state holds the first row of greatest score. *)
Lemma best_loop (score : db_carpark num -> num)
  (rows : list (db_carpark num)) :
  forall (m0 : option (db_carpark num)) (s0 : num),
    (fold_left (best_step score) rows (m0, s0) = (m0, s0)
     /\ forall x, In x rows -> fle (score x) s0 = true)
    \/ exists l1 c l2,
        rows = l1 ++ c :: l2
        /\ fold_left (best_step score) rows (m0, s0) = (Some c, score c)
        /\ flt s0 (score c) = true
        /\ (forall x, In x l1 -> flt (score x) (score c) = true)
        /\ (forall x, In x l2 -> fle (score x) (score c) = true).
Proof.
  induction rows as [|r rest IH]; intros m0 s0.
  - left. split; [reflexivity | intros x []].
  - cbn [fold_left].
    replace (best_step score (m0, s0) r)
      with (if flt s0 (score r) then (Some r, score r) else (m0, s0))
      by reflexivity.
    destruct (flt s0 (score r)) eqn:Hr.
    + right. destruct (IH (Some r) (score r))
        as [[Hst Hall] | (l1 & c & l2 & Hl & Hst & Hc & Hl1 & Hl2)].
      * exists [], r, rest.
        split; [reflexivity|]. split; [exact Hst|]. split; [exact Hr|].
        split; [intros x [] | exact Hall].
      * exists (r :: l1), c, l2.
        split; [rewrite Hl; reflexivity|]. split; [exact Hst|].
        split; [eapply flt_trans; eauto|]. split; [|exact Hl2].
        intros x [<-|Hx]; auto.
    + apply flt_false_fle in Hr.
      destruct (IH m0 s0)
        as [[Hst Hall] | (l1 & c & l2 & Hl & Hst & Hc & Hl1 & Hl2)].
      * left. split; [exact Hst|]. intros x [<-|Hx]; auto.
      * right. exists (r :: l1), c, l2.
        split; [rewrite Hl; reflexivity|]. split; [exact Hst|].
        split; [exact Hc|]. split; [|exact Hl2].
        intros x [<-|Hx]; auto. eapply fle_flt_trans; eauto.
Qed.

Lemma best_of_cases (score : db_carpark num -> num)
  (rows : list (db_carpark num)) :
  (best_of score rows = (None, of_int 0)
   /\ forall x, In x rows -> fle (score x) (of_int 0) = true)
  \/ exists l1 c l2,
      rows = l1 ++ c :: l2
      /\ best_of score rows = (Some c, score c)
      /\ flt (of_int 0) (score c) = true
      /\ (forall x, In x l1 -> flt (score x) (score c) = true)
      /\ (forall x, In x l2 -> fle (score x) (score c) = true).
Proof. apply best_loop. Qed.

Lemma zero_below (n : Z) (d : positive) (x : num) :
  (0 < n)%Z -> fle x (of_int 0) = true -> flt x (of_ratio n d) = true.
Proof.
  intros Hn Hx. eapply fle_flt_trans; [exact Hx|].
  apply fle_false_flt. unfold of_int. rewrite of_ratio_fle.
  apply Z.leb_gt. lia.
Qed.

(** What the loop leaves in [best_match] and [best_score]. *)
Lemma best_of_state (score : db_carpark num -> num)
  (rows : list (db_carpark num)) :
  (forall x, In x rows -> fle (score x) (snd (best_of score rows)) = true)
  /\ (fst (best_of score rows) = None ->
      snd (best_of score rows) = of_int 0)
  /\ (forall c, fst (best_of score rows) = Some c ->
        snd (best_of score rows) = score c
        /\ exists l1 l2,
            rows = l1 ++ c :: l2
            /\ (forall x, In x l1 -> flt (score x) (score c) = true)
            /\ (forall x, In x l2 -> fle (score x) (score c) = true)).
Proof.
  destruct (best_of_cases score rows)
    as [[-> Hall] | (l1 & c & l2 & Hl & -> & Hc & Hl1 & Hl2)]; cbn [fst snd].
  - split; [exact Hall|]. split; [reflexivity | discriminate].
  - split; [|split; [discriminate|]].
    + intros x Hx. rewrite Hl in Hx. apply in_app_or in Hx.
      destruct Hx as [Hx|[<-|Hx]]; auto using fle_refl, flt_weaken.
    + intros c' E. injection E as <-. split; [reflexivity|].
      exists l1, l2. auto.
Qed.

Lemma addr_match_some (conn_cp : connected_carpark num)
  (db_carparks : list (db_carpark num)) m s :
  addr_match ratio conn_cp db_carparks = Some (m, s) ->
  s = address_led_score ratio conn_cp m /\ fge s (of_ratio 7 10) = true
  /\ exists l1 l2,
      db_carparks = l1 ++ m :: l2
      /\ (forall x, In x l1 ->
            flt (address_led_score ratio conn_cp x) s = true)
      /\ (forall x, In x l2 ->
            fle (address_led_score ratio conn_cp x) s = true).
Proof.
  unfold addr_match.
  set (addr_led := address_led_score ratio conn_cp).
  destruct (best_of_state addr_led db_carparks) as (_ & _ & Hsome).
  destruct (fge (snd (best_of addr_led db_carparks)) (of_ratio 7 10))
    eqn:Hge; [|discriminate].
  destruct (fst (best_of addr_led db_carparks)) as [c|] eqn:Hfst;
    [|discriminate].
  intros E. injection E as <- <-.
  destruct (Hsome c eq_refl) as (Hs & l1 & l2 & Hl & Hl1 & Hl2).
  rewrite Hs in *. repeat split; auto. exists l1, l2. auto.
Qed.


Abbreviation add_name :=
  (fun (d : list (str * db_carpark num)) (row : db_carpark num) =>
     dict_set (lower (db_name row)) row d).

Lemma db_names_fold_get (db_carparks : list (db_carpark num)) :
  forall d k row,
    dict_get k (fold_left add_name db_carparks d) = Some row ->
    (In row db_carparks /\ lower (db_name row) = k)
    \/ dict_get k d = Some row.
Proof.
  induction db_carparks as [|r rest IH]; intros d k row; cbn [fold_left].
  - auto.
  - intros E. destruct (IH _ _ _ E) as [[Hin Hk]|Hd].
    + left. split; [right; exact Hin | exact Hk].
    + rewrite dict_get_set in Hd.
      destruct (str_eqb k (lower (db_name r))) eqn:Ek; [|auto].
      injection Hd as <-. apply str_eqb_eq in Ek.
      left. split; [left; reflexivity | congruence].
Qed.

Lemma db_names_fold_mem (db_carparks : list (db_carpark num)) :
  forall d k,
    dict_mem k d = true
    \/ (exists db, In db db_carparks /\ lower (db_name db) = k) ->
    dict_mem k (fold_left add_name db_carparks d) = true.
Proof.
  induction db_carparks as [|r rest IH]; intros d k; cbn [fold_left].
  - intros [Hd | (db & [] & _)]. exact Hd.
  - intros Hk. apply IH.
    destruct (str_eqb k (lower (db_name r))) eqn:Ek.
    + left. unfold dict_mem. rewrite dict_get_set, Ek. reflexivity.
    + destruct Hk as [Hd | (db & [<-|Hin] & Hdb)].
      * left. unfold dict_mem in *. rewrite dict_get_set, Ek. exact Hd.
      * apply str_eqb_neq in Ek. congruence.
      * right. exists db. auto.
Qed.

End LexicalFacts.





(** ** Empty collections *)

(** C5: what the scripts do on an empty collection.  The summary of
    analyze-connected-overlap.py divides by [len(connected_carparks)] and
    the one of analyze-connected-geojson-overlap.py by [len(db_carparks)];
    with an empty list the division raises [ZeroDivisionError]. *)
Theorem empty_collection_raises {num : Type} `{PyFloat num}
  (ratio : str -> str -> num) (lib : GeoLib num)
  (db_carparks : list (db_carpark num))
  (connected_buildings : list (polygon lib)) :
  overlap_main ratio [] db_carparks = Raise ZeroDivisionError
  /\ geojson_overlap_main lib connected_buildings [] = Raise ZeroDivisionError.
Proof. split; reflexivity. Qed.

(** ** ContainmentMatcher *)

Section ContainmentFacts.
Context {num : Type} (lib : GeoLib num).

Lemma load_buildings_raises (features : list (feature num)) f e :
  In f features -> load_feature lib f = Raise e ->
  exists e', load_buildings lib features = Raise e'.
Proof.
  induction features as [|g rest IH]; intros Hin Hf; [contradiction|].
  cbn [load_buildings]. destruct (load_feature lib g) as [b|e0] eqn:Hg.
  - destruct Hin as [->|Hin]; [congruence|].
    destruct (IH Hin Hf) as [e' He']. exists e'.
    cbn [bind]. rewrite He'. reflexivity.
  - exists e0. reflexivity.
Qed.

(** C6, amended.  When one footprint fails to load (a position that does
    not unpack, a transformation or a polygon construction that raises, a
    missing id), the exception leaves the [try] block that holds the whole
    method: method 3 produces no candidate at all, and [all_matches] stays
    as the first two methods left it. *)
Theorem failed_footprint_ends_method (features : list (feature num))
  (connected_carparks : list (connected_carpark num))
  (db_carparks : list (db_carpark num))
  (m : list (str * match_entry num)) f e :
  In f features -> load_feature lib f = Raise e ->
  (exists e', method3 lib features connected_carparks db_carparks = Raise e')
  /\ polygon_method lib features connected_carparks db_carparks m = m
  /\ forall conn_cp, polygon_event lib features db_carparks conn_cp = None.
Proof.
  intros Hin Hf. destruct (load_buildings_raises _ _ _ Hin Hf) as [e' He'].
  unfold method3, polygon_method, polygon_event. rewrite He'.
  split; [exists e'; reflexivity|]. split; [reflexivity|]. reflexivity.
Qed.
End ContainmentFacts.

Lemma failed_footprint_ends_method_witness :
  (exists e',
      method3 (num := float) plane [with_height; podium] [station7]
              [harbour_centre; great_eagle] = Raise e')
  /\ polygon_method (num := float) plane [with_height; podium] [station7]
       [harbour_centre; great_eagle] [] = []
  /\ forall conn_cp,
      polygon_event (num := float) plane [with_height; podium]
        [harbour_centre; great_eagle] conn_cp = None.
Proof.
  apply (failed_footprint_ends_method (num := float) plane
           [with_height; podium] [station7] [harbour_centre; great_eagle] []
           with_height ValueError).
  - left. reflexivity.
  - vm_compute. reflexivity.
Defined.

(** C6 as stated fails: the footprint [podium] loads and contains both
    the connected carpark and a row, so that alone it yields a candidate;
    after a footprint with a position of three coordinates the method
    yields nothing. *)
Lemma failed_footprint_drops_all :
  load_feature (num := float) plane with_height = Raise ValueError
  /\ option_map (fun m => park_id (fst m))
       (match load_buildings (num := float) plane [podium] with
        | Ok buildings =>
            polygon_match plane buildings station7 [harbour_centre; great_eagle]
        | Raise _ => None
        end) = Some (lit "tdc7p1")
  /\ method3 (num := float) plane [with_height; podium] [station7]
       [harbour_centre; great_eagle] = Raise ValueError
  /\ polygon_method (num := float) plane [with_height; podium] [station7]
       [harbour_centre; great_eagle] [] = [].
Proof. vm_compute. repeat split; reflexivity. Qed.

(** ** The example data on the real numbers *)

Lemma PI_bounds : (3 < PI <= 4)%R.
Proof. split; [pose proof PI2_3_2; lra | apply PI_4]. Qed.

(** The distance from [station7] to a row to its north on its meridian. *)
Lemma distance_station7 (i n a : string) (la : Z) :
  (222800 <= la <= 2000000)%Z ->
  distance (num := R) station7 (row i n a la 1141600)
  = ((IZR la - 222800) / 10000 * (PI / 180) * 6371000)%R.
Proof.
  intros [Hlo Hhi]. apply IZR_le in Hlo, Hhi.
  unfold distance, station7, station, row. cbn [lat lon db_lat db_lon].
  rewrite haversine_distance_meridian.
  - cbn [of_ratio R_PyFloat]. field.
  - cbn [of_ratio R_PyFloat]. lra.
Qed.

Lemma distance_great_eagle :
  distance (num := R) station7 great_eagle
  = (1 / 10000 * (PI / 180) * 6371000)%R.
Proof.
  unfold great_eagle. rewrite distance_station7 by lia. field.
Qed.

Lemma distance_sun_hung_kai :
  distance (num := R) station7 sun_hung_kai
  = (5 / 10000 * (PI / 180) * 6371000)%R.
Proof.
  unfold sun_hung_kai. rewrite distance_station7 by lia. field.
Qed.

Lemma distance_harbour_centre :
  distance (num := R) station7 harbour_centre
  = (12 / 10000 * (PI / 180) * 6371000)%R.
Proof.
  unfold harbour_centre. rewrite distance_station7 by lia. field.
Qed.

Lemma within_great_eagle :
  fle (distance (num := R) station7 great_eagle) (of_int 100) = true.
Proof.
  rewrite distance_great_eagle. apply Rleb_true.
  pose proof PI_bounds. cbn. lra.
Qed.

Lemma within_sun_hung_kai :
  fle (distance (num := R) station7 sun_hung_kai) (of_int 100) = true.
Proof.
  rewrite distance_sun_hung_kai. apply Rleb_true.
  pose proof PI_bounds. cbn. lra.
Qed.

Lemma beyond_harbour_centre :
  fle (distance (num := R) station7 harbour_centre) (of_int 100) = false.
Proof.
  rewrite distance_harbour_centre. apply Rleb_false.
  pose proof PI_bounds. cbn. lra.
Qed.



(** ** MatchFusion *)

Section FusionFacts.
Context {num : Type} `{PyMath num}.
Variable ratio : str -> str -> num.
Variable lib : GeoLib num.

Abbreviation dict := (list (str * match_entry num)).

Lemma record_match_get (key : str) (fresh : match_entry num)
  (update : match_entry num -> match_entry num) (d : dict) (k : str) :
  dict_get k (record_match key fresh update d)
  = if str_eqb k key
    then Some (update (match dict_get key d with
                       | Some e => e
                       | None => fresh
                       end))
    else dict_get k d.
Proof.
  unfold record_match, dict_mem.
  destruct (dict_get key d) as [e|] eqn:Hget.
  - rewrite Hget, dict_get_set. reflexivity.
  - rewrite dict_get_set, str_eqb_refl, !dict_get_set.
    destruct (str_eqb k key); reflexivity.
Qed.

Lemma record_match_keys (key : str) (fresh : match_entry num)
  (update : match_entry num -> match_entry num) (d : dict) :
  keys (record_match key fresh update d)
  = if dict_mem key d then keys d else keys d ++ [key].
Proof.
  unfold record_match. destruct (dict_mem key d) eqn:Hmem.
  - unfold dict_mem in Hmem. destruct (dict_get key d) as [e|] eqn:Hget;
      [|discriminate].
    rewrite keys_dict_set. unfold dict_mem. rewrite Hget. reflexivity.
  - rewrite dict_get_set, str_eqb_refl, keys_dict_set.
    unfold dict_mem at 1. rewrite dict_get_set, str_eqb_refl.
    rewrite keys_dict_set, Hmem. reflexivity.
Qed.

Lemma events_for_app (k : str) (E1 E2 : list event) :
  events_for k (E1 ++ E2) = events_for k E1 ++ events_for k E2.
Proof. apply filter_app. Qed.

Lemma holds_empty : holds ([] : dict) [].
Proof. split; [constructor | reflexivity]. Qed.

Lemma holds_record (d : dict) (E : list event) (ev : event)
  (fresh : match_entry num) (update : match_entry num -> match_entry num) :
  entry_of ev fresh update -> holds d E ->
  holds (record_match (ev_key ev) fresh update d) (E ++ [ev]).
Proof.
  intros (Hname & Haddr & Hid & Hm & Hupd) [Hnd Hd]. split.
  - rewrite record_match_keys. destruct (dict_mem (ev_key ev) d) eqn:Hmem;
      [exact Hnd|].
    apply NoDup_app; [exact Hnd | repeat constructor; intros [] |].
    intros k Hin [<-|[]]. apply dict_mem_keys in Hin. congruence.
  - intros k. rewrite record_match_get, events_for_app.
    cbn [events_for filter].
    destruct (str_eqb k (ev_key ev)) eqn:Ek.
    + apply str_eqb_eq in Ek. subst k. rewrite str_eqb_refl.
      specialize (Hd (ev_key ev)).
      destruct (Hupd (match dict_get (ev_key ev) d with
                      | Some e => e | None => fresh end))
        as (U1 & U2 & U3 & U4).
      destruct (dict_get (ev_key ev) d) as [e|].
      * destruct Hd as (ev0 & rest & HE & H1 & H2 & H3 & H4).
        exists ev0, (rest ++ [ev]). rewrite HE.
        split; [reflexivity|]. split; [congruence|]. split; [congruence|].
        split; [congruence|].
        rewrite U4, H4. cbn [map]. rewrite map_app. reflexivity.
      * exists ev, []. rewrite Hd.
        split; [reflexivity|]. split; [congruence|]. split; [congruence|].
        split; [congruence|]. rewrite U4, Hm. reflexivity.
    + assert (Ek' : str_eqb (ev_key ev) k = false).
      { apply str_eqb_neq. apply str_eqb_neq in Ek. congruence. }
      rewrite Ek', app_nil_r. apply Hd.
Qed.

Lemma holds_fold (step : dict -> connected_carpark num -> dict)
  (event_of : connected_carpark num -> option event) :
  records step event_of ->
  forall connected_carparks d E,
    holds d E ->
    holds (fold_left step connected_carparks d)
          (E ++ events_of event_of connected_carparks).
Proof.
  intros Hrec. induction connected_carparks as [|c cs IH]; intros d E Hd.
  - cbn. rewrite app_nil_r. exact Hd.
  - cbn [fold_left events_of flat_map]. fold (events_of event_of cs).
    specialize (Hrec d c). destruct (event_of c) as [ev|].
    + destruct Hrec as (fresh & update & -> & Hentry).
      rewrite app_assoc. apply IH. apply holds_record; assumption.
    + rewrite Hrec. cbn [app]. apply IH, Hd.
Qed.

Lemma coordinate_step_records (db_carparks : list (db_carpark num)) :
  records (coordinate_step db_carparks) (coordinate_event db_carparks).
Proof.
  intros d c. unfold coordinate_event, coordinate_step.
  destruct (coord_match c db_carparks) as [[db_cp dist]|]; [|reflexivity].
  eexists _, _. split; [reflexivity|].
  repeat split; reflexivity.
Qed.

Lemma address_step_records (db_carparks : list (db_carpark num)) :
  records (address_step ratio db_carparks)
          (address_event ratio db_carparks).
Proof.
  intros d c. unfold address_event, address_step.
  destruct (addr_match ratio c db_carparks) as [[db_cp score]|];
    [|reflexivity].
  eexists _, _. split; [reflexivity|].
  repeat split; reflexivity.
Qed.

Lemma polygon_step_records (features : list (feature num))
  (buildings : list (building lib)) (db_carparks : list (db_carpark num)) :
  load_buildings lib features = Ok buildings ->
  records (polygon_step lib buildings db_carparks)
          (polygon_event lib features db_carparks).
Proof.
  intros Hload d c. unfold polygon_event, polygon_step. rewrite Hload.
  destruct (polygon_match lib buildings c db_carparks) as [[db_cp bldg]|];
    [|reflexivity].
  eexists _, _. split; [reflexivity|].
  repeat split; reflexivity.
Qed.

Lemma polygon_event_raise (features : list (feature num))
  (db_carparks : list (db_carpark num))
  (connected_carparks : list (connected_carpark num)) e :
  load_buildings lib features = Raise e ->
  events_of (polygon_event lib features db_carparks) connected_carparks = [].
Proof.
  intros Hload. induction connected_carparks as [|c cs IH]; [reflexivity|].
  cbn [events_of flat_map]. unfold polygon_event at 1. rewrite Hload.
  exact IH.
Qed.

(** [all_matches] holds the events of the three methods, in the order
    coordinate, address, polygon. *)
Lemma all_matches_holds (connected_carparks : list (connected_carpark num))
  (db_carparks : list (db_carpark num)) (features : list (feature num)) :
  holds (all_matches ratio lib connected_carparks db_carparks features)
        (match_events ratio lib connected_carparks db_carparks features).
Proof.
  unfold all_matches, match_events, polygon_method.
  pose proof (holds_fold _ _ (coordinate_step_records db_carparks)
                connected_carparks _ _ holds_empty) as H1.
  pose proof (holds_fold _ _ (address_step_records db_carparks)
                connected_carparks _ _ H1) as H2.
  cbn [app] in H2.
  destruct (load_buildings lib features) as [buildings|e] eqn:Hload.
  - pose proof (holds_fold _ _
                  (polygon_step_records features buildings db_carparks Hload)
                  connected_carparks _ _ H2) as H3.
    rewrite <- app_assoc in H3. exact H3.
  - rewrite (polygon_event_raise _ _ _ _ Hload), app_nil_r. exact H2.
Qed.
Lemma events_for_In (k : str) (E : list event) (ev : event) :
  In ev (events_for k E) <-> In ev E /\ ev_key ev = k.
Proof.
  unfold events_for. rewrite filter_In, str_eqb_eq. reflexivity.
Qed.

Lemma events_of_In (event_of : connected_carpark num -> option event)
  (connected_carparks : list (connected_carpark num)) (ev : event) :
  In ev (events_of event_of connected_carparks)
  <-> exists c, In c connected_carparks /\ event_of c = Some ev.
Proof.
  unfold events_of. rewrite in_flat_map. split.
  - intros (c & Hc & Hev). exists c. split; [exact Hc|].
    destruct (event_of c) as [ev'|]; [|contradiction].
    destruct Hev as [->|[]]. reflexivity.
  - intros (c & Hc & Hev). exists c. split; [exact Hc|].
    rewrite Hev. left. reflexivity.
Qed.

Lemma coordinate_event_keyed (db_carparks : list (db_carpark num)) :
  keyed (coordinate_event db_carparks).
Proof.
  intros c ev. unfold coordinate_event.
  destruct (coord_match c db_carparks) as [[db_cp d]|]; [|discriminate].
  intros E. injection E as <-. reflexivity.
Qed.

Lemma address_event_keyed (db_carparks : list (db_carpark num)) :
  keyed (address_event ratio db_carparks).
Proof.
  intros c ev. unfold address_event.
  destruct (addr_match ratio c db_carparks) as [[db_cp d]|]; [|discriminate].
  intros E. injection E as <-. reflexivity.
Qed.

Lemma polygon_event_keyed (features : list (feature num))
  (db_carparks : list (db_carpark num)) :
  keyed (polygon_event lib features db_carparks).
Proof.
  intros c ev. unfold polygon_event.
  destruct (load_buildings lib features) as [buildings|]; [|discriminate].
  destruct (polygon_match lib buildings c db_carparks) as [[db_cp b]|];
    [|discriminate].
  intros E. injection E as <-. reflexivity.
Qed.

(** An event of the script comes from a connected carpark of that name
    that some method matched. *)
Lemma match_events_source (connected_carparks : list (connected_carpark num))
  (db_carparks : list (db_carpark num)) (features : list (feature num))
  (ev : event) :
  In ev (match_events ratio lib connected_carparks db_carparks features) ->
  exists c,
    In c connected_carparks /\ name c = ev_key ev
    /\ (coordinate_event db_carparks c <> None
        \/ address_event ratio db_carparks c <> None
        \/ polygon_event lib features db_carparks c <> None).
Proof.
  unfold match_events. rewrite !in_app_iff, !events_of_In.
  intros [(c & Hc & Hev) | [(c & Hc & Hev) | (c & Hc & Hev)]];
    exists c; (split; [exact Hc|]); split.
  - symmetry. eapply coordinate_event_keyed, Hev.
  - left. congruence.
  - symmetry. eapply address_event_keyed, Hev.
  - right. left. congruence.
  - symmetry. eapply polygon_event_keyed, Hev.
  - right. right. congruence.
Qed.

Lemma events_for_absent (event_of : connected_carpark num -> option event)
  (connected_carparks : list (connected_carpark num)) (k : str) :
  keyed event_of -> ~ In k (map name connected_carparks) ->
  events_for k (events_of event_of connected_carparks) = [].
Proof.
  intros Hkey Hk.
  destruct (events_for k (events_of event_of connected_carparks))
    as [|ev rest] eqn:E; [reflexivity|].
  assert (Hin : In ev (events_for k (events_of event_of connected_carparks)))
    by (rewrite E; left; reflexivity).
  apply events_for_In in Hin. destruct Hin as [Hin Hevk].
  apply events_of_In in Hin. destruct Hin as (c & Hc & Hev).
  exfalso. apply Hk. apply in_map_iff. exists c. split; [|exact Hc].
  rewrite <- (Hkey _ _ Hev). exact Hevk.
Qed.

Lemma events_for_unique (event_of : connected_carpark num -> option event)
  (connected_carparks : list (connected_carpark num))
  (c : connected_carpark num) :
  keyed event_of -> NoDup (map name connected_carparks) ->
  In c connected_carparks ->
  events_for (name c) (events_of event_of connected_carparks)
  = match event_of c with Some ev => [ev] | None => [] end.
Proof.
  intros Hkey. induction connected_carparks as [|c0 cs IH];
    intros Hnd Hin; [contradiction|].
  cbn [map] in Hnd. inversion Hnd as [|? ? Hc0 Hcs]; subst.
  cbn [events_of flat_map]. fold (events_of event_of cs).
  rewrite events_for_app. destruct Hin as [->|Hin].
  - rewrite (events_for_absent _ _ _ Hkey Hc0), app_nil_r.
    destruct (event_of c) as [ev|] eqn:Hev; [|reflexivity].
    cbn [events_for filter]. rewrite (Hkey _ _ Hev), str_eqb_refl.
    reflexivity.
  - rewrite (IH Hcs Hin).
    assert (Hne : name c0 <> name c).
    { intros E. apply Hc0. rewrite E. apply in_map, Hin. }
    destruct (event_of c0) as [ev0|] eqn:Hev0; [|reflexivity].
    cbn [events_for filter]. rewrite (Hkey _ _ Hev0).
    apply str_eqb_neq in Hne. rewrite Hne. reflexivity.
Qed.

(** The id stored under a key is the one of the first event of the key. *)
Lemma fused_id_first_event (connected_carparks : list (connected_carpark num))
  (db_carparks : list (db_carpark num)) (features : list (feature num))
  (k : str) :
  option_map entry_park_id
    (dict_get k
       (all_matches ratio lib connected_carparks db_carparks features))
  = option_map ev_park_id
      (hd_error
         (events_for k
            (match_events ratio lib connected_carparks db_carparks
               features))).
Proof.
  destruct (all_matches_holds connected_carparks db_carparks features)
    as [_ Hk].
  specialize (Hk k). destruct (dict_get k _) as [e|]; cbn [option_map].
  - destruct Hk as (ev & rest & -> & _ & _ & -> & _). reflexivity.
  - rewrite Hk. reflexivity.
Qed.

(** C10.  [all_matches] is keyed by the name of the connected carpark
    alone: it has at most one entry for a name; the entry carries the
    address and the [park_id] of the first match found for that name, in
    the order in which the script runs (all coordinate matches, then all
    address matches, then all polygon matches), and its [methods] list
    merges the methods of every match found for that name. *)
Theorem all_matches_keyed_by_name
  (connected_carparks : list (connected_carpark num))
  (db_carparks : list (db_carpark num)) (features : list (feature num)) :
  let m := all_matches ratio lib connected_carparks db_carparks features in
  let evs :=
    match_events ratio lib connected_carparks db_carparks features in
  NoDup (keys m)
  /\ (forall c1 c2,
         In c1 connected_carparks -> In c2 connected_carparks ->
         name c1 = name c2 -> dict_get (name c1) m = dict_get (name c2) m)
  /\ (forall k, dict_get k m = None -> events_for k evs = [])
  /\ (forall k e,
         dict_get k m = Some e ->
         exists ev rest,
           events_for k evs = ev :: rest
           /\ connected_name e = k
           /\ connected_addr e = ev_addr ev
           /\ entry_park_id e = ev_park_id ev
           /\ methods e = map ev_method (ev :: rest)).
Proof.
  intros m evs.
  destruct (all_matches_holds connected_carparks db_carparks features)
    as [Hnd Hk].
  fold m evs in Hnd, Hk.
  split; [exact Hnd|]. split; [intros c1 c2 _ _ ->; reflexivity|]. split.
  - intros k Hget. specialize (Hk k). rewrite Hget in Hk. exact Hk.
  - intros k e Hget. specialize (Hk k). rewrite Hget in Hk. exact Hk.
Qed.


(** C2, amended.  When the connected carparks have distinct names, the
    [park_id] stored for a connected carpark is the candidate of the first
    method, in the order coordinate, address, polygon, that matched it;
    methods that match it later add their name to [methods] and never
    replace the [park_id], whichever row they found. *)
Theorem fused_id_first_method
  (connected_carparks : list (connected_carpark num))
  (db_carparks : list (db_carpark num)) (features : list (feature num))
  (c : connected_carpark num) :
  NoDup (map name connected_carparks) -> In c connected_carparks ->
  option_map entry_park_id
    (dict_get (name c)
       (all_matches ratio lib connected_carparks db_carparks features))
  = match coordinate_event db_carparks c with
    | Some ev => Some (ev_park_id ev)
    | None =>
        match address_event ratio db_carparks c with
        | Some ev => Some (ev_park_id ev)
        | None =>
            option_map ev_park_id
              (polygon_event lib features db_carparks c)
        end
    end.
Proof.
  intros Hnd Hin. rewrite fused_id_first_event. unfold match_events.
  rewrite !events_for_app.
  rewrite (events_for_unique _ _ _ (coordinate_event_keyed db_carparks)
             Hnd Hin).
  rewrite (events_for_unique _ _ _ (address_event_keyed db_carparks)
             Hnd Hin).
  rewrite (events_for_unique _ _ _
             (polygon_event_keyed features db_carparks) Hnd Hin).
  destruct (coordinate_event db_carparks c) as [e1|]; [reflexivity|].
  destruct (address_event ratio db_carparks c) as [e2|]; [reflexivity|].
  destruct (polygon_event lib features db_carparks c) as [e3|]; reflexivity.
Qed.
End FusionFacts.

(** ** The fusion on the example data *)

Lemma Rltb_false (x y : R) : Rltb x y = false <-> (y <= x)%R.
Proof.
  unfold Rltb. destruct (Rlt_dec x y); split; intros; try discriminate; lra.
Qed.

Ltac decide_Rltb :=
  repeat (progress cbn [negb Bool.eqb andb xorb]
          || match goal with
             | |- context [Rltb ?a ?b] =>
                 first [ rewrite (proj2 (Rltb_true a b)) by lra
                       | rewrite (proj2 (Rltb_false a b)) by lra ]
             end).

Lemma load_podium :
  load_buildings (num := R) plane [podium] = Ok [podium_building].
Proof. reflexivity. Qed.

(** The points inside the ring of [podium]. *)
Lemma inside_podium (x y : R) :
  (1141590 / 10000 < x < 1141610 / 10000)%R ->
  (222795 / 10000 < y < 222815 / 10000)%R ->
  contains plane (bldg_polygon (num := R) podium_building) (x, y) = true.
Proof.
  intros Hx Hy.
  cbn [contains plane bldg_polygon podium_building crossings crosses
       fgt flt fadd fsub fmul fdiv of_ratio R_PyFloat].
  decide_Rltb. reflexivity.
Qed.

Section Abstain.
Context {num : Type} `{PyFloat num} {Hord : PyFloatOrder num}.
Variable ratio : str -> str -> num.

(** The address method abstains when every score is below 0.7. *)
Lemma addr_match_none (conn_cp : connected_carpark num)
  (db_carparks : list (db_carpark num)) :
  (forall x, In x db_carparks ->
     fge (address_led_score ratio conn_cp x) (of_ratio 7 10) = false) ->
  addr_match ratio conn_cp db_carparks = None.
Proof.
  intros Hall.
  destruct (addr_match ratio conn_cp db_carparks) as [[m s]|] eqn:E;
    [|reflexivity].
  destruct (addr_match_some _ _ _ _ _ E) as (Hs & Hge & l1 & l2 & Hl & _).
  rewrite Hs, Hall in Hge; [discriminate|].
  rewrite Hl. apply in_or_app. right. left. reflexivity.
Qed.
End Abstain.

(** The value of the difflib model on the real numbers. *)
Lemma difflib_ratio_value (a b : str) (m t : Z) :
  Z.of_nat (matching_size (S (List.length a)) a b) = m ->
  Z.of_nat (List.length a + List.length b) = t ->
  (0 < t)%Z ->
  difflib_ratio (num := R) a b = (2 * IZR m / IZR t)%R.
Proof.
  intros Hm Ht Hpos. unfold difflib_ratio.
  destruct (List.length a + List.length b =? 0) eqn:E.
  - apply Nat.eqb_eq in E. rewrite E in Ht. cbn in Ht. lia.
  - unfold of_len, of_int. rewrite Hm, Ht.
    cbn [fdiv fmul of_ratio R_PyFloat].
    apply IZR_lt in Hpos. field. lra.
Qed.

Ltac eval_scores :=
  unfold address_led_score, address_similarity;
  cbn [name address db_name db_addr station7 harbour_centre great_eagle
       station row];
  repeat match goal with
    | |- context [difflib_ratio ?a ?b] =>
        let m := eval vm_compute in
                   (Z.of_nat (matching_size (S (List.length a)) a b)) in
        let t := eval vm_compute in
                   (Z.of_nat (List.length a + List.length b)) in
        rewrite (difflib_ratio_value a b m t)
          by (vm_compute; reflexivity)
    end;
  cbn [fge fle fadd fmul of_ratio R_PyFloat].

Lemma station7_address_abstains :
  addr_match (num := R) difflib_ratio station7 [harbour_centre; great_eagle]
  = None.
Proof.
  apply addr_match_none.
  intros x [<-|[<-|[]]]; eval_scores; apply Rleb_false; lra.
Qed.

Lemma station7_coordinate_event :
  coordinate_event (num := R) [harbour_centre; great_eagle] station7
  = Some {| ev_key := name (num := R) station7;
            ev_addr := address (num := R) station7;
            ev_park_id := lit "tdc12p3";
            ev_method := lit "coordinate" |}.
Proof.
  unfold coordinate_event. cbn [coord_match].
  rewrite beyond_harbour_centre, within_great_eagle. reflexivity.
Qed.

Lemma station7_polygon_event :
  polygon_event (num := R) plane [podium] [harbour_centre; great_eagle]
    station7
  = Some {| ev_key := name (num := R) station7;
            ev_addr := address (num := R) station7;
            ev_park_id := lit "tdc7p1";
            ev_method := lit "polygon" |}.
Proof.
  unfold polygon_event. rewrite load_podium.
  unfold polygon_match, conn_building. cbn [find].
  rewrite (inside_podium (lon station7) (lat station7))
    by (cbn; lra).
  cbn [find].
  rewrite (inside_podium (db_lon harbour_centre) (db_lat harbour_centre))
    by (cbn; lra).
  reflexivity.
Qed.

(** C2 as stated fails: [station7] is within 100 m of [great_eagle] only,
    and the first row inside its building is [harbour_centre]; the address
    method abstains.  One strategy endorses each id, so the policy of the
    specification picks the id of the containment strategy, but
    [all_matches] keeps the id that the coordinate method stored first. *)
Lemma fused_id_not_by_policy :
  option_map ev_park_id
    (polygon_event (num := R) plane [podium] [harbour_centre; great_eagle]
       station7) = Some (lit "tdc7p1")
  /\ option_map ev_park_id
       (coordinate_event (num := R) [harbour_centre; great_eagle] station7)
     = Some (lit "tdc12p3")
  /\ address_event (num := R) difflib_ratio [harbour_centre; great_eagle]
       station7 = None
  /\ spec_fused_id (Some (lit "tdc7p1")) (Some (lit "tdc12p3")) None
     = Some (lit "tdc7p1")
  /\ option_map entry_park_id
       (dict_get (name (num := R) station7)
          (all_matches (num := R) difflib_ratio plane [station7]
             [harbour_centre; great_eagle] [podium]))
     = Some (lit "tdc12p3").
Proof.
  split; [rewrite station7_polygon_event; reflexivity|].
  split; [rewrite station7_coordinate_event; reflexivity|].
  split; [unfold address_event; rewrite station7_address_abstains;
          reflexivity|].
  split; [vm_compute; reflexivity|].
  rewrite fused_id_first_event. unfold match_events.
  cbn [events_of flat_map].
  rewrite station7_coordinate_event, station7_polygon_event.
  unfold address_event. rewrite station7_address_abstains. reflexivity.
Qed.

Lemma fused_id_first_method_witness :
  option_map entry_park_id
    (dict_get (name (num := R) station7)
       (all_matches (num := R) difflib_ratio plane [station7]
          [harbour_centre; great_eagle] [podium]))
  = match coordinate_event (num := R) [harbour_centre; great_eagle] station7
    with
    | Some ev => Some (ev_park_id ev)
    | None =>
        match address_event (num := R) difflib_ratio
                [harbour_centre; great_eagle] station7 with
        | Some ev => Some (ev_park_id ev)
        | None =>
            option_map ev_park_id
              (polygon_event (num := R) plane [podium]
                 [harbour_centre; great_eagle] station7)
        end
    end.
Proof.
  apply (fused_id_first_method difflib_ratio plane [station7]
           [harbour_centre; great_eagle] [podium] station7).
  - repeat constructor. intros [].
  - left. reflexivity.
Defined.


(** * Further properties *)

(** ** Loading the connected carparks *)

Section LoadingFacts.
Context {num : Type}.
Variable float_of_str : str -> option num.

Lemma connected_of_row_raises (row : list (str * str)) (e : exception) :
  connected_of_row float_of_str row = Raise e ->
  e = KeyError \/ e = ValueError.
Proof.
  unfold connected_of_row, csv_field, to_float.
  repeat (cbn [bind];
          match goal with
          | |- context [dict_get ?k row] => destruct (dict_get k row)
          | |- context [float_of_str ?s] => destruct (float_of_str s)
          end);
    cbn [bind]; intros E; try discriminate; injection E as <-; auto.
Qed.

Lemma connected_of_row_ok (row : list (str * str))
  (c : connected_carpark num) :
  connected_of_row float_of_str row = Ok c
  <-> exists la lo,
        dict_get (lit "Station Name") row = Some (name c)
        /\ dict_get (lit "Address") row = Some (address c)
        /\ dict_get (lit "Latitude") row = Some la
        /\ float_of_str la = Some (lat c)
        /\ dict_get (lit "Longitude") row = Some lo
        /\ float_of_str lo = Some (lon c).
Proof.
  unfold connected_of_row, csv_field, to_float. split.
  - destruct (dict_get (lit "Station Name") row) as [n|]; [|discriminate].
    destruct (dict_get (lit "Address") row) as [a|]; [|discriminate].
    destruct (dict_get (lit "Latitude") row) as [la|]; [|discriminate].
    cbn [bind]. destruct (float_of_str la) as [x|] eqn:Hx; [|discriminate].
    destruct (dict_get (lit "Longitude") row) as [lo|]; [|discriminate].
    cbn [bind]. destruct (float_of_str lo) as [y|] eqn:Hy; [|discriminate].
    cbn [bind]. intros E. injection E as <-. exists la, lo. cbn.
    repeat split; assumption.
  - intros (la & lo & -> & -> & -> & Hla & -> & Hlo). cbn [bind].
    rewrite Hla. cbn [bind]. rewrite Hlo. cbn [bind].
    destruct c; reflexivity.
Qed.

End LoadingFacts.

(** ** The lists of analyze-connected-overlap-coords.py *)

Section CoordsFacts.
Context {num : Type} `{PyMath num}.

Lemma closest_fold_shape (conn_cp : connected_carpark num)
  (db_carparks : list (db_carpark num)) :
  forall st,
    fold_left (closest_step conn_cp) db_carparks st = st
    \/ exists m,
        In m db_carparks
        /\ fold_left (closest_step conn_cp) db_carparks st
           = (Some m, Some (distance conn_cp m)).
Proof.
  induction db_carparks as [|r rest IH]; intros st; [left; reflexivity|].
  cbn [fold_left].
  replace (closest_step conn_cp st r)
    with (if below (distance conn_cp r) (snd st)
          then (Some r, Some (distance conn_cp r)) else st) by reflexivity.
  destruct (below (distance conn_cp r) (snd st)).
  - right. destruct (IH (Some r, Some (distance conn_cp r)))
      as [E | (m & Hm & E)].
    + exists r. split; [left; reflexivity | exact E].
    + exists m. split; [right; exact Hm | exact E].
  - destruct (IH st) as [E | (m & Hm & E)]; [left; exact E|].
    right. exists m. split; [right; exact Hm | exact E].
Qed.

Lemma closest_shape (conn_cp : connected_carpark num)
  (db_carparks : list (db_carpark num)) :
  (db_carparks = [] /\ closest conn_cp db_carparks = (None, None))
  \/ exists m,
      In m db_carparks
      /\ closest conn_cp db_carparks = (Some m, Some (distance conn_cp m)).
Proof.
  unfold closest. destruct db_carparks as [|r rest]; [left; auto|].
  right. cbn [fold_left].
  change (closest_step conn_cp (None, None) r)
    with (Some r, Some (distance conn_cp r)).
  destruct (closest_fold_shape conn_cp rest
              (Some r, Some (distance conn_cp r))) as [E | (m & Hm & E)].
  - exists r. split; [left; reflexivity | exact E].
  - exists m. split; [right; exact Hm | exact E].
Qed.

Lemma coords_fold (db_carparks : list (db_carpark num))
  (connected_carparks : list (connected_carpark num)) :
  forall lists,
    fold_left (coords_step db_carparks) connected_carparks lists
    = (fst lists ++ matched_entries db_carparks connected_carparks,
       snd lists ++ unmatched_entries db_carparks connected_carparks).
Proof.
  induction connected_carparks as [|c cs IH]; intros [M U].
  - cbn. rewrite !app_nil_r. reflexivity.
  - cbn [fold_left matched_entries unmatched_entries flat_map].
    fold (matched_entries db_carparks cs).
    fold (unmatched_entries db_carparks cs).
    rewrite IH. unfold coords_step.
    destruct (closest_match c db_carparks) as [[m d]|]; cbn [fst snd app];
      rewrite <- ?app_assoc; reflexivity.
Qed.

End CoordsFacts.

(** ** The dictionary [db_names] *)

Lemma NoDup_keys_dict_set {V : Type} (k : str) (v : V) (d : list (str * V)) :
  NoDup (keys d) -> NoDup (keys (dict_set k v d)).
Proof.
  intros Hnd. rewrite keys_dict_set. destruct (dict_mem k d) eqn:Hmem;
    [exact Hnd|].
  apply NoDup_app; [exact Hnd | repeat constructor; intros [] |].
  intros k' Hin [<-|[]]. apply dict_mem_keys in Hin. congruence.
Qed.

Lemma length_dict_set {V : Type} (k : str) (v : V) (d : list (str * V)) :
  List.length (dict_set k v d) <= S (List.length d).
Proof.
  rewrite <- (length_map fst (dict_set k v d)), <- (length_map fst d).
  fold (keys (dict_set k v d)). fold (keys d). rewrite keys_dict_set.
  destruct (dict_mem k d); [lia|]. rewrite length_app. cbn. lia.
Qed.

Section DbNamesFacts.
Context {num : Type}.

Abbreviation add_row :=
  (fun (d : list (str * db_carpark num)) (row : db_carpark num) =>
     dict_set (lower (db_name row)) row d).

Lemma db_names_fold_keep (rows : list (db_carpark num)) (k : str) :
  (forall x, In x rows -> lower (db_name x) <> k) ->
  forall d, dict_get k (fold_left add_row rows d) = dict_get k d.
Proof.
  induction rows as [|r rest IH]; intros Hk d; [reflexivity|].
  cbn [fold_left]. rewrite IH by (intros x Hx; apply Hk; right; exact Hx).
  rewrite dict_get_set.
  destruct (str_eqb k (lower (db_name r))) eqn:E; [|reflexivity].
  apply str_eqb_eq in E. exfalso. apply (Hk r); [left; reflexivity | auto].
Qed.

Lemma db_names_fold_shape (rows : list (db_carpark num)) :
  forall d,
    NoDup (keys d) ->
    NoDup (keys (fold_left add_row rows d))
    /\ List.length (fold_left add_row rows d)
       <= List.length d + List.length rows.
Proof.
  induction rows as [|r rest IH]; intros d Hd; cbn [fold_left].
  - split; [exact Hd | cbn; lia].
  - destruct (IH (dict_set (lower (db_name r)) r d)
                (NoDup_keys_dict_set _ _ _ Hd)) as [H1 H2].
    split; [exact H1|].
    pose proof (length_dict_set (lower (db_name r)) r d). cbn [List.length].
    lia.
Qed.

(** X3.  [db_names] keeps one row for each lower-cased name: its keys are
    distinct, it is no longer than the list of rows, and when several rows
    have the same lower-cased name it maps that name to the last of them,
    which is therefore the row that an exact match returns. *)
Theorem db_names_last_wins (db_carparks : list (db_carpark num)) :
  NoDup (keys (db_names db_carparks))
  /\ List.length (db_names db_carparks) <= List.length db_carparks
  /\ (forall l1 r l2,
         db_carparks = l1 ++ r :: l2 ->
         (forall x, In x l2 -> lower (db_name x) <> lower (db_name r)) ->
         dict_get (lower (db_name r)) (db_names db_carparks) = Some r).
Proof.
  split; [|split].
  - apply (db_names_fold_shape db_carparks []). constructor.
  - apply (db_names_fold_shape db_carparks []). constructor.
  - intros l1 r l2 -> Hl2. unfold db_names.
    rewrite fold_left_app. cbn [fold_left].
    rewrite (db_names_fold_keep l2 (lower (db_name r)) Hl2).
    rewrite dict_get_set, str_eqb_refl. reflexivity.
Qed.
End DbNamesFacts.

(** Two rows named alike: the exact match returns the second. *)
Lemma db_names_last_wins_witness :
  dict_get (lower (db_name (num := float) central_row))
    (db_names (num := float)
       [row "tdc1p1" "CENTRAL CAR PARK" "1 Pedder Street" 222810 1141580;
        central_row])
  = Some central_row.
Proof.
  apply (proj2 (proj2 (db_names_last_wins (num := float)
           [row "tdc1p1" "CENTRAL CAR PARK" "1 Pedder Street" 222810 1141580;
            central_row]))
           [row "tdc1p1" "CENTRAL CAR PARK" "1 Pedder Street" 222810 1141580]
           central_row []).
  - reflexivity.
  - intros x [].
Defined.

(** ** The script analyze-matching-methods.py *)

Section MatchingMethodsFacts.
Context {num : Type} `{PyMath num}.
Variable ratio : str -> str -> num.
Variable lib : GeoLib num.

Lemma length_option_flat_map {A B : Type} (f : A -> option B) (l : list A) :
  List.length (flat_map (fun a => match f a with
                                  | Some b => [(a, b)]
                                  | None => []
                                  end) l) <= List.length l.
Proof.
  induction l as [|a l IH]; [apply Nat.le_refl|].
  cbn [flat_map]. rewrite length_app. cbn [List.length].
  destruct (f a); cbn [List.length]; lia.
Qed.

Lemma overlap_percentage_ok (matches total : nat) :
  total <> 0 ->
  overlap_percentage (num := num) matches total
  = Ok (fmul (fdiv (of_len matches) (of_len total)) (of_int 100)).
Proof.
  intros Hn. unfold overlap_percentage, truediv.
  destruct total; [contradiction|]. reflexivity.
Qed.

(** X4.  analyze-matching-methods.py runs to its end exactly when there is
    a connected carpark and the footprints load.  Without a connected
    carpark the first overlap percentage raises [ZeroDivisionError]; when
    loading the footprints raises, the error is printed and the summary
    then stops with [NameError], because [polygon_matches] was never
    assigned.  When it completes, each method has matched every connected
    carpark at most once. *)
Theorem matching_methods_main_outcome
  (connected_carparks : list (connected_carpark num))
  (db_carparks : list (db_carpark num)) (features : list (feature num)) :
  let main := matching_methods_main ratio lib connected_carparks db_carparks
                features in
  (connected_carparks = [] -> main = Stops (Exception ZeroDivisionError))
  /\ (connected_carparks <> [] ->
      forall e, load_buildings lib features = Raise e ->
                main = Stops NameError)
  /\ (connected_carparks <> [] ->
      forall buildings, load_buildings lib features = Ok buildings ->
      exists c,
        main = Completes c
        /\ cmp_coord c = coord_matches connected_carparks db_carparks
        /\ cmp_addr c = addr_matches ratio connected_carparks db_carparks
        /\ cmp_polygon c
           = polygon_matches lib buildings connected_carparks db_carparks
        /\ List.length (cmp_coord c) <= List.length connected_carparks
        /\ List.length (cmp_addr c) <= List.length connected_carparks
        /\ List.length (cmp_polygon c) <= List.length connected_carparks).
Proof.
  intros main. unfold main, matching_methods_main. clear main.
  split; [|split].
  - intros ->. reflexivity.
  - intros Hne e Hload.
    assert (Hn : List.length connected_carparks <> 0)
      by (destruct connected_carparks; [contradiction | discriminate]).
    rewrite !(overlap_percentage_ok _ _ Hn). cbn [run].
    unfold method3. rewrite Hload. reflexivity.
  - intros Hne buildings Hload.
    assert (Hn : List.length connected_carparks <> 0)
      by (destruct connected_carparks; [contradiction | discriminate]).
    rewrite !(overlap_percentage_ok _ _ Hn). cbn [run].
    unfold method3. rewrite Hload. cbn [bind run].
    rewrite (overlap_percentage_ok _ _ Hn). cbn [run].
    eexists. split; [reflexivity|]. cbn.
    repeat split; try reflexivity;
      [unfold coord_matches | unfold addr_matches | unfold polygon_matches];
      apply length_option_flat_map.
Qed.
End MatchingMethodsFacts.

(** ** The entries of [all_matches] *)

Lemma dict_set_set {V : Type} (k : str) (v1 v2 : V) (d : list (str * V)) :
  dict_set k v2 (dict_set k v1 d) = dict_set k v2 d.
Proof.
  induction d as [|[k0 v0] rest IH]; cbn [dict_set].
  - rewrite str_eqb_refl. reflexivity.
  - destruct (str_eqb k k0) eqn:E; cbn [dict_set]; rewrite ?str_eqb_refl, ?E;
      [reflexivity | rewrite IH; reflexivity].
Qed.

Lemma Forall_values_dict_set {V : Type} (P : V -> Prop) (k : str) (v : V)
  (d : list (str * V)) :
  Forall P (values d) -> P v -> Forall P (values (dict_set k v d)).
Proof.
  unfold values. intros Hd Hv.
  induction d as [|[k0 v0] rest IH]; cbn [dict_set map snd].
  - repeat constructor. exact Hv.
  - cbn [map snd] in Hd. inversion Hd as [|? ? H0 Hrest]; subst.
    destruct (str_eqb k k0); cbn [map snd]; constructor; auto.
Qed.

Lemma Forall_values_dict_get {V : Type} (P : V -> Prop) (k : str) (v : V)
  (d : list (str * V)) :
  Forall P (values d) -> dict_get k d = Some v -> P v.
Proof.
  intros Hd Hget. apply dict_get_In in Hget.
  rewrite Forall_forall in Hd. apply Hd. unfold values.
  apply in_map_iff. exists (k, v). auto.
Qed.

Section EntryFacts.
Context {num : Type} `{PyMath num}.
Variable ratio : str -> str -> num.
Variable lib : GeoLib num.

Lemma Forall_values_record_match (P : match_entry num -> Prop) (key : str)
  (fresh : match_entry num) (update : match_entry num -> match_entry num)
  (d : list (str * match_entry num)) :
  Forall P (values d) -> P (update fresh) ->
  (forall e, P e -> P (update e)) ->
  Forall P (values (record_match key fresh update d)).
Proof.
  intros Hd Hfresh Hupd. unfold record_match, dict_mem.
  destruct (dict_get key d) as [e|] eqn:Hget.
  - rewrite Hget. apply Forall_values_dict_set; [exact Hd|].
    apply Hupd. eapply Forall_values_dict_get; eauto.
  - rewrite dict_get_set, str_eqb_refl, dict_set_set.
    apply Forall_values_dict_set; assumption.
Qed.

Lemma Forall_values_fold (P : match_entry num -> Prop)
  (step : list (str * match_entry num) -> connected_carpark num ->
          list (str * match_entry num)) :
  (forall d c, Forall P (values d) -> Forall P (values (step d c))) ->
  forall cs d, Forall P (values d) -> Forall P (values (fold_left step cs d)).
Proof.
  intros Hstep. induction cs as [|c cs IH]; intros d Hd; [exact Hd|].
  cbn [fold_left]. apply IH, Hstep, Hd.
Qed.

Ltac solve_evidence :=
  unfold evidenced in *; cbn in *;
  repeat split; intros;
  rewrite ?in_app_iff in *; cbn [In] in *;
  intuition (try discriminate; try congruence).

Lemma app_single_not_nil {A : Type} (l : list A) (a : A) : l ++ [a] <> [].
Proof. destruct l; discriminate. Qed.

Lemma coordinate_step_evidenced (db_carparks : list (db_carpark num)) d c :
  Forall evidenced (values d) ->
  Forall evidenced (values (coordinate_step db_carparks d c)).
Proof.
  intros Hd. unfold coordinate_step.
  destruct (coord_match c db_carparks) as [[db_cp dist]|]; [|exact Hd].
  apply Forall_values_record_match; [exact Hd | |].
  - solve_evidence.
  - intros e He. pose proof (app_single_not_nil (methods e)) as Hne.
    solve_evidence.
Qed.

Lemma address_step_evidenced (db_carparks : list (db_carpark num)) d c :
  Forall evidenced (values d) ->
  Forall evidenced (values (address_step ratio db_carparks d c)).
Proof.
  intros Hd. unfold address_step.
  destruct (addr_match ratio c db_carparks) as [[db_cp score]|]; [|exact Hd].
  apply Forall_values_record_match; [exact Hd | |].
  - solve_evidence.
  - intros e He. pose proof (app_single_not_nil (methods e)) as Hne.
    solve_evidence.
Qed.

Lemma polygon_step_evidenced (buildings : list (building lib))
  (db_carparks : list (db_carpark num)) d c :
  Forall evidenced (values d) ->
  Forall evidenced (values (polygon_step lib buildings db_carparks d c)).
Proof.
  intros Hd. unfold polygon_step.
  destruct (polygon_match lib buildings c db_carparks) as [[db_cp bldg]|];
    [|exact Hd].
  apply Forall_values_record_match; [exact Hd | |].
  - solve_evidence.
  - intros e He. pose proof (app_single_not_nil (methods e)) as Hne.
    solve_evidence.
Qed.

Lemma all_matches_evidenced
  (connected_carparks : list (connected_carpark num))
  (db_carparks : list (db_carpark num)) (features : list (feature num)) :
  Forall evidenced
    (values (all_matches ratio lib connected_carparks db_carparks features)).
Proof.
  unfold all_matches, polygon_method.
  assert (H2 : Forall evidenced
                 (values (fold_left (address_step ratio db_carparks)
                            connected_carparks
                            (fold_left (coordinate_step db_carparks)
                               connected_carparks [])))).
  { apply Forall_values_fold; [apply address_step_evidenced|].
    apply Forall_values_fold; [apply coordinate_step_evidenced|].
    constructor. }
  destruct (load_buildings lib features) as [buildings|e]; [|exact H2].
  apply Forall_values_fold; [apply polygon_step_evidenced | exact H2].
Qed.

(** X5.  Every entry of [all_matches] names at least one method, and
    holds the evidence of a method (the coordinate distance, the address
    score and address, the building names) exactly when that method is in
    its [methods], which is what the listing of the matches relies on. *)
Theorem all_matches_entries_evidenced
  (connected_carparks : list (connected_carpark num))
  (db_carparks : list (db_carpark num)) (features : list (feature num)) :
  Forall
    (fun e =>
       methods e <> []
       /\ (coord_distance e <> None <-> In (lit "coordinate") (methods e))
       /\ (addr_score e <> None <-> In (lit "address") (methods e))
       /\ (entry_db_addr e <> None <-> In (lit "address") (methods e))
       /\ (building_name_en e <> None <-> In (lit "polygon") (methods e))
       /\ (building_name_tc e <> None <-> In (lit "polygon") (methods e)))
    (values (all_matches ratio lib connected_carparks db_carparks features)).
Proof.
  exact (all_matches_evidenced connected_carparks db_carparks features).
Qed.
End EntryFacts.

(** ** The methods of an entry *)

Section MethodsFacts.
Context {num : Type} `{PyMath num}.
Variable ratio : str -> str -> num.
Variable lib : GeoLib num.

Lemma coordinate_event_method (db_carparks : list (db_carpark num)) c ev :
  coordinate_event db_carparks c = Some ev ->
  ev_method ev = lit "coordinate".
Proof.
  unfold coordinate_event.
  destruct (coord_match c db_carparks) as [[db_cp d]|]; [|discriminate].
  intros E. injection E as <-. reflexivity.
Qed.

Lemma address_event_method (db_carparks : list (db_carpark num)) c ev :
  address_event ratio db_carparks c = Some ev ->
  ev_method ev = lit "address".
Proof.
  unfold address_event.
  destruct (addr_match ratio c db_carparks) as [[db_cp d]|]; [|discriminate].
  intros E. injection E as <-. reflexivity.
Qed.

Lemma polygon_event_method (features : list (feature num))
  (db_carparks : list (db_carpark num)) c ev :
  polygon_event lib features db_carparks c = Some ev ->
  ev_method ev = lit "polygon".
Proof.
  unfold polygon_event.
  destruct (load_buildings lib features) as [buildings|]; [|discriminate].
  destruct (polygon_match lib buildings c db_carparks) as [[db_cp b]|];
    [|discriminate].
  intros E. injection E as <-. reflexivity.
Qed.

Lemma events_for_about (connected_carparks : list (connected_carpark num))
  (db_carparks : list (db_carpark num)) (features : list (feature num))
  (c : connected_carpark num) :
  NoDup (map name connected_carparks) -> In c connected_carparks ->
  events_for (name c)
    (match_events ratio lib connected_carparks db_carparks features)
  = events_about ratio lib db_carparks features c.
Proof.
  intros Hnd Hin. unfold match_events, events_about.
  rewrite !events_for_app.
  rewrite (events_for_unique _ _ _ (coordinate_event_keyed db_carparks)
             Hnd Hin).
  rewrite (events_for_unique _ _ _ (address_event_keyed ratio db_carparks)
             Hnd Hin).
  rewrite (events_for_unique _ _ _
             (polygon_event_keyed lib features db_carparks) Hnd Hin).
  reflexivity.
Qed.

(** With distinct names, the methods of an entry are those of the events
    of its connected carpark. *)
Lemma methods_unique_name (connected_carparks : list (connected_carpark num))
  (db_carparks : list (db_carpark num)) (features : list (feature num))
  (c : connected_carpark num) :
  NoDup (map name connected_carparks) -> In c connected_carparks ->
  match dict_get (name c)
          (all_matches ratio lib connected_carparks db_carparks features)
  with
  | Some e =>
      methods e
      = map ev_method (events_about ratio lib db_carparks features c)
      /\ events_about ratio lib db_carparks features c <> []
  | None => events_about ratio lib db_carparks features c = []
  end.
Proof.
  intros Hnd Hin.
  destruct (all_matches_holds ratio lib connected_carparks db_carparks
              features) as [_ Hk].
  specialize (Hk (name c)). rewrite (events_for_about _ _ _ _ Hnd Hin) in Hk.
  destruct (dict_get (name c) _) as [e|]; [|exact Hk].
  destruct Hk as (ev & rest & HE & _ & _ & _ & Hm).
  rewrite HE. split; [exact Hm | discriminate].
Qed.

Lemma events_about_methods (db_carparks : list (db_carpark num))
  (features : list (feature num)) (c : connected_carpark num) :
  exists l1 l2 l3,
    map ev_method (events_about ratio lib db_carparks features c)
    = l1 ++ l2 ++ l3
    /\ (l1 = [] \/ l1 = [lit "coordinate"])
    /\ (l2 = [] \/ l2 = [lit "address"])
    /\ (l3 = [] \/ l3 = [lit "polygon"]).
Proof.
  unfold events_about. rewrite !map_app.
  exists (map ev_method (option_list (coordinate_event db_carparks c))),
    (map ev_method (option_list (address_event ratio db_carparks c))),
    (map ev_method
       (option_list (polygon_event lib features db_carparks c))).
  split; [reflexivity|]. split; [|split].
  - destruct (coordinate_event db_carparks c) as [ev|] eqn:E; [|left; auto].
    right. cbn. rewrite (coordinate_event_method _ _ _ E). reflexivity.
  - destruct (address_event ratio db_carparks c) as [ev|] eqn:E;
      [|left; auto].
    right. cbn. rewrite (address_event_method _ _ _ E). reflexivity.
  - destruct (polygon_event lib features db_carparks c) as [ev|] eqn:E;
      [|left; auto].
    right. cbn. rewrite (polygon_event_method _ _ _ _ E). reflexivity.
Qed.

(** X6.  When the connected carparks have distinct names, the [methods]
    of the entry of a connected carpark are the names of the methods that
    matched that carpark, in the order coordinate, address, polygon: at
    most three, none repeated; a carpark that no method matched has no
    entry. *)
Theorem methods_of_distinct_names
  (connected_carparks : list (connected_carpark num))
  (db_carparks : list (db_carpark num)) (features : list (feature num))
  (c : connected_carpark num) :
  NoDup (map name connected_carparks) -> In c connected_carparks ->
  let ran :=
    map ev_method (events_about ratio lib db_carparks features c) in
  NoDup ran /\ List.length ran <= 3
  /\ (forall s, In s ran ->
        s = lit "coordinate" \/ s = lit "address" \/ s = lit "polygon")
  /\ match dict_get (name c)
             (all_matches ratio lib connected_carparks db_carparks features)
     with
     | Some e => methods e = ran /\ ran <> []
     | None => ran = []
     end.
Proof.
  intros Hnd Hin ran.
  destruct (events_about_methods db_carparks features c)
    as (l1 & l2 & l3 & Hran & H1 & H2 & H3).
  fold ran in Hran.
  split; [|split; [|split]].
  - rewrite Hran.
    destruct H1 as [-> | ->], H2 as [-> | ->], H3 as [-> | ->]; cbn [app];
      repeat constructor; cbn [In]; intuition discriminate.
  - rewrite Hran.
    destruct H1 as [-> | ->], H2 as [-> | ->], H3 as [-> | ->]; cbn; lia.
  - intros s. rewrite Hran.
    destruct H1 as [-> | ->], H2 as [-> | ->], H3 as [-> | ->]; cbn [app In];
      intuition.
  - pose proof (methods_unique_name connected_carparks db_carparks features c
                  Hnd Hin) as Hm.
    destruct (dict_get (name c) _) as [e|].
    + destruct Hm as [Hm Hne]. split; [exact Hm|]. unfold ran.
      destruct (events_about ratio lib db_carparks features c);
        [contradiction | discriminate].
    + unfold ran. rewrite Hm. reflexivity.
Qed.
End MethodsFacts.

Lemma methods_of_distinct_names_witness :
  match dict_get (name (num := R) station7)
          (all_matches (num := R) difflib_ratio plane [station7]
             [harbour_centre; great_eagle] [podium])
  with
  | Some e =>
      methods e
      = map ev_method
          (events_about (num := R) difflib_ratio plane
             [harbour_centre; great_eagle] [podium] station7)
  | None =>
      map ev_method
        (events_about (num := R) difflib_ratio plane
           [harbour_centre; great_eagle] [podium] station7) = []
  end.
Proof.
  pose proof (methods_of_distinct_names (num := R) difflib_ratio plane
                [station7] [harbour_centre; great_eagle] [podium] station7)
    as Hm.
  destruct Hm as (_ & _ & _ & Hm).
  - repeat constructor. intros [].
  - left. reflexivity.
  - destruct (dict_get _ _) as [e|]; [exact (proj1 Hm) | exact Hm].
Defined.
(** ** The breakdown by number of methods *)

(** *** Dictionaries with other keys *)

Section KeyedDictFacts.
Context {K V : Type} (eqb : K -> K -> bool).
Hypothesis eqb_eq : forall a b, eqb a b = true <-> a = b.

Lemma eqb_same (k : K) : eqb k k = true.
Proof. apply eqb_eq. reflexivity. Qed.

Lemma eqb_other (n k : K) : n <> k -> eqb n k = false.
Proof.
  intros Hne. destruct (eqb n k) eqn:E; [|reflexivity].
  apply eqb_eq in E. contradiction.
Qed.

Lemma kget_kset_same (k : K) (v : V) d :
  kget eqb k (kset eqb k v d) = Some v.
Proof.
  induction d as [|[k' v'] d IH]; cbn.
  - rewrite eqb_same. reflexivity.
  - destruct (eqb k k') eqn:E; cbn.
    + rewrite eqb_same. reflexivity.
    + rewrite E. exact IH.
Qed.

Lemma kget_kset_other (k n : K) (v : V) d :
  n <> k -> kget eqb n (kset eqb k v d) = kget eqb n d.
Proof.
  intros Hne. induction d as [|[k' v'] d IH]; cbn.
  - rewrite (eqb_other _ _ Hne). reflexivity.
  - destruct (eqb k k') eqn:E; cbn.
    + apply eqb_eq in E. subst k'. rewrite (eqb_other _ _ Hne). reflexivity.
    + destruct (eqb n k'); [reflexivity | exact IH].
Qed.

Lemma kget_In (k : K) (d : list (K * V)) :
  kget eqb k d = None <-> ~ In k (map fst d).
Proof.
  induction d as [|[k' v'] d IH]; cbn.
  - tauto.
  - destruct (eqb k k') eqn:E.
    + apply eqb_eq in E. subst. split; [discriminate | tauto].
    + rewrite IH. split.
      * intros Hn [Heq | Hin]; [|tauto].
        subst k'. rewrite eqb_same in E. discriminate.
      * tauto.
Qed.

Lemma kget_Some_In (k : K) (v : V) d :
  kget eqb k d = Some v -> In (k, v) d.
Proof.
  induction d as [|[k' v'] d IH]; cbn; [discriminate|].
  destruct (eqb k k') eqn:E.
  - apply eqb_eq in E. subst. intros [= ->]. left. reflexivity.
  - intros Hg. right. exact (IH Hg).
Qed.

Lemma keys_kset (k : K) (v : V) d :
  map fst (kset eqb k v d)
  = match kget eqb k d with
    | Some _ => map fst d
    | None => map fst d ++ [k]
    end.
Proof.
  induction d as [|[k' v'] d IH]; cbn.
  - reflexivity.
  - destruct (eqb k k') eqn:E; cbn.
    + apply eqb_eq in E. subst. reflexivity.
    + rewrite IH. destruct (kget eqb k d); reflexivity.
Qed.

Lemma NoDup_keys_kset (k : K) (v : V) d :
  NoDup (map fst d) -> NoDup (map fst (kset eqb k v d)).
Proof.
  intros Hnd. rewrite keys_kset.
  destruct (kget eqb k d) eqn:E; [exact Hnd|].
  apply kget_In in E.
  apply NoDup_app; [exact Hnd | repeat constructor; intros [] | ].
  intros x Hx [<- | []]. contradiction.
Qed.

Lemma Forall_kset (P : K * V -> Prop) (k : K) (v : V) d :
  P (k, v) -> Forall P d -> Forall P (kset eqb k v d).
Proof.
  intros Hk Hd. induction d as [|[k' v'] d IH]; cbn.
  - repeat constructor. exact Hk.
  - inversion Hd; subst. destruct (eqb k k'); constructor; auto.
Qed.
End KeyedDictFacts.

Section HistogramFacts.

Lemma sum_kset (k v : nat) d :
  list_sum (map snd (kset Nat.eqb k v d)) + kget_default Nat.eqb k 0 d
  = list_sum (map snd d) + v.
Proof.
  unfold kget_default, list_sum.
  induction d as [|[k' v'] d IH]; cbn.
  - lia.
  - destruct (Nat.eqb k k') eqn:E; cbn; lia.
Qed.

(** The loop [counts[f(e)] = counts.get(f(e), 0) + 1] over a list. *)
Lemma count_fold {A : Type} (f : A -> nat) (l : list A)
  (c0 : list (nat * nat)) :
  NoDup (map fst c0) -> Forall (fun kv => 1 <= snd kv) c0 ->
  let counts :=
    fold_left
      (fun counts e =>
         kset Nat.eqb (f e) (kget_default Nat.eqb (f e) 0 counts + 1) counts)
      l c0 in
  (forall n, kget_default Nat.eqb n 0 counts
             = kget_default Nat.eqb n 0 c0
               + List.length (filter (fun e => f e =? n) l))
  /\ NoDup (map fst counts)
  /\ Forall (fun kv => 1 <= snd kv) counts
  /\ list_sum (map snd counts) = list_sum (map snd c0) + List.length l.
Proof.
  revert c0. induction l as [|a l IH]; intros c0 Hnd Hpos;
    cbn [fold_left List.length filter].
  - repeat split; auto.
  - set (k := f a).
    set (c1 := kset Nat.eqb k (kget_default Nat.eqb k 0 c0 + 1) c0).
    assert (Hnd' : NoDup (map fst c1))
      by (apply (NoDup_keys_kset _ Nat.eqb_eq); exact Hnd).
    assert (Hpos' : Forall (fun kv => 1 <= snd kv) c1)
      by (apply Forall_kset; [cbn; lia | exact Hpos]).
    destruct (IH _ Hnd' Hpos') as (Hget & Hnd2 & Hpos2 & Hsum).
    split; [|split; [exact Hnd2 | split; [exact Hpos2|]]].
    + intros n. rewrite Hget. unfold c1, kget_default.
      destruct (Nat.eq_dec k n) as [<-|Hne].
      * rewrite (kget_kset_same _ Nat.eqb_eq), Nat.eqb_refl.
        cbn [List.length]. lia.
      * rewrite (kget_kset_other _ Nat.eqb_eq) by congruence.
        apply Nat.eqb_neq in Hne. rewrite Hne. lia.
    + cbv zeta. rewrite Hsum.
      pose proof (sum_kset k (kget_default Nat.eqb k 0 c0 + 1) c0).
      fold c1 in H. lia.
Qed.
End HistogramFacts.

Section BreakdownFacts.
Context {num : Type} `{PyMath num}.
Variable ratio : str -> str -> num.
Variable lib : GeoLib num.

(** X7.  The breakdown by number of methods is a histogram of the entries
    of [all_matches]: the count listed for a number of methods is the
    number of entries with that many (0 when it is not listed), no number
    is listed twice, only numbers from 1 up that occur are listed, and the
    counts add up to the number of entries. *)
Theorem method_counts_breakdown
  (connected_carparks : list (connected_carpark num))
  (db_carparks : list (db_carpark num)) (features : list (feature num)) :
  let matched :=
    all_matches ratio lib connected_carparks db_carparks features in
  let counts := method_counts matched in
  (forall n, kget_default Nat.eqb n 0 counts
             = List.length
                 (filter (fun e => List.length (methods e) =? n)
                         (values matched)))
  /\ NoDup (map fst counts)
  /\ Forall (fun kv => 1 <= fst kv /\ 1 <= snd kv) counts
  /\ list_sum (map snd counts) = List.length matched.
Proof.
  intros matched counts.
  destruct (count_fold (fun e : match_entry num => List.length (methods e))
              (values matched) [] (NoDup_nil _) (Forall_nil _))
    as (Hget & Hnd & Hpos & Hsum).
  fold (method_counts matched) in Hget, Hnd, Hpos, Hsum.
  fold counts in Hget, Hnd, Hpos, Hsum.
  split; [exact Hget | split; [exact Hnd | split]].
  - rewrite Forall_forall in *. intros [k v] Hin. cbn [fst snd].
    split; [|exact (Hpos _ Hin)].
    destruct (kget Nat.eqb k counts) as [v'|] eqn:Hk.
    + pose proof (Hpos _ (kget_Some_In _ Nat.eqb_eq _ _ _ Hk)) as Hv'.
      cbn in Hv'.
      specialize (Hget k). unfold kget_default in Hget. rewrite Hk in Hget.
      destruct (filter _ (values matched)) as [|e rest] eqn:Hf;
        [cbn in Hget; lia|].
      assert (He : In e (filter (fun e => List.length (methods e) =? k)
                           (values matched)))
        by (rewrite Hf; left; reflexivity).
      apply filter_In in He. destruct He as [He Hlen].
      apply Nat.eqb_eq in Hlen.
      pose proof (all_matches_evidenced ratio lib connected_carparks
                    db_carparks features) as Hev.
      rewrite Forall_forall in Hev. destruct (Hev e He) as [Hne _].
      destruct (methods e); [contradiction | cbn in Hlen; lia].
    + apply (kget_In _ Nat.eqb_eq) in Hk. exfalso. apply Hk.
      apply (in_map fst) in Hin. exact Hin.
  - rewrite Hsum. unfold values. rewrite length_map. reflexivity.
Qed.
End BreakdownFacts.

(** ** The individual method results of the aggregate summary *)

Lemma NoDup_map_filter {A B : Type} (g : A -> B) (f : A -> bool)
  (l : list A) :
  NoDup (map g l) -> NoDup (map g (filter f l)).
Proof.
  induction l as [|a l IH]; cbn; [auto|].
  intros Hnd. inversion Hnd as [|? ? Hnotin Hnd']; subst.
  destruct (f a); cbn; [|exact (IH Hnd')].
  constructor; [|exact (IH Hnd')].
  intros Hin. apply Hnotin. apply in_map_iff in Hin.
  destruct Hin as (x & Hx & Hin). apply filter_In in Hin.
  apply in_map_iff. exists x. tauto.
Qed.

Lemma In_dict_get {V : Type} (k : str) (v : V) (d : list (str * V)) :
  NoDup (keys d) -> In (k, v) d -> dict_get k d = Some v.
Proof.
  induction d as [|[k' v'] d IH]; cbn; [tauto|].
  intros Hnd [Heq | Hin].
  - injection Heq as -> ->. rewrite str_eqb_refl. reflexivity.
  - inversion Hnd as [|? ? Hnotin Hnd']; subst.
    destruct (str_eqb k k') eqn:E.
    + apply str_eqb_eq in E. subst k'. exfalso. apply Hnotin.
      apply (in_map fst) in Hin. exact Hin.
    + exact (IH Hnd' Hin).
Qed.

Lemma existsb_str_eqb (s : str) (l : list str) :
  existsb (str_eqb s) l = true <-> In s l.
Proof.
  rewrite existsb_exists. split.
  - intros (x & Hin & Heq). apply str_eqb_eq in Heq. subst. exact Hin.
  - intros Hin. exists s. split; [exact Hin | apply str_eqb_refl].
Qed.

Section CountFacts.
Context {num : Type} `{PyMath num}.
Variable ratio : str -> str -> num.
Variable lib : GeoLib num.

Lemma length_events_of (event_of : connected_carpark num -> option event)
  (connected_carparks : list (connected_carpark num)) :
  List.length (events_of event_of connected_carparks)
  = List.length
      (filter (fun c => match event_of c with
                        | Some _ => true
                        | None => false
                        end)
              connected_carparks).
Proof.
  unfold events_of. induction connected_carparks as [|c l IH]; cbn; [auto|].
  destruct (event_of c); cbn; rewrite IH; reflexivity.
Qed.

(** With distinct names, as many entries list a method as there are
    connected carparks that the method matched. *)
Lemma count_method_events
  (event_of : connected_carpark num -> option event) (s : str)
  (connected_carparks : list (connected_carpark num))
  (db_carparks : list (db_carpark num)) (features : list (feature num)) :
  NoDup (map name connected_carparks) ->
  (forall c, In s (map ev_method
                     (events_about ratio lib db_carparks features c))
             <-> event_of c <> None) ->
  count_method s
    (all_matches ratio lib connected_carparks db_carparks features)
  = List.length (events_of event_of connected_carparks).
Proof.
  intros Hnd Hs. rewrite length_events_of. unfold count_method, values.
  set (m := all_matches ratio lib connected_carparks db_carparks features).
  set (has := fun e : match_entry num => existsb (str_eqb s) (methods e)).
  set (P := fun c => match event_of c with Some _ => true | None => false end).
  assert (Hfilter : filter has (map snd m)
                    = map snd (filter (fun kv => has (snd kv)) m)).
  { clear. induction m as [|[k e] m IH]; cbn; [auto|].
    destruct (has e); cbn; rewrite IH; reflexivity. }
  rewrite Hfilter, length_map.
  rewrite <- (length_map fst (filter _ m)).
  rewrite <- (length_map (name (num := num)) (filter P connected_carparks)).
  destruct (all_matches_holds ratio lib connected_carparks db_carparks
              features) as [Hkeys Hk].
  fold m in Hkeys, Hk.
  assert (Hsame : forall k,
             In k (map fst (filter (fun kv => has (snd kv)) m))
             <-> In k (map (name (num := num)) (filter P connected_carparks))).
  2: { apply Nat.le_antisymm; apply NoDup_incl_length;
       try (apply NoDup_map_filter; assumption);
       intros k Hin; apply Hsame; exact Hin. }
  - intros k. rewrite !in_map_iff. split.
    + intros ([k' e] & Hfst & Hin). cbn in Hfst. subst k'.
      apply filter_In in Hin. destruct Hin as [Hin Hhas]. cbn in Hhas.
      pose proof (In_dict_get _ _ _ Hkeys Hin) as Hget.
      specialize (Hk k). rewrite Hget in Hk.
      destruct Hk as (ev & rest & HE & _).
      assert (Hev : In ev (events_for k
                             (match_events ratio lib connected_carparks
                                db_carparks features)))
        by (rewrite HE; left; reflexivity).
      apply events_for_In in Hev. destruct Hev as [Hev Hkey].
      destruct (match_events_source ratio lib _ _ _ _ Hev)
        as (c & Hc & Hname & _).
      exists c. split; [congruence|].
      apply filter_In. split; [exact Hc|].
      pose proof (methods_unique_name ratio lib connected_carparks
                    db_carparks features c Hnd Hc) as Hm.
      fold m in Hm. replace (name c) with k in Hm by congruence.
      rewrite Hget in Hm. destruct Hm as [Hm _].
      unfold has in Hhas. apply existsb_str_eqb in Hhas.
      rewrite Hm in Hhas. apply Hs in Hhas. unfold P.
      destruct (event_of c); [reflexivity | contradiction].
    + intros (c & Hname & Hin). apply filter_In in Hin.
      destruct Hin as [Hc HP].
      assert (Hin : In s (map ev_method
                            (events_about ratio lib db_carparks features c))).
      { apply Hs. unfold P in HP. destruct (event_of c); [|discriminate].
        discriminate. }
      pose proof (methods_unique_name ratio lib connected_carparks
                    db_carparks features c Hnd Hc) as Hm.
      fold m in Hm.
      destruct (dict_get (name c) m) as [e|] eqn:Hget.
      * exists (name c, e). split; [exact Hname|].
        apply filter_In. split; [exact (dict_get_In _ _ _ Hget)|].
        cbn. unfold has. apply existsb_str_eqb.
        rewrite (proj1 Hm). exact Hin.
      * rewrite Hm in Hin. destruct Hin.
Qed.

Lemma events_about_In (db_carparks : list (db_carpark num))
  (features : list (feature num)) (c : connected_carpark num) :
  (In (lit "coordinate")
      (map ev_method (events_about ratio lib db_carparks features c))
   <-> coordinate_event db_carparks c <> None)
  /\ (In (lit "address")
         (map ev_method (events_about ratio lib db_carparks features c))
      <-> address_event ratio db_carparks c <> None)
  /\ (In (lit "polygon")
         (map ev_method (events_about ratio lib db_carparks features c))
      <-> polygon_event lib features db_carparks c <> None).
Proof.
  unfold events_about. rewrite !map_app.
  destruct (coordinate_event db_carparks c) as [e1|] eqn:E1;
    [rewrite (coordinate_event_method _ _ _ E1) + idtac|];
  destruct (address_event ratio db_carparks c) as [e2|] eqn:E2;
  destruct (polygon_event lib features db_carparks c) as [e3|] eqn:E3;
  cbn [option_list map app];
  try rewrite (coordinate_event_method _ _ _ E1);
  try rewrite (address_event_method ratio _ _ _ E2);
  try rewrite (polygon_event_method lib _ _ _ _ E3);
  cbn [In]; repeat split; intros; try discriminate; try tauto;
  intuition (try discriminate; try congruence).
Qed.

(** X8.  With distinct names of the connected carparks, the individual
    method results of the aggregate summary are the numbers of matches
    that the three methods of analyze-matching-methods.py find: as many
    entries list a method as that method has matches, none when the
    footprints fail to load. *)
Theorem count_method_individual
  (connected_carparks : list (connected_carpark num))
  (db_carparks : list (db_carpark num)) (features : list (feature num)) :
  NoDup (map name connected_carparks) ->
  let matched :=
    all_matches ratio lib connected_carparks db_carparks features in
  count_method (lit "coordinate") matched
  = List.length (coord_matches connected_carparks db_carparks)
  /\ count_method (lit "address") matched
     = List.length (addr_matches ratio connected_carparks db_carparks)
  /\ count_method (lit "polygon") matched
     = match method3 lib features connected_carparks db_carparks with
       | Ok polygon_matches => List.length polygon_matches
       | Raise _ => 0
       end.
Proof.
  intros Hnd matched. unfold matched. split; [|split].
  - rewrite (count_method_events (coordinate_event db_carparks) _ _ _ _ Hnd)
      by (intros c; apply events_about_In).
    clear Hnd. unfold events_of, coord_matches, coordinate_event.
    induction connected_carparks as [|c l IH]; [reflexivity|].
    cbn [flat_map]. rewrite !length_app, IH.
    destruct (coord_match c db_carparks) as [[db_cp d]|]; reflexivity.
  - rewrite (count_method_events (address_event ratio db_carparks)
               _ _ _ _ Hnd)
      by (intros c; apply events_about_In).
    clear Hnd. unfold events_of, addr_matches, address_event.
    induction connected_carparks as [|c l IH]; [reflexivity|].
    cbn [flat_map]. rewrite !length_app, IH.
    destruct (addr_match ratio c db_carparks) as [[db_cp d]|]; reflexivity.
  - rewrite (count_method_events (polygon_event lib features db_carparks)
               _ _ _ _ Hnd)
      by (intros c; apply events_about_In).
    clear Hnd. unfold events_of, method3, polygon_event.
    destruct (load_buildings lib features) as [buildings|e]; cbn [bind].
    + unfold polygon_matches.
      induction connected_carparks as [|c l IH]; [reflexivity|].
      cbn [flat_map]. rewrite !length_app, IH.
      destruct (polygon_match lib buildings c db_carparks) as [[db_cp b]|];
        reflexivity.
    + induction connected_carparks as [|c l IH]; [reflexivity|].
      cbn [flat_map app]. exact IH.
Qed.
End CountFacts.

Lemma count_method_individual_witness :
  NoDup (map (name (num := R)) [station7])
  /\ count_method (lit "coordinate")
       (all_matches (num := R) difflib_ratio plane [station7]
          [harbour_centre; great_eagle] [podium])
     = List.length
         (coord_matches (num := R) [station7] [harbour_centre; great_eagle]).
Proof.
  assert (Hnd : NoDup (map (name (num := R)) [station7]))
    by (repeat constructor; intros []).
  split; [exact Hnd|].
  exact (proj1 (count_method_individual (num := R) difflib_ratio plane
                  [station7] [harbour_centre; great_eagle] [podium] Hnd)).
Defined.

(** ** An empty registry *)

Lemma flat_map_nil {A B : Type} (f : A -> list B) (l : list A) :
  (forall a, f a = []) -> flat_map f l = [].
Proof.
  intros Hf. induction l as [|a l IH]; cbn; [reflexivity|].
  rewrite Hf, IH. reflexivity.
Qed.

Lemma fold_left_fixed {A B : Type} (f : A -> B -> A) (l : list B) (a : A) :
  (forall a b, f a b = a) -> fold_left f l a = a.
Proof.
  intros Hf. revert a. induction l as [|b l IH]; intros a; cbn;
    [reflexivity|].
  rewrite Hf. apply IH.
Qed.

Section EmptyRegistry.
Context {num : Type} `{PyMath num}.
Variable ratio : str -> str -> num.
Variable lib : GeoLib num.

Lemma addr_match_empty (c : connected_carpark num) :
  addr_match ratio c [] = None.
Proof.
  unfold addr_match, best_of. cbn.
  destruct (fge _ _); reflexivity.
Qed.

(** X9.  When the query returns no row, every script finds no match at
    all: the three methods match nothing, [all_matches] stays empty, the
    name-led script leaves every connected carpark unmatched with no best
    match and score 0, and the coordinate script lists every connected
    carpark as unmatched, with the name 'None' and the infinite
    distance. *)
Theorem empty_registry_no_match
  (connected_carparks : list (connected_carpark num))
  (features : list (feature num)) (buildings : list (building lib)) :
  coord_matches connected_carparks [] = []
  /\ addr_matches ratio connected_carparks [] = []
  /\ polygon_matches lib buildings connected_carparks [] = []
  /\ all_matches ratio lib connected_carparks [] features = []
  /\ map (fun c => overlap_match ratio c []) connected_carparks
     = map (fun _ => Unmatched None (of_int 0)) connected_carparks
  /\ coords_lists connected_carparks []
     = ([], map (fun c => (c, lit "None", None)) connected_carparks).
Proof.
  split; [|split; [|split; [|split; [|split]]]].
  - apply flat_map_nil. reflexivity.
  - apply flat_map_nil. intros c. rewrite addr_match_empty. reflexivity.
  - apply flat_map_nil. intros c. unfold polygon_match.
    destruct (conn_building lib buildings c); reflexivity.
  - unfold all_matches, polygon_method.
    rewrite (fold_left_fixed (coordinate_step [])) by reflexivity.
    rewrite (fold_left_fixed (address_step ratio []))
      by (intros a b; unfold address_step; rewrite addr_match_empty;
          reflexivity).
    destruct (load_buildings lib features) as [bs|e]; [|reflexivity].
    apply fold_left_fixed. intros a b. unfold polygon_step, polygon_match.
    destruct (conn_building lib bs b); reflexivity.
  - apply map_ext. intros c. unfold overlap_match, fuzzy_match. cbn.
    destruct (fgt _ _); reflexivity.
  - unfold coords_lists.
    assert (Hfold : forall l acc,
               fold_left (coords_step []) l acc
               = (fst acc,
                  snd acc ++ map (fun c : connected_carpark num =>
                                    (c, lit "None", None)) l)).
    { induction l as [|c l IH]; intros [ms us]; cbn [fold_left map fst snd].
      - rewrite app_nil_r. reflexivity.
      - rewrite IH. cbn. rewrite <- app_assoc. reflexivity. }
    rewrite Hfold. reflexivity.
Qed.
End EmptyRegistry.

(** ** Grouping *)

Section GroupingFacts.
Context {K A B : Type} (eqb : K -> K -> bool).
Hypothesis eqb_eq : forall a b, eqb a b = true <-> a = b.
Variable key : A -> K.
Variable val : A -> B.

Lemma In_kget {V : Type} (k : K) (v : V) (d : list (K * V)) :
  NoDup (map fst d) -> In (k, v) d -> kget eqb k d = Some v.
Proof.
  induction d as [|[k' v'] d IH]; cbn; [tauto|].
  intros Hnd [Heq | Hin].
  - injection Heq as -> ->. rewrite (eqb_same _ eqb_eq). reflexivity.
  - inversion Hnd as [|? ? Hnotin Hnd']; subst.
    destruct (eqb k k') eqn:E.
    + apply eqb_eq in E. subst k'. exfalso. apply Hnotin.
      apply (in_map fst) in Hin. exact Hin.
    + exact (IH Hnd' Hin).
Qed.

Lemma sizes_kset (k : K) (v : list B) (d : list (K * list B)) :
  list_sum (map (fun kv => List.length (snd kv)) (kset eqb k v d))
  + List.length (kget_default eqb k [] d)
  = list_sum (map (fun kv => List.length (snd kv)) d) + List.length v.
Proof.
  unfold kget_default, list_sum.
  induction d as [|[k' v'] d IH]; cbn.
  - lia.
  - destruct (eqb k k') eqn:E; cbn; lia.
Qed.

Lemma group_fold (l : list A) (g0 : list (K * list B)) :
  NoDup (map fst g0) ->
  let groups :=
    fold_left (fun groups x => dict_append eqb (key x) (val x) groups)
              l g0 in
  (forall k, kget_default eqb k [] groups
             = kget_default eqb k [] g0
               ++ map val (filter (fun x => eqb (key x) k) l))
  /\ NoDup (map fst groups)
  /\ (forall k, In k (map fst groups)
                <-> In k (map fst g0) \/ In k (map key l))
  /\ list_sum (map (fun kv => List.length (snd kv)) groups)
     = list_sum (map (fun kv => List.length (snd kv)) g0) + List.length l.
Proof.
  revert g0. induction l as [|x l IH]; intros g0 Hnd;
    cbn [fold_left List.length filter map].
  - split; [intros k; rewrite app_nil_r; reflexivity|].
    split; [exact Hnd|]. split; [|cbv zeta; lia].
    intros k. cbn [In]. tauto.
  - set (g1 := dict_append eqb (key x) (val x) g0).
    assert (Hnd1 : NoDup (map fst g1))
      by (apply (NoDup_keys_kset _ eqb_eq); exact Hnd).
    destruct (IH g1 Hnd1) as (Hget & Hnd2 & Hkeys & Hsum).
    split; [|split; [exact Hnd2 | split]].
    + intros k. rewrite Hget. unfold g1, dict_append, kget_default.
      destruct (eqb (key x) k) eqn:E.
      * apply eqb_eq in E. subst k.
        rewrite (kget_kset_same _ eqb_eq). cbn [map].
        rewrite <- app_assoc. reflexivity.
      * rewrite (kget_kset_other _ eqb_eq); [reflexivity|].
        intros ->. rewrite (eqb_same _ eqb_eq) in E. discriminate.
    + intros k. rewrite Hkeys. unfold g1, dict_append.
      rewrite keys_kset by exact eqb_eq. cbn [In].
      destruct (kget eqb (key x) g0) eqn:E.
      * apply (kget_Some_In _ eqb_eq) in E. apply (in_map fst) in E.
        cbn in E. split; [tauto|].
        intros [Hin | [<- | Hin]]; tauto.
      * rewrite in_app_iff. cbn [In]. tauto.
    + cbv zeta. rewrite Hsum.
      pose proof (sizes_kset (key x)
                    (kget_default eqb (key x) [] g0 ++ [val x]) g0) as Hs.
      rewrite length_app in Hs. cbn [List.length] in Hs.
      unfold g1, dict_append. lia.
Qed.

(** The groups of [group_by]: one for each key that occurs, holding the
    elements with that key in the order of the list. *)
Lemma group_by_groups (l : list A) :
  let groups := group_by eqb key val l in
  NoDup (map fst groups)
  /\ (forall k, In k (map fst groups) <-> In k (map key l))
  /\ (forall k, kget_default eqb k [] groups
                = map val (filter (fun x => eqb (key x) k) l))
  /\ Forall (fun kv => snd kv <> []
                       /\ snd kv
                          = map val (filter (fun x => eqb (key x) (fst kv))
                                            l))
            groups
  /\ list_sum (map (fun kv => List.length (snd kv)) groups) = List.length l.
Proof.
  intros groups.
  destruct (group_fold l [] (NoDup_nil _)) as (Hget & Hnd & Hkeys & Hsum).
  fold (group_by eqb key val l) in Hget, Hnd, Hkeys, Hsum.
  fold groups in Hget, Hnd, Hkeys, Hsum.
  assert (Hget' : forall k, kget_default eqb k [] groups
                            = map val (filter (fun x => eqb (key x) k) l))
    by (intros k; rewrite Hget; reflexivity).
  clear Hget. rename Hget' into Hget.
  split; [exact Hnd|]. split; [intros k; rewrite Hkeys; cbn; tauto|].
  split; [exact Hget|]. split; [|exact Hsum].
  apply Forall_forall. intros [k v] Hin. cbn [fst snd].
  assert (Hv : v = map val (filter (fun x => eqb (key x) k) l)).
  { rewrite <- Hget. unfold kget_default.
    rewrite (In_kget _ _ _ Hnd Hin). reflexivity. }
  split; [|exact Hv].
  assert (Hk : In k (map key l)).
  { apply (in_map fst) in Hin. apply Hkeys in Hin. cbn in Hin. tauto. }
  apply in_map_iff in Hk. destruct Hk as (x & Hx & Hxl).
  assert (Hxv : In (val x) v).
  { rewrite Hv. apply in_map. apply filter_In. split; [exact Hxl|].
    apply eqb_eq. exact Hx. }
  intros ->. destruct Hxv.
Qed.
End GroupingFacts.

(** ** The script analyze-connected-geojson-overlap.py *)

Lemma building_name_eqb_eq (a b : option str) :
  building_name_eqb a b = true <-> a = b.
Proof.
  destruct a as [x|], b as [y|]; cbn; try (split; congruence).
  rewrite str_eqb_eq. split; congruence.
Qed.

Lemma kset_kset {K V : Type} (eqb : K -> K -> bool) (k : K) (v v' : V) d :
  eqb k k = true -> kset eqb k v (kset eqb k v' d) = kset eqb k v d.
Proof.
  intros Hk. induction d as [|[k0 v0] d IH]; cbn.
  - rewrite Hk. reflexivity.
  - destruct (eqb k k0) eqn:E; cbn.
    + rewrite Hk. reflexivity.
    + rewrite E, IH. reflexivity.
Qed.

Section GeojsonFacts.
Context {num : Type} `{PyFloat num}.
Variable lib : GeoLib num.

Lemma group_step_append
  (groups : list (option str * list (db_carpark num * connected_building lib)))
  (m : db_carpark num * connected_building lib) :
  group_step lib groups m
  = dict_append building_name_eqb (place (snd m)) m groups.
Proof.
  unfold group_step, dict_append, kget_default.
  destruct (kget building_name_eqb (place (snd m)) groups) eqn:E.
  - rewrite E. reflexivity.
  - rewrite (kget_kset_same _ building_name_eqb_eq).
    apply kset_kset. apply building_name_eqb_eq. reflexivity.
Qed.

Lemma group_by_building_group_by
  (matches : list (db_carpark num * connected_building lib)) :
  group_by_building lib matches
  = group_by building_name_eqb (fun m => place (snd m)) (fun m => m)
             matches.
Proof.
  unfold group_by_building, group_by. generalize
    (@nil (option str * list (db_carpark num * connected_building lib))).
  induction matches as [|m l IH]; intros g; cbn [fold_left]; [reflexivity|].
  rewrite group_step_append. apply IH.
Qed.

Lemma geojson_matches_In (connected_buildings : list (connected_building lib))
  (db_carparks : list (db_carpark num)) m :
  In m (geojson_matches lib connected_buildings db_carparks) ->
  In (fst m) db_carparks
  /\ find (fun building => contains lib (building_polygon building)
                             (db_lon (fst m), db_lat (fst m)))
          connected_buildings = Some (snd m).
Proof.
  unfold geojson_matches. rewrite in_flat_map.
  intros (db_cp & Hin & Hm).
  destruct (find _ connected_buildings) as [b|] eqn:E; [|destruct Hm].
  destruct Hm as [<- | []]. cbn. auto.
Qed.

Lemma geojson_matches_rows
  (connected_buildings : list (connected_building lib))
  (db_carparks : list (db_carpark num)) :
  map fst (geojson_matches lib connected_buildings db_carparks)
  = filter (fun db_cp =>
              existsb (fun building =>
                         contains lib (building_polygon building)
                                  (db_lon db_cp, db_lat db_cp))
                      connected_buildings)
           db_carparks.
Proof.
  unfold geojson_matches.
  induction db_carparks as [|db_cp l IH]; [reflexivity|].
  cbn [flat_map filter]. rewrite map_app, IH.
  destruct (find _ connected_buildings) as [b|] eqn:E.
  - match goal with |- context [existsb ?f ?l] =>
      assert (Hex : existsb f l = true)
    end.
    { apply existsb_exists. apply find_some in E. exists b. exact E. }
    rewrite Hex. reflexivity.
  - match goal with |- context [existsb ?f ?l] =>
      assert (Hex : existsb f l = false)
    end.
    { destruct (existsb _ _) eqn:Hex; [|reflexivity].
      apply existsb_exists in Hex. destruct Hex as (b & Hin & Hb).
      rewrite (find_none _ _ E b Hin) in Hb. discriminate. }
    rewrite Hex. reflexivity.
Qed.

(** X10.  How analyze-connected-geojson-overlap.py ends.  With no row it
    stops with [ZeroDivisionError] at the first percentage.  With rows of
    which none is inside a connected building it stops with [NameError]
    at the last line of the summary, which reads
    [buildings_with_matches].  Otherwise it completes, unless sorting the
    groups compares a missing building name with a string; in
    particular the last division never fails. *)
Theorem geojson_script_outcome
  (connected_buildings : list (connected_building lib))
  (db_carparks : list (db_carpark num)) :
  let matches := geojson_matches lib connected_buildings db_carparks in
  let groups := group_by_building lib matches in
  geojson_script lib connected_buildings db_carparks
  = match db_carparks, matches with
    | [], _ => Stops (Exception ZeroDivisionError)
    | _ :: _, [] => Stops NameError
    | _ :: _, _ :: _ =>
        if sorted_items_raise groups then Stops TypeError
        else
          Completes
            {| gs_matches := matches;
               gs_buildings_with_matches := groups;
               gs_percentages :=
                 (fmul (fdiv (of_len (List.length matches))
                             (of_len (List.length db_carparks)))
                       (of_int 100),
                  fmul (fdiv (of_len (List.length groups))
                             (of_len (List.length connected_buildings)))
                       (of_int 100)) |}
    end.
Proof.
  intros matches groups. unfold geojson_script. fold matches. fold groups.
  assert (Hb : matches <> []
               -> (List.length connected_buildings =? 0) = false).
  { destruct matches as [|m ms] eqn:Hm; [congruence|]. intros _.
    assert (Hin : In m matches) by (rewrite Hm; left; reflexivity).
    apply geojson_matches_In in Hin. destruct Hin as [_ Hfind].
    destruct connected_buildings; [discriminate Hfind | reflexivity]. }
  clearbody groups. clearbody matches.
  destruct db_carparks as [|db_cp rest]; [reflexivity|].
  unfold overlap_percentage, truediv. cbn [List.length Nat.eqb bind run].
  destruct matches as [|m ms]; [reflexivity|].
  cbn [List.length Nat.ltb Nat.leb].
  destruct (sorted_items_raise groups); [reflexivity|].
  rewrite Hb by discriminate. reflexivity.
Qed.

(** X11.  The matches and groups of analyze-connected-geojson-overlap.py:
    the matched rows are the rows that some connected building contains,
    each once and in the order of the query, with the first building that
    contains them; the groups have distinct building names, are not
    empty, hold the matches of their building name in order, are at most
    as many as the connected buildings, and their sizes add up to the
    number of matches. *)
Theorem geojson_matches_grouped
  (connected_buildings : list (connected_building lib))
  (db_carparks : list (db_carpark num)) :
  let inside db_cp building :=
    contains lib (building_polygon building) (db_lon db_cp, db_lat db_cp) in
  let matches := geojson_matches lib connected_buildings db_carparks in
  let groups := group_by_building lib matches in
  map fst matches
  = filter (fun db_cp => existsb (inside db_cp) connected_buildings)
           db_carparks
  /\ Forall (fun m => find (inside (fst m)) connected_buildings
                      = Some (snd m)) matches
  /\ List.length matches <= List.length db_carparks
  /\ NoDup (map fst groups)
  /\ Forall (fun kv =>
               snd kv <> []
               /\ snd kv
                  = filter (fun m => building_name_eqb (place (snd m))
                                                       (fst kv)) matches)
            groups
  /\ List.length groups <= List.length connected_buildings
  /\ list_sum (map (fun kv => List.length (snd kv)) groups)
     = List.length matches.
Proof.
  intros inside matches groups.
  pose proof (geojson_matches_rows connected_buildings db_carparks)
    as Hfst.
  fold inside in Hfst. fold matches in Hfst.
  pose proof (group_by_groups building_name_eqb building_name_eqb_eq
                (fun m : db_carpark num * connected_building lib =>
                   place (snd m)) (fun m => m) matches)
    as (Hnd & Hkeys & _ & Hgroups & Hsum).
  rewrite <- group_by_building_group_by in Hnd, Hkeys, Hgroups, Hsum.
  fold groups in Hnd, Hkeys, Hgroups, Hsum.
  split; [exact Hfst|]. split.
  { apply Forall_forall. intros m Hin.
    apply geojson_matches_In in Hin. exact (proj2 Hin). }
  split.
  { rewrite <- (length_map fst matches), Hfst. apply filter_length_le. }
  split; [exact Hnd|]. split.
  { eapply Forall_impl; [|exact Hgroups]. intros kv [Hne Hv].
    rewrite map_id in Hv. split; assumption. }
  split; [|exact Hsum].
  rewrite <- (length_map fst groups).
  rewrite <- (length_map (@place num lib) connected_buildings).
  apply NoDup_incl_length; [exact Hnd|].
  intros k Hk. apply Hkeys in Hk. apply in_map_iff in Hk.
  destruct Hk as (m & <- & Hin). apply geojson_matches_In in Hin.
  destruct Hin as [_ Hfind]. apply find_some in Hfind.
  apply in_map. exact (proj1 Hfind).
Qed.
End GeojsonFacts.

(** ** The script analyze-realtime-coverage.py *)

Section CarparkIdFacts.

Lemma replace_char_free (c : ascii) (new s : str) :
  Forall (fun x => x <> c) new ->
  Forall (fun x => x <> c) (replace [c] new s).
Proof.
  intros Hnew. unfold replace. induction s as [|a t IH]; [constructor|].
  cbn [replace_from starts_with List.length Nat.sub].
  destruct (Ascii.eqb_spec c a) as [E|E]; cbn [andb].
  - destruct t; (apply Forall_app; split; [exact Hnew | exact IH]).
  - destruct t; constructor; auto.
Qed.

Lemma upper_char_idem (c : ascii) : upper_char (upper_char c) = upper_char c.
Proof. destruct c as [[] [] [] [] [] [] [] []]; reflexivity. Qed.

Lemma upper_char_space (c : ascii) :
  upper_char c = " "%char -> c = " "%char.
Proof.
  destruct c as [[] [] [] [] [] [] [] []]; vm_compute; intros E;
    first [reflexivity | discriminate E].
Qed.

Lemma upper_char_comma (c : ascii) :
  upper_char c = ","%char -> c = ","%char.
Proof.
  destruct c as [[] [] [] [] [] [] [] []]; vm_compute; intros E;
    first [reflexivity | discriminate E].
Qed.

Lemma upper_fixed (s : str) :
  Forall (fun c => upper_char c = c) s -> upper s = s.
Proof.
  induction 1 as [|c t Hc Ht IH]; [reflexivity|].
  unfold upper in *. cbn [map]. rewrite Hc, IH. reflexivity.
Qed.

(** X12.  A [carpark_id] holds no space, no comma and no lower-case
    letter, so that replacing spaces, removing commas and upper-casing it
    again changes nothing. *)
Theorem carpark_id_clean (props : parking_space) :
  Forall (fun c => c <> " "%char /\ c <> ","%char /\ upper_char c = c)
         (carpark_id props)
  /\ upper (replace (lit ",") (lit "")
              (replace (lit " ") (lit "_") (carpark_id props)))
     = carpark_id props.
Proof.
  assert (Hclean : Forall (fun c => c <> " "%char /\ c <> ","%char
                                    /\ upper_char c = c)
                          (carpark_id props)).
  { unfold carpark_id, upper.
    set (raw := District props ++ _).
    assert (H1 : Forall (fun x => x <> " "%char)
                   (replace (lit ",") (lit "")
                      (replace (lit " ") (lit "_") raw))).
    { apply Forall_replace_from; [constructor|].
      apply replace_char_free. repeat constructor. discriminate. }
    assert (H2 : Forall (fun x => x <> ","%char)
                   (replace (lit ",") (lit "")
                      (replace (lit " ") (lit "_") raw)))
      by apply replace_char_removes.
    revert H1 H2. generalize (replace (lit ",") (lit "")
                                (replace (lit " ") (lit "_") raw)).
    intros s H1 H2. induction s as [|c t IH]; [constructor|].
    inversion H1; subst. inversion H2; subst. cbn [map].
    constructor; [|apply IH; assumption].
    split; [|split; [|apply upper_char_idem]].
    - intros E. apply upper_char_space in E. contradiction.
    - intros E. apply upper_char_comma in E. contradiction. }
  split; [exact Hclean|].
  rewrite (replace_absent (lit " ")).
  - rewrite (replace_absent (lit ",")).
    + apply upper_fixed. eapply Forall_impl; [|exact Hclean].
      cbn. tauto.
    + apply has_substring_char. eapply Forall_impl; [|exact Hclean].
      cbn. tauto.
  - apply has_substring_char. eapply Forall_impl; [|exact Hclean].
    cbn. tauto.
Qed.
End CarparkIdFacts.

Section CarparksFacts.

Lemma dict_get_kget {V : Type} (k : str) (d : list (str * V)) :
  dict_get k d = kget str_eqb k d.
Proof.
  induction d as [|[k' v] d IH]; cbn; [reflexivity|].
  rewrite IH. reflexivity.
Qed.

Lemma dict_set_kset {V : Type} (k : str) (v : V) (d : list (str * V)) :
  dict_set k v d = kset str_eqb k v d.
Proof.
  induction d as [|[k' v'] d IH]; cbn; [reflexivity|].
  rewrite IH. reflexivity.
Qed.

(** The features of a carpark, in the order of the file. *)
Lemma carparks_fold (features : list parking_space) :
  forall (seen : list parking_space) (carparks : list (str * carpark)),
  NoDup (keys carparks) ->
  (forall k,
      let fs := filter (fun p => str_eqb (carpark_id p) k) seen in
      match dict_get k carparks with
      | None => fs = []
      | Some data =>
          fs <> []
          /\ spaces data = map ParkingSpaceId fs
          /\ total_spaces data = List.length fs
          /\ district data = last (map (fun p => Some (District p)) fs) None
          /\ carpark_name data
             = last (map (fun p => Some (SectionOfStreet p)) fs) None
      end) ->
  let carparks' := fold_left carparks_step features carparks in
  NoDup (keys carparks')
  /\ forall k,
      let fs := filter (fun p => str_eqb (carpark_id p) k)
                       (seen ++ features) in
      match dict_get k carparks' with
      | None => fs = []
      | Some data =>
          fs <> []
          /\ spaces data = map ParkingSpaceId fs
          /\ total_spaces data = List.length fs
          /\ district data = last (map (fun p => Some (District p)) fs) None
          /\ carpark_name data
             = last (map (fun p => Some (SectionOfStreet p)) fs) None
      end.
Proof.
  induction features as [|p l IH]; intros seen carparks Hnd Hinv;
    cbn [fold_left].
  - rewrite app_nil_r. split; assumption.
  - replace (seen ++ p :: l) with ((seen ++ [p]) ++ l)
      by (rewrite <- app_assoc; reflexivity).
    apply IH.
    + unfold carparks_step. apply NoDup_keys_dict_set. exact Hnd.
    + intros k. cbv zeta. rewrite filter_app. cbn [filter].
      unfold carparks_step. specialize (Hinv k). cbv zeta in Hinv.
      destruct (str_eqb (carpark_id p) k) eqn:E.
      * apply str_eqb_eq in E. subst k.
        rewrite dict_get_set, str_eqb_refl.
        destruct (dict_get (carpark_id p) carparks) as [data|].
        -- destruct Hinv as (Hne & Hs & Ht & Hd & Hn).
           cbn [spaces total_spaces district carpark_name].
           rewrite !map_app. cbn [map]. rewrite !last_last, length_app, Hs, Ht.
           cbn [List.length].
           repeat split; auto using app_single_not_nil.
        -- rewrite Hinv. cbn. repeat split. discriminate.
      * rewrite app_nil_r. rewrite dict_get_set.
        replace (str_eqb k (carpark_id p)) with false; [exact Hinv|].
        symmetry. apply str_eqb_neq. apply str_eqb_neq in E. congruence.
Qed.

Lemma totals_dict_set (k : str) (data : carpark) (d : list (str * carpark)) :
  list_sum (map (fun kv => total_spaces (snd kv)) (dict_set k data d))
  + match dict_get k d with
    | Some old => total_spaces old
    | None => 0
    end
  = list_sum (map (fun kv => total_spaces (snd kv)) d) + total_spaces data.
Proof.
  unfold list_sum. induction d as [|[k' v'] d IH]; cbn.
  - lia.
  - destruct (str_eqb k k'); cbn; lia.
Qed.

Lemma totals_fold (features : list parking_space)
  (carparks : list (str * carpark)) :
  list_sum (map (fun kv => total_spaces (snd kv))
                (fold_left carparks_step features carparks))
  = list_sum (map (fun kv => total_spaces (snd kv)) carparks)
    + List.length features.
Proof.
  revert carparks. induction features as [|p l IH]; intros carparks;
    cbn [fold_left List.length]; [lia|].
  rewrite IH. unfold carparks_step.
  match goal with |- context [dict_set ?k ?v carparks] =>
    pose proof (totals_dict_set k v carparks) as Hs
  end.
  cbn [total_spaces] in Hs.
  assert (H0 : total_spaces new_carpark = 0) by reflexivity.
  destruct (dict_get (carpark_id p) carparks); cbn [total_spaces] in Hs; lia.
Qed.

Lemma group_carparks_keys (features : list parking_space) :
  NoDup (keys (group_carparks features))
  /\ forall k, In k (keys (group_carparks features))
               <-> In k (map carpark_id features).
Proof.
  destruct (carparks_fold features [] [] (NoDup_nil _)) as [Hnd Hinv].
  { intros k. reflexivity. }
  cbn [app] in Hinv. fold (group_carparks features) in Hnd, Hinv.
  split; [exact Hnd|].
  intros k. specialize (Hinv k). cbv zeta in Hinv.
  rewrite <- dict_mem_keys. unfold dict_mem.
  destruct (dict_get k (group_carparks features)) as [data|].
  - destruct Hinv as (Hne & _). split; [intros _|reflexivity].
    destruct (filter _ features) as [|p fs] eqn:Hf; [contradiction|].
    assert (Hp : In p (filter (fun p => str_eqb (carpark_id p) k) features))
      by (rewrite Hf; left; reflexivity).
    apply filter_In in Hp. destruct Hp as [Hp Hk].
    apply str_eqb_eq in Hk. subst k. apply in_map. exact Hp.
  - split; [discriminate|]. intros Hin. apply in_map_iff in Hin.
    destruct Hin as (p & Hk & Hp).
    assert (Hp' : In p (filter (fun p => str_eqb (carpark_id p) k)
                          features)).
    { apply filter_In. split; [exact Hp | apply str_eqb_eq; exact Hk]. }
    rewrite Hinv in Hp'. destruct Hp'.
Qed.

(** X13.  [carparks] has one entry for each [carpark_id] that occurs: its
    [spaces] are the ids of the features with that [carpark_id] in the
    order of the file, [total_spaces] is their number and at least 1,
    the district and the name are those of the last such feature, and
    the totals add up to the number of features. *)
Theorem group_carparks_groups (features : list parking_space) :
  let carparks := group_carparks features in
  NoDup (keys carparks)
  /\ (forall k, In k (keys carparks) <-> In k (map carpark_id features))
  /\ Forall
       (fun kv =>
          let fs := filter (fun p => str_eqb (carpark_id p) (fst kv))
                           features in
          spaces (snd kv) = map ParkingSpaceId fs
          /\ total_spaces (snd kv) = List.length fs
          /\ 1 <= total_spaces (snd kv)
          /\ district (snd kv)
             = last (map (fun p => Some (District p)) fs) None
          /\ carpark_name (snd kv)
             = last (map (fun p => Some (SectionOfStreet p)) fs) None)
       carparks
  /\ list_sum (map (fun kv => total_spaces (snd kv)) carparks)
     = List.length features.
Proof.
  intros carparks.
  destruct (carparks_fold features [] [] (NoDup_nil _)) as [Hnd Hinv].
  { intros k. reflexivity. }
  cbn [app] in Hinv. fold (group_carparks features) in Hnd, Hinv.
  fold carparks in Hnd, Hinv.
  split; [exact Hnd|].
  split; [exact (proj2 (group_carparks_keys features))|]. split.
  - apply Forall_forall. intros [k data] Hin. cbn [fst snd].
    specialize (Hinv k). cbv zeta in Hinv.
    rewrite (In_dict_get _ _ _ Hnd Hin) in Hinv.
    destruct Hinv as (Hne & Hs & Ht & Hd & Hn).
    repeat split; auto.
    rewrite Ht. destruct (filter _ features); [contradiction | cbn; lia].
  - unfold carparks, group_carparks. rewrite totals_fold. reflexivity.
Qed.
End CarparksFacts.

(** *** Sorting *)

Section SortFacts.
Context {A : Type} (key : A -> nat).

Lemma insert_desc_length (x : A) (l : list A) :
  List.length (insert_desc key x l) = S (List.length l).
Proof.
  induction l as [|y t IH]; [reflexivity|]. cbn [insert_desc].
  destruct (key x <? key y); cbn [List.length]; [rewrite IH|]; reflexivity.
Qed.

Lemma insert_desc_In (x a : A) (l : list A) :
  In a (insert_desc key x l) <-> a = x \/ In a l.
Proof.
  induction l as [|y t IH]; cbn [insert_desc In]; [intuition|].
  destruct (key x <? key y); cbn [In]; [rewrite IH|]; intuition.
Qed.

Lemma insert_desc_sum (f : A -> nat) (x : A) (l : list A) :
  list_sum (map f (insert_desc key x l)) = f x + list_sum (map f l).
Proof.
  unfold list_sum. induction l as [|y t IH]; [reflexivity|].
  cbn [insert_desc].
  destruct (key x <? key y); cbn [map fold_right] in *; lia.
Qed.

Lemma insert_desc_filter (f : A -> bool) (x : A) (l : list A) :
  List.length (filter f (insert_desc key x l))
  = List.length (filter f (x :: l)).
Proof.
  induction l as [|y t IH]; [reflexivity|].
  cbn [insert_desc]. destruct (key x <? key y); [|reflexivity].
  cbn [filter] in *. destruct (f y), (f x); cbn [List.length] in *; lia.
Qed.

Lemma sort_desc_length (l : list A) :
  List.length (sort_desc key l) = List.length l.
Proof.
  induction l as [|x t IH]; [reflexivity|].
  cbn [sort_desc fold_right]. rewrite insert_desc_length.
  cbn [List.length]. f_equal. exact IH.
Qed.

Lemma sort_desc_In (a : A) (l : list A) :
  In a (sort_desc key l) <-> In a l.
Proof.
  induction l as [|x t IH]; [tauto|].
  cbn [sort_desc fold_right In]. rewrite insert_desc_In.
  fold (sort_desc key t). rewrite IH. intuition.
Qed.

Lemma sort_desc_sum (f : A -> nat) (l : list A) :
  list_sum (map f (sort_desc key l)) = list_sum (map f l).
Proof.
  induction l as [|x t IH]; [reflexivity|].
  cbn [sort_desc fold_right]. rewrite insert_desc_sum.
  fold (sort_desc key t). rewrite IH. reflexivity.
Qed.

Lemma sort_desc_filter (f : A -> bool) (l : list A) :
  List.length (filter f (sort_desc key l)) = List.length (filter f l).
Proof.
  induction l as [|x t IH]; [reflexivity|].
  cbn [sort_desc fold_right]. rewrite insert_desc_filter.
  cbn [filter]. fold (sort_desc key t).
  destruct (f x); cbn [List.length]; rewrite IH; reflexivity.
Qed.
End SortFacts.

(** *** The occupancy file *)

Section OccupancyFacts.

Lemma set_add_In (x y : str) (s : list str) :
  In y (set_add x s) <-> y = x \/ In y s.
Proof.
  unfold set_add. destruct (existsb (str_eqb x) s) eqn:E.
  - apply existsb_str_eqb in E. split; [tauto|].
    intros [-> | Hin]; assumption.
  - rewrite in_app_iff. cbn [In]. intuition.
Qed.

Lemma set_add_NoDup (x : str) (s : list str) :
  NoDup s -> NoDup (set_add x s).
Proof.
  intros Hnd. unfold set_add. destruct (existsb (str_eqb x) s) eqn:E;
    [exact Hnd|].
  apply NoDup_app; [exact Hnd | repeat constructor; intros [] |].
  intros y Hy [<- | []].
  assert (Hex : existsb (str_eqb x) s = true)
    by (apply existsb_str_eqb; exact Hy).
  congruence.
Qed.

(** A row that counts: it has both columns and its status is [N]. *)
Lemma occupancy_step_cases (s : list str) (row : list (str * str)) :
  match dict_get (lit "ParkingSpaceId") row,
        dict_get (lit "ParkingMeterStatus") row with
  | Some space_id, Some meter_status =>
      occupancy_step s row
      = Ok (if str_eqb (strip meter_status) (lit "N")
            then set_add (strip space_id) s else s)
  | _, _ => occupancy_step s row = Raise KeyError
  end.
Proof.
  unfold occupancy_step, csv_field.
  destruct (dict_get (lit "ParkingSpaceId") row) as [space_id|];
    [|reflexivity].
  destruct (dict_get (lit "ParkingMeterStatus") row) as [meter_status|];
    [|reflexivity].
  cbn [bind]. destruct (str_eqb _ _); reflexivity.
Qed.

End OccupancyFacts.

(** *** The coverage of the carparks *)

Lemma list_sum_le {A : Type} (f g : A -> nat) (l : list A) :
  Forall (fun x => f x <= g x) l ->
  list_sum (map f l) <= list_sum (map g l).
Proof.
  unfold list_sum. induction 1 as [|x t Hx Ht IH]; cbn; lia.
Qed.

Lemma list_sum_const {A : Type} (c : nat) (l : list A) :
  list_sum (map (fun _ => c) l) = c * List.length l.
Proof.
  unfold list_sum. induction l as [|x t IH]; cbn [map fold_right List.length];
    lia.
Qed.

Lemma group_carparks_totals (features : list parking_space) :
  Forall (fun kv => total_spaces (snd kv) = List.length (spaces (snd kv))
                    /\ 1 <= total_spaces (snd kv))
         (group_carparks features).
Proof.
  destruct (carparks_fold features [] [] (NoDup_nil _)) as [Hnd Hinv].
  { intros k. reflexivity. }
  cbn [app] in Hinv. fold (group_carparks features) in Hnd, Hinv.
  apply Forall_forall. intros [k data] Hin. cbn [fst snd].
  specialize (Hinv k). cbv zeta in Hinv.
  rewrite (In_dict_get _ _ _ Hnd Hin) in Hinv.
  destruct Hinv as (Hne & Hs & Ht & _).
  rewrite Hs, length_map, Ht. split; [reflexivity|].
  destruct (filter _ features); [contradiction | cbn; lia].
Qed.

Section BreakdownPartition.
Context {num : Type} `{PyFloatOrder num}.

End BreakdownPartition.


Section RealtimeFacts.
Context {num : Type} `{PyFloat num}.
Variable round2 : num -> num.

Lemma coverage_of_bounds (spaces_with_realtime : list str)
  (features : list parking_space) :
  Forall (fun cp : coverage (num := num) =>
            1 <= cov_total_spaces cp
            /\ tracked_spaces cp <= cov_total_spaces cp)
         (map (coverage_of spaces_with_realtime) (group_carparks features)).
Proof.
  apply Forall_map. eapply Forall_impl; [|apply group_carparks_totals].
  intros [k data] [Ht H1]. cbn [fst snd] in *.
  unfold coverage_of. cbn [cov_total_spaces tracked_spaces snd].
  split; [exact H1|]. rewrite Ht. apply filter_length_le.
Qed.

(** X16.  How analyze-realtime-coverage.py ends.  An exception of the
    occupancy rows stops it.  Otherwise the carparks it keeps have at
    least ten spaces and from one to all of them tracked; when it keeps
    none, the overall coverage divides by zero; when it keeps one or
    more, it completes, with at most as many tracked spaces as spaces,
    at least ten spaces and one tracked space for each carpark kept, and
    not more carparks kept than carparks of ten spaces, nor more of
    these than groups, nor more groups than features. *)
Theorem realtime_script_outcome (features : list parking_space)
  (occupancy : list (list (str * str))) :
  match read_occupancy occupancy [] with
  | Raise e =>
      realtime_script round2 features occupancy = Stops (Exception e)
  | Ok spaces_with_realtime =>
      let carparks_with_realtime :=
        map (coverage_of (num := num) spaces_with_realtime)
            (group_carparks features) in
      let with_data := carparks_with_data carparks_with_realtime in
      Forall (fun cp => 10 <= cov_total_spaces cp
                        /\ 1 <= tracked_spaces cp
                        /\ tracked_spaces cp <= cov_total_spaces cp)
             with_data
      /\ match with_data with
         | [] =>
             realtime_script round2 features occupancy
             = Stops (Exception ZeroDivisionError)
         | _ :: _ =>
             exists stats,
               realtime_script round2 features occupancy = Completes stats
               /\ total_tracked_spaces stats
                  <= total_spaces_in_tracked_carparks stats
               /\ 10 * carparks_with_realtime_10plus stats
                  <= total_spaces_in_tracked_carparks stats
               /\ carparks_with_realtime_10plus stats
                  <= total_tracked_spaces stats
               /\ carparks_100_coverage stats
                  <= carparks_with_realtime_10plus stats
               /\ carparks_with_realtime_10plus stats
                  <= carparks_10plus_spaces stats
               /\ carparks_10plus_spaces stats <= total_carpark_groups stats
               /\ total_carpark_groups stats <= List.length features
         end
  end.
Proof.
  destruct (read_occupancy occupancy []) as [tracked|e] eqn:Hocc;
    [|unfold realtime_script; rewrite Hocc; reflexivity].
  intros cwr with_data.
  assert (Hscript :
            realtime_script round2 features occupancy
            = run (overlap_percentage
                     (list_sum (map tracked_spaces with_data))
                     (list_sum (map cov_total_spaces with_data)))
                (fun _ =>
                 run (overlap_percentage
                        (list_sum (map tracked_spaces with_data))
                        (list_sum (map cov_total_spaces with_data)))
                   (fun overall =>
                    Completes
                      {| total_carpark_groups :=
                           List.length (group_carparks features);
                         carparks_10plus_spaces :=
                           List.length (carparks_10plus cwr);
                         carparks_with_realtime_10plus :=
                           List.length with_data;
                         carparks_90plus_coverage :=
                           List.length (full_coverage with_data);
                         carparks_100_coverage :=
                           List.length (full_100_coverage with_data);
                         total_spaces_in_tracked_carparks :=
                           list_sum (map cov_total_spaces with_data);
                         total_tracked_spaces :=
                           list_sum (map tracked_spaces with_data);
                         overall_coverage_pct := round2 overall |})))
    by (unfold realtime_script; rewrite Hocc; reflexivity).
  rewrite Hscript. clear Hscript.
  assert (Hall : Forall (fun cp => 10 <= cov_total_spaces cp
                                   /\ 1 <= tracked_spaces cp
                                   /\ tracked_spaces cp
                                      <= cov_total_spaces cp) with_data).
  { apply Forall_forall. intros cp Hin. unfold with_data in Hin.
    unfold carparks_with_data in Hin. apply sort_desc_In in Hin.
    apply filter_In in Hin. destruct Hin as [Hin Htr].
    unfold carparks_10plus in Hin. apply filter_In in Hin.
    destruct Hin as [Hin H10].
    pose proof (coverage_of_bounds tracked features) as Hb.
    rewrite Forall_forall in Hb. destruct (Hb cp Hin) as [_ Hle].
    apply Nat.leb_le in H10. apply Nat.ltb_lt in Htr. lia. }
  split; [exact Hall|].
  assert (Hgroups : List.length (group_carparks features)
                    <= List.length features).
  { pose proof (totals_fold features []) as Hsum.
    fold (group_carparks features) in Hsum. cbn in Hsum.
    pose proof (list_sum_le (fun _ => 1)
                  (fun kv : str * carpark => total_spaces (snd kv))
                  (group_carparks features)) as Hle.
    rewrite list_sum_const in Hle.
    assert (Hone : Forall (fun kv : str * carpark =>
                             1 <= total_spaces (snd kv))
                          (group_carparks features)).
    { eapply Forall_impl; [|apply group_carparks_totals]. cbn. tauto. }
    specialize (Hle Hone). lia. }
  assert (H10 : 10 * List.length with_data
                <= list_sum (map cov_total_spaces with_data)).
  { rewrite <- list_sum_const. apply list_sum_le.
    eapply Forall_impl; [|exact Hall]. cbn. tauto. }
  assert (H1 : List.length with_data
               <= list_sum (map tracked_spaces with_data)).
  { pose proof (list_sum_le (fun _ => 1) tracked_spaces with_data) as Hle.
    rewrite list_sum_const in Hle.
    assert (Hone : Forall (fun cp : coverage (num := num) =>
                             1 <= tracked_spaces cp) with_data).
    { eapply Forall_impl; [|exact Hall]. cbn. tauto. }
    specialize (Hle Hone). lia. }
  assert (Htt : list_sum (map tracked_spaces with_data)
                <= list_sum (map cov_total_spaces with_data)).
  { apply list_sum_le. eapply Forall_impl; [|exact Hall]. cbn. tauto. }
  assert (Hwd : List.length with_data
                <= List.length (carparks_10plus cwr)).
  { unfold with_data, carparks_with_data. rewrite sort_desc_length.
    apply filter_length_le. }
  assert (H10p : List.length (carparks_10plus cwr)
                 <= List.length (group_carparks features)).
  { unfold carparks_10plus.
    rewrite <- (length_map (coverage_of (num := num) tracked)
                  (group_carparks features)).
    apply filter_length_le. }
  clearbody with_data.
  destruct with_data as [|cp rest] eqn:Hwith.
  - reflexivity.
  - rewrite <- Hwith in *. unfold overlap_percentage, truediv.
    destruct (list_sum (map cov_total_spaces with_data) =? 0) eqn:E.
    + apply Nat.eqb_eq in E. rewrite Hwith in H10. cbn [List.length] in H10.
      rewrite <- Hwith in H10. lia.
    + cbn [bind run]. eexists. split; [reflexivity|].
      cbn [total_tracked_spaces total_spaces_in_tracked_carparks
           carparks_with_realtime_10plus carparks_100_coverage
           carparks_10plus_spaces total_carpark_groups].
      repeat split; try assumption.
      unfold full_100_coverage. apply filter_length_le.
Qed.
End RealtimeFacts.

(** ** The script analyze-metered-groups.py *)

Section SortedFacts.

Lemma insert_asc_In (x a : nat) (l : list nat) :
  In a (insert_asc x l) <-> a = x \/ In a l.
Proof.
  induction l as [|y t IH]; cbn [insert_asc In]; [intuition|].
  destruct (x <=? y); cbn [In]; [|rewrite IH]; intuition.
Qed.

Lemma insert_asc_length (x : nat) (l : list nat) :
  List.length (insert_asc x l) = S (List.length l).
Proof.
  induction l as [|y t IH]; [reflexivity|]. cbn [insert_asc].
  destruct (x <=? y); cbn [List.length]; [|rewrite IH]; reflexivity.
Qed.

Lemma insert_asc_sorted (x : nat) (l : list nat) :
  StronglySorted le l -> StronglySorted le (insert_asc x l).
Proof.
  induction 1 as [|y t Ht IH Hy]; cbn [insert_asc].
  - repeat constructor.
  - destruct (x <=? y) eqn:E.
    + apply Nat.leb_le in E. constructor; [constructor; assumption|].
      constructor; [exact E|].
      eapply Forall_impl; [|exact Hy]. cbn. intros a Ha. lia.
    + apply Nat.leb_gt in E. constructor; [exact IH|].
      apply Forall_forall. intros a Ha. apply insert_asc_In in Ha.
      destruct Ha as [-> | Ha]; [lia|].
      rewrite Forall_forall in Hy. exact (Hy a Ha).
Qed.

Lemma sorted_sorted (l : list nat) : StronglySorted le (sorted l).
Proof.
  induction l as [|x t IH]; [constructor|].
  cbn [sorted fold_right]. apply insert_asc_sorted. exact IH.
Qed.

Lemma sorted_In (a : nat) (l : list nat) : In a (sorted l) <-> In a l.
Proof.
  induction l as [|x t IH]; [tauto|].
  cbn [sorted fold_right In]. rewrite insert_asc_In.
  fold (sorted t). rewrite IH. intuition.
Qed.

Lemma sorted_length (l : list nat) : List.length (sorted l) = List.length l.
Proof.
  induction l as [|x t IH]; [reflexivity|].
  cbn [sorted fold_right]. rewrite insert_asc_length.
  cbn [List.length]. f_equal. exact IH.
Qed.

Lemma StronglySorted_nth (l : list nat) :
  StronglySorted le l ->
  forall i j x y, i <= j -> nth_error l i = Some x -> nth_error l j = Some y ->
                  x <= y.
Proof.
  induction 1 as [|a t Ht IH Ha]; intros i j x y Hij Hi Hj.
  - destruct i; discriminate.
  - destruct i as [|i], j as [|j]; cbn in Hi, Hj.
    + injection Hi as <-. injection Hj as <-. lia.
    + injection Hi as <-. apply nth_error_In in Hj.
      rewrite Forall_forall in Ha. exact (Ha y Hj).
    + lia.
    + apply (IH i j); [lia | assumption | assumption].
Qed.

Lemma fold_min_le (l : list nat) (x : nat) :
  fold_left Nat.min l x <= x
  /\ (forall a, In a l -> fold_left Nat.min l x <= a)
  /\ (fold_left Nat.min l x = x \/ In (fold_left Nat.min l x) l).
Proof.
  revert x. induction l as [|y t IH]; intros x; cbn [fold_left In].
  - split; [lia|]. split; [tauto | left; reflexivity].
  - destruct (IH (Nat.min x y)) as (H1 & H2 & H3).
    split; [lia|]. split.
    + intros a [<- | Ha]; [lia | exact (H2 a Ha)].
    + destruct H3 as [H3 | H3]; [|right; right; exact H3].
      destruct (Nat.min_dec x y) as [E|E]; rewrite E in *.
      * left. exact H3.
      * right. left. symmetry. exact H3.
Qed.

Lemma fold_max_ge (l : list nat) (x : nat) :
  x <= fold_left Nat.max l x
  /\ (forall a, In a l -> a <= fold_left Nat.max l x)
  /\ (fold_left Nat.max l x = x \/ In (fold_left Nat.max l x) l).
Proof.
  revert x. induction l as [|y t IH]; intros x; cbn [fold_left In].
  - split; [lia|]. split; [tauto | left; reflexivity].
  - destruct (IH (Nat.max x y)) as (H1 & H2 & H3).
    split; [lia|]. split.
    + intros a [<- | Ha]; [lia | exact (H2 a Ha)].
    + destruct H3 as [H3 | H3]; [|right; right; exact H3].
      destruct (Nat.max_dec x y) as [E|E]; rewrite E in *.
      * left. exact H3.
      * right. left. symmetry. exact H3.
Qed.

Lemma index_ok {A : Type} (l : list A) (i : nat) :
  i < List.length l -> exists x, index l i = Ok x /\ nth_error l i = Some x.
Proof.
  intros Hi. unfold index. destruct (nth_error l i) as [x|] eqn:E.
  - exists x. auto.
  - apply nth_error_None in E. lia.
Qed.
End SortedFacts.

Lemma group_key_eqb_eq (a b : group_key) :
  group_key_eqb a b = true <-> a = b.
Proof.
  destruct a as [[[a1 a2] a3] a4], b as [[[b1 b2] b3] b4].
  unfold group_key_eqb. rewrite !andb_true_iff, !str_eqb_eq.
  split; [intros [[[-> ->] ->] ->]; reflexivity|].
  intros [= -> -> -> ->]. auto.
Qed.

Section MeteredFacts.
Context {num : Type} `{PyFloat num}.

Lemma space_of_raise (feature : metered_feature (num := num)) e :
  space_of feature = Raise e ->
  e = IndexError /\ List.length (geometry_coordinates feature) < 2.
Proof.
  unfold space_of.
  destruct (geometry_coordinates feature) as [|lng [|lat rest]];
    try discriminate; intros [= <-]; cbn; split; auto.
Qed.

Lemma space_of_ok (feature : metered_feature (num := num)) space :
  space_of feature = Ok space ->
  2 <= List.length (geometry_coordinates feature)
  /\ space_id space = ParkingSpaceId (properties feature)
  /\ nth_error (geometry_coordinates feature) 1 = Some (space_lat space)
  /\ nth_error (geometry_coordinates feature) 0 = Some (space_lng space).
Proof.
  unfold space_of.
  destruct (geometry_coordinates feature) as [|lng [|lat rest]];
    try discriminate.
  intros [= <-]. cbn. repeat split. lia.
Qed.

(** The loop over the features either stops at a feature with fewer than
    two coordinates or appends the space of every feature. *)
Lemma load_groups_cases (features : list (metered_feature (num := num))) :
  forall groups,
  match load_groups features groups with
  | Raise e =>
      e = IndexError
      /\ exists feature,
           In feature features
           /\ List.length (geometry_coordinates feature) < 2
  | Ok groups' =>
      exists spaces,
        map space_of features = map Ok spaces
        /\ groups'
           = fold_left
               (fun g p =>
                  dict_append group_key_eqb (key_of (properties (fst p)))
                              (snd p) g)
               (combine features spaces) groups
  end.
Proof.
  induction features as [|feature rest IH]; intros groups;
    cbn [load_groups].
  - exists []. split; reflexivity.
  - destruct (space_of feature) as [space|e] eqn:E; cbn [bind].
    + specialize (IH (dict_append group_key_eqb
                        (key_of (properties feature)) space groups)).
      destruct (load_groups rest _) as [groups'|e].
      * destruct IH as (spaces & Hmap & Hg).
        exists (space :: spaces). cbn [map combine fold_left fst snd].
        rewrite E, Hmap. split; [reflexivity | exact Hg].
      * destruct IH as (He & f & Hin & Hlen).
        split; [exact He|]. exists f. split; [right; exact Hin | exact Hlen].
    + apply space_of_raise in E. destruct E as [-> Hlen].
      split; [reflexivity|]. exists feature. split; [left; reflexivity|].
      exact Hlen.
Qed.

Lemma combine_spaces (P : metered_feature (num := num) -> bool)
  (features : list (metered_feature (num := num))) :
  forall spaces,
  map space_of features = map Ok spaces ->
  List.length (combine features spaces) = List.length features
  /\ map fst (combine features spaces) = features
  /\ map Ok (map snd (filter (fun p => P (fst p))
                             (combine features spaces)))
     = map space_of (filter P features).
Proof.
  induction features as [|f rest IH]; intros [|s spaces] Hmap;
    try discriminate; cbn [combine map filter List.length fst snd].
  - auto.
  - cbn [map] in Hmap. injection Hmap as Hs Hrest.
    destruct (IH spaces Hrest) as (Hlen & Hfst & Hfilter).
    rewrite Hlen, Hfst. split; [reflexivity|]. split; [reflexivity|].
    destruct (P f); cbn [map snd]; rewrite Hfilter; [rewrite Hs|];
      reflexivity.
Qed.

(** X17.  When every feature has two coordinates, the groups are the
    features by district, sub-district, street and section: no key is
    repeated, there is a group for every key that occurs, no group is
    empty, a group holds the spaces of the features with its key in the
    order of the file, and the sizes add up to the number of features.
    Otherwise the loop stops with [IndexError]. *)
Theorem load_groups_partition
  (features : list (metered_feature (num := num))) :
  match load_groups features [] with
  | Raise e =>
      e = IndexError
      /\ exists feature,
           In feature features
           /\ List.length (geometry_coordinates feature) < 2
  | Ok groups =>
      Forall (fun feature => 2 <= List.length (geometry_coordinates feature))
             features
      /\ NoDup (map fst groups)
      /\ (forall k, In k (map fst groups)
                    <-> In k (map (fun f => key_of (properties f)) features))
      /\ Forall
           (fun kv =>
              snd kv <> []
              /\ map Ok (snd kv)
                 = map space_of
                     (filter (fun f => group_key_eqb (key_of (properties f))
                                                     (fst kv)) features))
           groups
      /\ list_sum (map (fun kv => List.length (snd kv)) groups)
         = List.length features
  end.
Proof.
  pose proof (load_groups_cases features []) as Hload.
  destruct (load_groups features []) as [groups|e]; [|exact Hload].
  destruct Hload as (spaces & Hmap & Hg).
  pose proof (group_by_groups group_key_eqb group_key_eqb_eq
                (fun p : metered_feature * metered_space =>
                   key_of (properties (fst p))) snd
                (combine features spaces))
    as (Hnd & Hkeys & _ & Hgroups & Hsum).
  unfold group_by in Hnd, Hkeys, Hgroups, Hsum. rewrite <- Hg in *.
  destruct (combine_spaces (fun _ => true) features spaces Hmap)
    as (Hlen & Hfst & _).
  split; [|split; [exact Hnd | split; [|split]]].
  - apply Forall_forall. intros f Hin.
    assert (Hf : In (space_of f) (map Ok spaces))
      by (rewrite <- Hmap; apply in_map; exact Hin).
    apply in_map_iff in Hf. destruct Hf as (s & Hs & _).
    symmetry in Hs. apply space_of_ok in Hs. tauto.
  - intros k. rewrite Hkeys.
    rewrite <- Hfst at 2. rewrite map_map. reflexivity.
  - eapply Forall_impl; [|exact Hgroups]. intros [k v] [Hne Hv].
    cbn [fst snd] in *. split; [exact Hne|]. rewrite Hv.
    apply (combine_spaces
             (fun f => group_key_eqb (key_of (properties f)) k)
             features spaces Hmap).
  - rewrite Hsum. exact Hlen.
Qed.
End MeteredFacts.

Lemma In_le_list_sum (a : nat) (l : list nat) : In a l -> a <= list_sum l.
Proof.
  unfold list_sum. induction l as [|x t IH]; cbn [In fold_right]; [tauto|].
  intros [-> | Hin]; [lia|]. specialize (IH Hin). lia.
Qed.

Section MeteredScriptFacts.
Context {num : Type} `{PyFloat num}.

Lemma median_ok (data : list nat) :
  data <> [] -> exists m : num, median data = Ok m.
Proof.
  intros Hne. unfold median.
  assert (Hn : 0 < List.length (sorted data)).
  { rewrite sorted_length. destruct data; [contradiction | cbn; lia]. }
  set (n := List.length (sorted data)) in *.
  destruct (n =? 0) eqn:E0; [apply Nat.eqb_eq in E0; lia|].
  destruct (n mod 2 =? 1).
  - destruct (index_ok (sorted data) (n / 2)) as (x & Hx & _).
    { apply Nat.div_lt; lia. }
    rewrite Hx. cbn [bind]. eexists. reflexivity.
  - destruct (index_ok (sorted data) (n / 2 - 1)) as (a & Ha & _).
    { assert (n / 2 < n) by (apply Nat.div_lt; lia). lia. }
    destruct (index_ok (sorted data) (n / 2)) as (b & Hb & _).
    { apply Nat.div_lt; lia. }
    rewrite Ha, Hb. cbn [bind]. eexists. reflexivity.
Qed.

(** X18.  How analyze-metered-groups.py ends: with [IndexError] when a
    feature has fewer than two coordinates, with [ValueError] at
    [min(sizes)] when there is no feature, and otherwise with a summary
    in which the total of spaces is the number of features, there are at
    most as many groups as spaces, and
    1 <= Min <= 25th <= 75th <= Max <= the number of features. *)
Theorem metered_script_outcome
  (features : list (metered_feature (num := num))) :
  match load_groups features [] with
  | Raise e => metered_script features = Stops (Exception e)
  | Ok groups =>
      match features with
      | [] => metered_script features = Stops (Exception ValueError)
      | _ :: _ =>
          exists s,
            metered_script features = Completes s
            /\ total_groups s = List.length groups
            /\ grouped_spaces s = List.length features
            /\ total_groups s <= grouped_spaces s
            /\ 1 <= size_min s
            /\ size_min s <= size_25th s
            /\ size_25th s <= size_75th s
            /\ size_75th s <= size_max s
            /\ size_max s <= List.length features
      end
  end.
Proof.
  pose proof (load_groups_cases features []) as Hload.
  unfold metered_script.
  destruct (load_groups features []) as [groups|e]; [|reflexivity].
  cbn [run]. destruct Hload as (spaces & Hmap & Hg).
  pose proof (group_by_groups group_key_eqb group_key_eqb_eq
                (fun p : metered_feature * metered_space =>
                   key_of (properties (fst p))) snd
                (combine features spaces))
    as (_ & Hkeys & _ & Hgroups & Hsum).
  unfold group_by in Hkeys, Hgroups, Hsum. rewrite <- Hg in *.
  destruct (combine_spaces (fun _ => true) features spaces Hmap)
    as (Hlen & Hfst & _).
  rewrite Hlen in Hsum.
  destruct features as [|f rest] eqn:Hfeat.
  - cbn in Hg. subst groups. reflexivity.
  - rewrite <- Hfeat in *.
    set (lens := map (fun g : group_key * list metered_space =>
                        List.length (snd g)) groups) in *.
    assert (Hpos : forall a, In a lens -> 1 <= a).
    { intros a Ha. unfold lens in Ha. apply in_map_iff in Ha.
      destruct Ha as (kv & <- & Hin). rewrite Forall_forall in Hgroups.
      destruct (Hgroups kv Hin) as [Hne _].
      destruct (snd kv); [contradiction | cbn; lia]. }
    assert (Hle : forall a, In a lens -> a <= List.length features).
    { intros a Ha. rewrite <- Hsum. apply In_le_list_sum. exact Ha. }
    assert (Hgne : groups <> []).
    { intros ->. cbn in Hsum. rewrite Hfeat in Hsum. discriminate. }
    assert (Hn : 0 < List.length (sorted lens)).
    { rewrite sorted_length. unfold lens. rewrite length_map.
      destruct groups; [contradiction | cbn; lia]. }
    set (sizes := sorted lens) in *.
    assert (Hin : forall a, In a sizes -> 1 <= a <= List.length features).
    { intros a Ha. unfold sizes in Ha.
      apply (proj1 (sorted_In _ _)) in Ha.
      split; [apply Hpos | apply Hle]; exact Ha. }
    destruct sizes as [|x t] eqn:Hsizes; [cbn in Hn; lia|].
    rewrite <- Hsizes in *. 
    assert (Hmin : py_min sizes = Ok (fold_left Nat.min t x))
      by (rewrite Hsizes; reflexivity).
    assert (Hmax : py_max sizes = Ok (fold_left Nat.max t x))
      by (rewrite Hsizes; reflexivity).
    destruct (fold_min_le t x) as (Hm1 & Hm2 & Hm3).
    destruct (fold_max_ge t x) as (HM1 & HM2 & HM3).
    set (n := List.length sizes) in *.
    destruct (index_ok sizes (n / 4)) as (p25 & Hp25 & Hn25).
    { apply Nat.div_lt; lia. }
    destruct (index_ok sizes (3 * n / 4)) as (p75 & Hp75 & Hn75).
    { apply Nat.Div0.div_lt_upper_bound; lia. }
    destruct (median_ok sizes) as (med & Hmed).
    { rewrite Hsizes. discriminate. }
    rewrite Hmin, Hp25, Hmed, Hp75, Hmax. cbn [run].
    eexists. split; [reflexivity|].
    cbn [total_groups grouped_spaces size_min size_25th size_75th size_max].
    assert (Hxin : In x sizes) by (rewrite Hsizes; left; reflexivity).
    assert (Htin : forall a, In a t -> In a sizes)
      by (intros a Ha; rewrite Hsizes; right; exact Ha).
    assert (Hminin : In (fold_left Nat.min t x) sizes)
      by (destruct Hm3 as [-> | Hm3]; auto).
    assert (Hmaxin : In (fold_left Nat.max t x) sizes)
      by (destruct HM3 as [-> | HM3]; auto).
    assert (Hall_min : forall a, In a sizes -> fold_left Nat.min t x <= a).
    { intros a Ha. rewrite Hsizes in Ha. destruct Ha as [<- | Ha]; auto. }
    assert (Hall_max : forall a, In a sizes -> a <= fold_left Nat.max t x).
    { intros a Ha. rewrite Hsizes in Ha. destruct Ha as [<- | Ha]; auto. }
    split; [reflexivity|]. split; [exact Hsum|]. split.
    { rewrite Hsum. rewrite <- Hsum.
      pose proof (list_sum_le (fun _ => 1)
                    (fun kv : group_key * list metered_space =>
                       List.length (snd kv)) groups) as Hl.
      rewrite list_sum_const in Hl. fold lens in Hl.
      assert (Hone : Forall (fun kv : group_key * list metered_space =>
                               1 <= List.length (snd kv)) groups).
      { apply Forall_forall. intros kv Hkv. apply Hpos. unfold lens.
        apply in_map_iff. exists kv. auto. }
      specialize (Hl Hone). lia. }
    split; [apply Hin; exact Hminin|]. split.
    { apply Hall_min. apply nth_error_In in Hn25. exact Hn25. }
    split.
    { apply (StronglySorted_nth sizes (sorted_sorted lens)
               (n / 4) (3 * n / 4)); try assumption.
      apply Nat.Div0.div_le_mono; lia. }
    split.
    { apply Hall_max. apply nth_error_In in Hn75. exact Hn75. }
    apply Hin. exact Hmaxin.
Qed.
End MeteredScriptFacts.

(** *** The groups that are sampled *)

Section SampleFacts.
Context {A : Type} (key : A -> nat).

Lemma insert_desc_sorted (x : A) (l : list A) :
  StronglySorted (fun a b => key b <= key a) l ->
  StronglySorted (fun a b => key b <= key a) (insert_desc key x l).
Proof.
  induction 1 as [|y t Ht IH Hy]; cbn [insert_desc].
  - repeat constructor.
  - destruct (key x <? key y) eqn:E.
    + apply Nat.ltb_lt in E. constructor; [exact IH|].
      apply Forall_forall. intros a Ha. apply insert_desc_In in Ha.
      destruct Ha as [-> | Ha]; [lia|].
      rewrite Forall_forall in Hy. exact (Hy a Ha).
    + apply Nat.ltb_ge in E. constructor; [constructor; assumption|].
      constructor; [exact E|].
      eapply Forall_impl; [|exact Hy]. cbn. intros a Ha. lia.
Qed.

Lemma sort_desc_sorted (l : list A) :
  StronglySorted (fun a b => key b <= key a) (sort_desc key l).
Proof.
  induction l as [|x t IH]; [constructor|].
  cbn [sort_desc fold_right]. apply insert_desc_sorted. exact IH.
Qed.

(** In a list sorted from the largest, the elements of at least [m] come
    first: looking at the first [k] elements only loses none of the
    first [n <= k] of them. *)
Lemma firstn_filter_sorted (m : nat) (l : list A) :
  StronglySorted (fun a b => key b <= key a) l ->
  forall n k, n <= k ->
  firstn n (filter (fun a => m <=? key a) (firstn k l))
  = firstn n (filter (fun a => m <=? key a) l).
Proof.
  induction 1 as [|x t Ht IH Hx]; intros n k Hnk.
  - rewrite firstn_nil. reflexivity.
  - destruct k as [|k].
    + assert (n = 0) by lia. subst n. reflexivity.
    + cbn [firstn filter]. destruct (m <=? key x) eqn:E.
      * destruct n as [|n]; [reflexivity|]. cbn [firstn].
        f_equal. apply IH. lia.
      * apply Nat.leb_gt in E.
        assert (Hnone : forall l', incl l' t ->
                          filter (fun a => m <=? key a) l' = []).
        { intros l' Hincl. induction l' as [|a l' IHl]; [reflexivity|].
          cbn [filter].
          assert (Ha : In a t) by (apply Hincl; left; reflexivity).
          rewrite Forall_forall in Hx. specialize (Hx a Ha).
          replace (m <=? key a) with false
            by (symmetry; apply Nat.leb_gt; lia).
          apply IHl. intros b Hb. apply Hincl. right. exact Hb. }
        rewrite (Hnone t) by apply incl_refl.
        rewrite (Hnone (firstn k t)); [reflexivity|].
        intros a Ha. rewrite <- (firstn_skipn k t).
        apply in_or_app. left. exact Ha.
Qed.
End SampleFacts.

Section SampledGroups.
Context {num : Type} `{PyFloat num}.

Lemma sample_loop_firstn
  (items : list (group_key * list (metered_space (num := num)))) :
  forall sample_count,
  sample_loop items sample_count
  = firstn (10 - sample_count)
           (filter (fun item => 10 <=? List.length (snd item)) items).
Proof.
  induction items as [|item rest IH]; intros c; cbn [sample_loop filter].
  - rewrite firstn_nil. reflexivity.
  - destruct (10 <=? c) eqn:Ec.
    + apply Nat.leb_le in Ec. replace (10 - c) with 0 by lia. reflexivity.
    + apply Nat.leb_gt in Ec.
      destruct (List.length (snd item) <? 10) eqn:E.
      * apply Nat.ltb_lt in E.
        replace (10 <=? List.length (snd item)) with false
          by (symmetry; apply Nat.leb_gt; exact E).
        apply IH.
      * apply Nat.ltb_ge in E.
        replace (10 <=? List.length (snd item)) with true
          by (symmetry; apply Nat.leb_le; exact E).
        replace (10 - c) with (S (10 - (c + 1))) by lia.
        cbn [firstn]. f_equal. apply IH.
Qed.

(** X19.  The groups that the script samples are the first ten, or all
    when there are fewer, of the groups of at least ten spaces, taken
    from the largest and in the order of [groups] among equal sizes:
    that only the twenty largest groups are looked at never loses
    one. *)
Theorem samples_largest
  (groups : list (group_key * list (metered_space (num := num)))) :
  let size (item : group_key * list metered_space) :=
    List.length (snd item) in
  samples groups
  = firstn 10 (filter (fun item => 10 <=? size item)
                      (sort_desc size groups))
  /\ List.length (samples groups) <= 10
  /\ Forall (fun item => 10 <= size item /\ In item groups) (samples groups)
  /\ StronglySorted (fun a b => size b <= size a) (samples groups).
Proof.
  intros size.
  assert (Hs : samples groups
               = firstn 10 (filter (fun item => 10 <=? size item)
                                   (sort_desc size groups))).
  { unfold samples. rewrite sample_loop_firstn. cbn [Nat.sub].
    apply (firstn_filter_sorted size 10); [apply sort_desc_sorted | lia]. }
  split; [exact Hs|]. rewrite Hs. split; [apply firstn_le_length|]. split.
  - apply Forall_forall. intros item Hin.
    assert (Hin' : In item (filter (fun item => 10 <=? size item)
                              (sort_desc size groups))).
    { rewrite <- (firstn_skipn 10 (filter _ _)). apply in_or_app.
      left. exact Hin. }
    apply filter_In in Hin'. destruct Hin' as [Hin' Hbig].
    apply Nat.leb_le in Hbig. apply sort_desc_In in Hin'. auto.
  - assert (Hsorted : forall (l : list (group_key * list metered_space)),
               StronglySorted (fun a b => size b <= size a) l ->
               forall (f : group_key * list metered_space -> bool) n,
                 StronglySorted (fun a b => size b <= size a)
                                (firstn n (filter f l))).
    { induction 1 as [|x t Ht IH Hx]; intros f n.
      - rewrite firstn_nil. constructor.
      - cbn [filter]. destruct (f x); [|apply IH].
        destruct n as [|n]; [constructor|]. cbn [firstn].
        constructor; [apply IH|].
        apply Forall_forall. intros a Ha.
        assert (Ha' : In a (filter f t)).
        { rewrite <- (firstn_skipn n (filter f t)). apply in_or_app.
          left. exact Ha. }
        apply filter_In in Ha'. rewrite Forall_forall in Hx.
        apply Hx. tauto. }
    apply Hsorted. apply sort_desc_sorted.
Qed.
End SampledGroups.

(** ** The two groupings of the metered spaces *)

Section TwoGroupings.
Context {num : Type} `{PyFloat num}.

(** X20.  A [carpark_id] is a function of the key of
    analyze-metered-groups.py, so that analyze-realtime-coverage.py never
    counts more carpark groups than analyze-metered-groups.py counts
    groups on the same features. *)
Theorem carpark_groups_coarser
  (features : list (metered_feature (num := num))) :
  (forall p q, key_of p = key_of q -> carpark_id p = carpark_id q)
  /\ match load_groups features [] with
     | Ok groups =>
         List.length (group_carparks (map properties features))
         <= List.length groups
     | Raise _ => True
     end.
Proof.
  split.
  { intros p q Hk. unfold key_of in Hk. injection Hk as H1 H2 H3 H4.
    unfold carpark_id. rewrite H1, H2, H3, H4. reflexivity. }
  pose proof (load_groups_cases features []) as Hload.
  destruct (load_groups features []) as [groups|e]; [|exact I].
  destruct Hload as (spaces & Hmap & Hg).
  pose proof (group_by_groups group_key_eqb group_key_eqb_eq
                (fun p : metered_feature * metered_space =>
                   key_of (properties (fst p))) snd
                (combine features spaces))
    as (_ & Hkeys & _).
  unfold group_by in Hkeys. rewrite <- Hg in Hkeys.
  destruct (combine_spaces (fun _ => true) features spaces Hmap)
    as (_ & Hfst & _).
  destruct (group_carparks_keys (map properties features)) as [Hnd Hids].
  set (id_of := fun k : group_key =>
                  match k with
                  | (d, s, st, sec) =>
                      carpark_id {| District := d; SubDistrict := s;
                                    Street := st; SectionOfStreet := sec;
                                    ParkingSpaceId := [] |}
                  end).
  rewrite <- (length_map fst (group_carparks _)).
  rewrite <- (length_map fst groups).
  rewrite <- (length_map id_of (map fst groups)).
  apply NoDup_incl_length; [exact Hnd|].
  intros k Hk. apply Hids in Hk. rewrite map_map in Hk.
  apply in_map_iff in Hk. destruct Hk as (f & <- & Hf).
  apply in_map_iff. exists (key_of (properties f)). split; [reflexivity|].
  apply Hkeys. rewrite <- Hfst in Hf. apply in_map_iff in Hf.
  destruct Hf as (p & <- & Hp). apply in_map_iff. exists p. auto.
Qed.
End TwoGroupings.

(** ** The script export-carparks-csv.py *)

Lemma lit_injective (a b : string) : lit a = lit b -> a = b.
Proof.
  unfold lit. intros Heq.
  rewrite <- (string_of_list_ascii_of_string a).
  rewrite <- (string_of_list_ascii_of_string b).
  rewrite Heq. reflexivity.
Qed.

Lemma decimal_injective (a b : nat) : decimal a = decimal b -> a = b.
Proof.
  unfold decimal. intros Heq. apply lit_injective in Heq.
  assert (Hu : Nat.to_uint a = Nat.to_uint b).
  { pose proof (DecimalString.NilEmpty.usu (Nat.to_uint a)) as Ha.
    pose proof (DecimalString.NilEmpty.usu (Nat.to_uint b)) as Hb.
    rewrite Heq in Ha. congruence. }
  rewrite <- (DecimalNat.Unsigned.of_to a), <- (DecimalNat.Unsigned.of_to b).
  rewrite Hu. reflexivity.
Qed.

Lemma NoDup_map_injective {A B : Type} (f : A -> B) (l : list A) :
  (forall x y, f x = f y -> x = y) -> NoDup l -> NoDup (map f l).
Proof.
  intros Hinj. induction 1 as [|x t Hx Ht IH]; cbn [map]; constructor.
  - intros Hin. apply in_map_iff in Hin. destruct Hin as (y & Hy & Hin).
    apply Hinj in Hy. subst y. contradiction.
  - exact IH.
Qed.

Section ExportFacts.
Context {num : Type}.
Variable float_of_str : str -> option num.

Lemma export_of_row_raises (row : list (str * str)) e :
  export_of_row float_of_str row = Raise e -> e = KeyError \/ e = ValueError.
Proof.
  unfold export_of_row, csv_field, to_float.
  repeat (match goal with
          | |- context [dict_get ?k row] =>
              destruct (dict_get k row); cbn [bind]
          | |- context [float_of_str ?s] =>
              destruct (float_of_str s); cbn [bind]
          end);
    intros E; first [discriminate E | injection E as <-; auto].
Qed.

Lemma read_export_ok (rows : list (list (str * str))) :
  exists connected_carparks,
    read_export float_of_str rows = Ok connected_carparks
    /\ List.length connected_carparks <= List.length rows.
Proof.
  induction rows as [|row rest IH]; cbn [read_export List.length].
  - exists []. split; [reflexivity | cbn; lia].
  - destruct IH as (cs & Hcs & Hlen).
    destruct (export_of_row float_of_str row) as [c|e] eqn:E.
    + rewrite Hcs. cbn [bind]. exists (c :: cs).
      split; [reflexivity | cbn; lia].
    + apply export_of_row_raises in E.
      destruct E as [-> | ->]; exists cs; split; auto.
Qed.

Lemma formatted_rows_nth
  (connected_carparks : list (export_carpark (num := num))) :
  forall start i cp,
  nth_error connected_carparks i = Some cp ->
  nth_error (formatted_rows start connected_carparks) i
  = Some [Text (lit "connected_" ++ decimal (start + i));
          Text (exp_name cp); Text (exp_address cp);
          Text (exp_district cp);
          Number (exp_latitude cp); Number (exp_longitude cp)].
Proof.
  induction connected_carparks as [|c rest IH]; intros start i cp Hi.
  - destruct i; discriminate.
  - destruct i as [|i]; cbn [nth_error formatted_rows] in *.
    + injection Hi as <-. rewrite Nat.add_0_r. reflexivity.
    + rewrite (IH (start + 1) i cp Hi).
      replace (start + 1 + i) with (start + S i) by lia. reflexivity.
Qed.

Lemma formatted_rows_ids
  (connected_carparks : list (export_carpark (num := num))) :
  forall start,
  map (fun row => hd (Text []) row)
      (formatted_rows start connected_carparks)
  = map (fun i => Text (num := num) (lit "connected_" ++ decimal i))
        (seq start (List.length connected_carparks)).
Proof.
  induction connected_carparks as [|c rest IH]; intros start;
    [reflexivity|].
  cbn [formatted_rows map hd List.length seq]. f_equal.
  rewrite IH. replace (start + 1) with (S start) by lia. reflexivity.
Qed.

Lemma formatted_rows_shape
  (connected_carparks : list (export_carpark (num := num))) :
  forall start,
  List.length (formatted_rows start connected_carparks)
  = List.length connected_carparks
  /\ Forall (fun row => List.length row = 6)
            (formatted_rows start connected_carparks).
Proof.
  induction connected_carparks as [|c rest IH]; intros start;
    cbn [formatted_rows List.length].
  - split; [reflexivity | constructor].
  - destruct (IH (start + 1)) as [Hlen Hall].
    split; [rewrite Hlen; reflexivity|].
    constructor; [reflexivity | exact Hall].
Qed.

End ExportFacts.

(** ** The two coordinate methods *)

Section CoordinateMethods.
Context {num : Type} `{PyMath num} {Hord : PyFloatOrder num}.

Lemma closest_match_coord_match (c : connected_carpark num)
  (db_carparks : list (db_carpark num)) :
  match closest_match c db_carparks, coord_match c db_carparks with
  | Some (m, d), Some (m', d') => fle d d' = true
  | None, None => True
  | _, _ => False
  end.
Proof.
  unfold closest_match.
  destruct (closest_cases c db_carparks)
    as [[-> Hc] | (l1 & c0 & l2 & Hdb & Hc & Hl1 & Hl2)]; rewrite Hc.
  - exact I.
  - destruct (coord_match c db_carparks) as [[m' d']|] eqn:Hm.
    + apply coord_match_some in Hm.
      destruct Hm as (-> & Hle & l1' & l2' & Hdb' & _).
      assert (Hin : In m' db_carparks)
        by (rewrite Hdb'; apply in_or_app; right; left; reflexivity).
      assert (Hmin : fle (distance c c0) (distance c m') = true).
      { rewrite Hdb in Hin. apply in_app_or in Hin.
        destruct Hin as [Hin | [<- | Hin]].
        - apply flt_weaken. exact (Hl1 _ Hin).
        - apply fle_refl.
        - exact (Hl2 _ Hin). }
      unfold MATCH_THRESHOLD_METERS.
      rewrite (fle_trans _ _ _ Hmin Hle). exact Hmin.
    + pose proof (coord_match_none c db_carparks Hm c0) as Hfar.
      unfold MATCH_THRESHOLD_METERS. rewrite Hfar; [exact I|].
      rewrite Hdb. apply in_or_app. right. left. reflexivity.
Qed.

End CoordinateMethods.

